(** * EDAMAME score calculator: a shallow embedding of [compute_score]

    The development embeds [compute_score] of [score_calculator.py]
    and proves the properties the specification states about it.

    - Python [int] is [Z]; [//] on integers is floor division, which is
      [Z.div].
    - Python [float] is an IEEE 754 binary64 number, embedded as a
      [spec_float] with precision 53 and maximal exponent 1024; the
      operations round to nearest, ties to even.
    - Python [dict] is a [gmap], [set] is a [gset]; a JSON object whose
      keys are fixed is a record of optional fields ([None]: key absent).
    - Exceptions are an explicit result type.

    The functional model [compute_score] carries the arithmetic; the
    model [Store.compute_score] runs the same statements on a store of
    mutable objects, where object identity, aliasing and in-place
    updates are visible. *)

From Stdlib Require Import ZArith SpecFloat.
From stdpp Require Import base option list gmap strings sorting.

Local Open Scope Z_scope.

(** ** Exceptions *)

Inductive exn : Type :=
  | KeyError (key : string)
  | OverflowError
  | TypeError.

Inductive result (A : Type) : Type :=
  | Ok (a : A)
  | Raise (e : exn).
Arguments Ok {A} a.
Arguments Raise {A} e.

#[global] Instance result_ret : MRet result := λ A a, Ok a.
#[global] Instance result_bind : MBind result := λ A B f r,
  match r with
  | Ok a => f a
  | Raise e => Raise e
  end.
#[global] Instance result_fmap : FMap result := λ A B f r,
  match r with
  | Ok a => Ok (f a)
  | Raise e => Raise e
  end.

(** A [for] loop whose body may raise: the state is threaded from left
    to right and the first exception leaves the loop. *)
Fixpoint foldM {A S : Type} (body : S → A → result S) (s : S) (l : list A)
  : result S :=
  match l with
  | [] => Ok s
  | x :: l' => s' ← body s x; foldM body s' l'
  end.

(** ** Floating point *)

Definition float : Type := spec_float.
Definition prec : Z := 53.
Definition emax : Z := 1024.

Definition float_mul : float → float → float := SFmul prec emax.
Definition float_div : float → float → float := SFdiv prec emax.

(** Conversion of an [int] operand of a float operation: correctly
    rounded, [OverflowError] when the integer is out of range. *)
Definition float_of_int (z : Z) : result float :=
  match binary_normalize prec emax z 0 false with
  | S754_infinity _ => Raise OverflowError
  | f => Ok f
  end.

(** Literals [5.0], [100.0] and the values [0.0], [50.0]. *)
Definition float_lit (z : Z) : float := binary_normalize prec emax z 0 false.
Definition f0_0 : float := float_lit 0.
Definition f5_0 : float := float_lit 5.
Definition f50_0 : float := float_lit 50.
Definition f100_0 : float := float_lit 100.

(** ** Data model *)

Definition DIMENSIONS : list string :=
  [ "network"; "system services"; "system integrity"; "credentials";
    "applications" ].

(** The threat-model document as parsed from JSON. *)
Record RawMetric : Type := mkRawMetric {
  raw_name : option string;
  raw_dimension : option string;
  raw_severity : option Z;
  raw_tags : option (list string)
}.

Record ThreatModel : Type := mkThreatModel {
  tm_name : option string;
  tm_metrics : option (list RawMetric)
}.

Module MetricResult.
Record t : Type := mk {
  name : string;
  dimension : string;
  severity : Z;
  tags : list string;
  active : bool
}.
End MetricResult.

Module DimensionScore.
Record t : Type := mk {
  name : string;
  current : Z;
  maximum : Z;
  score : Z
}.
Definition has_metrics (d : t) : bool := 0 <? maximum d.
End DimensionScore.

Module ComplianceResult.
Record t : Type := mk {
  tag : string;
  compliant : Z;
  total : Z;
  percentage : float
}.
End ComplianceResult.

Module ScoreResult.
Record t : Type := mk {
  platform : string;
  dimensions : gmap string DimensionScore.t;
  overall : Z;
  stars : float;
  compliance : gmap string ComplianceResult.t;
  metrics : list MetricResult.t;
  total_metrics : Z;
  active_threats : Z;
  inactive_threats : Z
}.
End ScoreResult.

(** ** Dictionary access *)

(** [d[key]] on a JSON object: [KeyError] when the key is absent. *)
Definition getitem {A : Type} (key : string) (field : option A) : result A :=
  match field with
  | Some v => Ok v
  | None => Raise (KeyError key)
  end.

(** [d.get(key, dflt)]. *)
Definition get {A : Type} (field : option A) (dflt : A) : A :=
  match field with
  | Some v => v
  | None => dflt
  end.

(** [d[key]] on a dictionary built by the function itself. *)
Definition lookup_item {V : Type} (d : gmap string V) (key : string)
  : result V := getitem key (d !! key).

(** ** [compute_score] *)

(** The body of the loop that builds the metric results. *)
Definition build_metric (inactive_threats : gset string) (all_inactive : bool)
    (m : RawMetric) : result MetricResult.t :=
  name ← getitem "name" (raw_name m);
  let is_inactive := all_inactive || bool_decide (name ∈ inactive_threats) in
  dimension ← getitem "dimension" (raw_dimension m);
  severity ← getitem "severity" (raw_severity m);
  mret (MetricResult.mk name dimension severity (get (raw_tags m) [])
          (negb is_inactive)).

Definition build_metrics (inactive_threats : gset string)
    (all_inactive : bool) (raw_metrics : list RawMetric)
  : result (list MetricResult.t) :=
  foldM (λ metrics m,
           r ← build_metric inactive_threats all_inactive m;
           mret (metrics ++ [r]))
        [] raw_metrics.

(** [{d: (0, 0) for d in DIMENSIONS}] *)
Definition dim_accum_init : gmap string (Z * Z) :=
  foldl (λ acc d, <[d := (0, 0)]> acc) ∅ DIMENSIONS.

(** The body of the accumulation loop over the metrics. *)
Definition accum_step (dim_accum : gmap string (Z * Z)) (m : MetricResult.t)
  : result (gmap string (Z * Z)) :=
  '(current, maximum) ← lookup_item dim_accum (MetricResult.dimension m);
  let maximum := maximum + MetricResult.severity m in
  let current :=
    if negb (MetricResult.active m) then current + MetricResult.severity m
    else current in
  mret (<[MetricResult.dimension m := (current, maximum)]> dim_accum).

(** The score of one dimension. *)
Definition dimension_score (current maximum : Z) : Z :=
  if 0 <? maximum then 100 * current / maximum else -1.

(** The body of the loop over [DIMENSIONS]; the state is
    [(dimensions, overall_current, overall_max)]. *)
Definition score_step (dim_accum : gmap string (Z * Z))
    (st : gmap string DimensionScore.t * Z * Z) (dim_name : string)
  : result (gmap string DimensionScore.t * Z * Z) :=
  let '(dimensions, overall_current, overall_max) := st in
  '(current, maximum) ← lookup_item dim_accum dim_name;
  let overall_current := overall_current + current in
  let overall_max := overall_max + maximum in
  let score := dimension_score current maximum in
  mret (<[dim_name := DimensionScore.mk dim_name current maximum score]>
          dimensions,
        overall_current, overall_max).

Definition overall_score (overall_current overall_max : Z) : Z :=
  if 0 <? overall_max then 100 * overall_current / overall_max else 0.

(** [overall * 5.0 / 100.0] *)
Definition stars_of (overall : Z) : result float :=
  f ← float_of_int overall;
  mret (float_div (float_mul f f5_0) f100_0).

(** The separator character of a tag. *)
Definition comma : Ascii.ascii :=
  Ascii.Ascii false false true true false true false false.

(** [tag[: tag.index(",")]] when ["," in tag], else [tag]. *)
Definition tag_prefix (tag : string) : string :=
  match String.index 0 "," tag with
  | Some i => String.substring 0 i tag
  | None => tag
  end.

Definition collect_prefixes (metrics : list MetricResult.t) : gset string :=
  foldl (λ tag_prefixes m,
           foldl (λ tag_prefixes tag, tag_prefixes ∪ {[ tag_prefix tag ]})
                 tag_prefixes (MetricResult.tags m))
        ∅ metrics.

(** [sorted] on strings: lexicographic order. *)
Definition str_le (s1 s2 : string) : Prop := String.leb s1 s2 = true.
#[global] Instance str_le_dec : RelDecision str_le.
Proof. intros s1 s2. unfold str_le. apply _. Defined.

Definition sorted (s : gset string) : list string :=
  merge_sort str_le (elements s).

(** The two nested counting loops of one tag prefix; the state is
    [(total, compliant)]. *)
Definition count_tag (tag : string) (metrics : list MetricResult.t) : Z * Z :=
  foldl (λ st m,
           foldl (λ '(total, compliant) metric_tag,
                    if String.prefix tag metric_tag then
                      (total + 1,
                       if negb (MetricResult.active m) then compliant + 1
                       else compliant)
                    else (total, compliant))
                 st (MetricResult.tags m))
        (0, 0) metrics.

(** [(100.0 * compliant) / total] *)
Definition percentage_of (compliant total : Z) : result float :=
  c ← float_of_int compliant;
  t ← float_of_int total;
  mret (float_div (float_mul f100_0 c) t).

(** The body of the loop over the sorted tag prefixes. *)
Definition compliance_step (metrics : list MetricResult.t)
    (compliance : gmap string ComplianceResult.t) (tag : string)
  : result (gmap string ComplianceResult.t) :=
  let '(total, compliant) := count_tag tag metrics in
  if 0 <? total then
    percentage ← percentage_of compliant total;
    mret (<[tag := ComplianceResult.mk tag compliant total percentage]>
            compliance)
  else mret compliance.

(** [sum(1 for m in metrics if p(m))] *)
Definition count_if (p : MetricResult.t → bool) (metrics : list MetricResult.t)
  : Z :=
  foldl Z.add 0 ((λ _, 1) <$> List.filter p metrics).

Definition compute_score (threat_model : ThreatModel)
    (inactive_threats : option (gset string)) (all_inactive : bool)
  : result ScoreResult.t :=
  let inactive_threats := get inactive_threats ∅ in
  let raw_metrics := get (tm_metrics threat_model) [] in
  let platform := get (tm_name threat_model) "unknown" in
  metrics ← build_metrics inactive_threats all_inactive raw_metrics;
  dim_accum ← foldM accum_step dim_accum_init metrics;
  '(dimensions, overall_current, overall_max) ←
    foldM (score_step dim_accum) (∅, 0, 0) DIMENSIONS;
  let overall := overall_score overall_current overall_max in
  stars ← stars_of overall;
  let tag_prefixes := collect_prefixes metrics in
  compliance ← foldM (compliance_step metrics) ∅ (sorted tag_prefixes);
  let active_count := count_if MetricResult.active metrics in
  let inactive_count :=
    count_if (λ m, negb (MetricResult.active m)) metrics in
  mret (ScoreResult.mk platform dimensions overall stars compliance metrics
          (Z.of_nat (length metrics)) active_count inactive_count).

(** ** Specification-side notions *)

(** The metrics of dimension [d]. *)
Definition in_dimension (d : string) (m : MetricResult.t) : bool :=
  bool_decide (MetricResult.dimension m = d).

Definition inactive (m : MetricResult.t) : bool :=
  negb (MetricResult.active m).

Definition sum_severity (l : list MetricResult.t) : Z :=
  foldr (λ m s, MetricResult.severity m + s) 0 l.

(** Sum of all severities in dimension [d]. *)
Definition dim_maximum (d : string) (metrics : list MetricResult.t) : Z :=
  sum_severity (List.filter (in_dimension d) metrics).

(** Sum of the severities of the inactive metrics in dimension [d]. *)
Definition dim_current (d : string) (metrics : list MetricResult.t) : Z :=
  sum_severity
    (List.filter (λ m, in_dimension d m && inactive m) metrics).

(** Sum of a field over the five fixed dimensions of a result. *)
Definition sum_dimensions (f : DimensionScore.t → Z)
    (dimensions : gmap string DimensionScore.t) : Z :=
  foldr (λ d s, from_option f 0 (dimensions !! d) + s) 0 DIMENSIONS.

(** A returned metric [m] is the raw record [raw] with its status resolved
    against the inactive set and the override flag. *)
Definition resolves (inactive_threats : gset string) (all_inactive : bool)
    (raw : RawMetric) (m : MetricResult.t) : Prop :=
  raw_name raw = Some (MetricResult.name m) ∧
  raw_dimension raw = Some (MetricResult.dimension m) ∧
  raw_severity raw = Some (MetricResult.severity m) ∧
  MetricResult.tags m = get (raw_tags raw) [] ∧
  MetricResult.active m =
    negb (all_inactive || bool_decide (MetricResult.name m ∈ inactive_threats)).

(** All metric–tag pairs, in document order. *)
Definition tag_pairs (metrics : list MetricResult.t)
  : list (MetricResult.t * string) :=
  m ← metrics; (λ t, (m, t)) <$> MetricResult.tags m.

(** Number of metric–tag pairs whose tag starts with [p]. *)
Definition total_for (p : string) (metrics : list MetricResult.t) : Z :=
  Z.of_nat (length (List.filter (λ mt, String.prefix p mt.2)
                                (tag_pairs metrics))).

(** Number of those pairs whose owning metric is inactive. *)
Definition compliant_for (p : string) (metrics : list MetricResult.t) : Z :=
  Z.of_nat (length (List.filter (λ mt, String.prefix p mt.2 && inactive mt.1)
                                (tag_pairs metrics))).

(** The separator does not occur in [s]. *)
Definition no_comma (s : string) : Prop := ∀ a b, s ≠ a +:+ "," +:+ b.

(** [p] is the prefix of the tag [t]: the whole tag when it holds no
    separator, else the portion before its first separator. *)
Definition is_tag_prefix (p t : string) : Prop :=
  (no_comma t ∧ p = t) ∨ (no_comma p ∧ ∃ rest, t = p +:+ "," +:+ rest).

(** [p] is the prefix of some tag of some metric. *)
Definition observed_prefix (p : string) (metrics : list MetricResult.t)
  : Prop :=
  ∃ m t, m ∈ metrics ∧ t ∈ MetricResult.tags m ∧ is_tag_prefix p t.

(** The names that occur in the document's metric list. *)
Definition metric_names (threat_model : ThreatModel) : list string :=
  omap raw_name (get (tm_metrics threat_model) []).

(** A document of the input shape: every metric record has a name, one
    of the five dimensions and a severity that is not negative. *)
Definition well_formed (threat_model : ThreatModel) : Prop :=
  Forall (λ m, ∃ n d sv,
            raw_name m = Some n ∧ raw_dimension m = Some d ∧
            raw_severity m = Some sv ∧ d ∈ DIMENSIONS ∧ 0 ≤ sv)
         (get (tm_metrics threat_model) []).

(** The number of tags of the document. *)
Definition tag_count (threat_model : ThreatModel) : Z :=
  Z.of_nat (length (m ← get (tm_metrics threat_model) [];
                    get (raw_tags m) [])).

(** A metric record with the ["tags"] key filled in. *)
Definition with_tags (m : RawMetric) : RawMetric :=
  mkRawMetric (raw_name m) (raw_dimension m) (raw_severity m)
              (Some (get (raw_tags m) [])).

(** The document with the ["tags"] key filled in in every record. *)
Definition with_all_tags (threat_model : ThreatModel) : ThreatModel :=
  mkThreatModel (tm_name threat_model)
    (fmap (M:=list) with_tags <$> tm_metrics threat_model).

(** A metric record lacks one of the keys that are read with [m[key]]. *)
Definition lacks_required (m : RawMetric) : Prop :=
  raw_name m = None ∨ raw_dimension m = None ∨ raw_severity m = None.

Definition set_platform (p : string) (r : ScoreResult.t) : ScoreResult.t :=
  ScoreResult.mk p (ScoreResult.dimensions r) (ScoreResult.overall r)
    (ScoreResult.stars r) (ScoreResult.compliance r) (ScoreResult.metrics r)
    (ScoreResult.total_metrics r) (ScoreResult.active_threats r)
    (ScoreResult.inactive_threats r).


(** ** Documents of the test suite *)

Definition make_metric (name dimension : string) (severity : Z)
    (tags : list string) : RawMetric :=
  mkRawMetric (Some name) (Some dimension) (Some severity) (Some tags).

Definition make_threat_model (metrics : list RawMetric) : ThreatModel :=
  mkThreatModel (Some "test model") (Some metrics).

(** [test_integer_division] *)
Definition model_integer_division : ThreatModel :=
  make_threat_model
    [ make_metric "t1" "network" 3 []; make_metric "t2" "network" 4 [] ].

(** [test_single_tag_partial_compliant] *)
Definition model_partial_compliant : ThreatModel :=
  make_threat_model
    [ make_metric "t1" "network" 3 ["CIS Benchmark Level 1,A"];
      make_metric "t2" "network" 2 ["CIS Benchmark Level 1,B"] ].

(** [test_empty_model] *)
Definition model_empty : ThreatModel := make_threat_model [].

(** A document with a dimension outside the five labels. *)
Definition model_unknown_dimension : ThreatModel :=
  make_threat_model
    [ make_metric "net1" "network" 4 []; make_metric "door" "physical" 2 [] ].

(** A document without ["name"] and whose only metric has no ["tags"]. *)
Definition model_sparse : ThreatModel :=
  mkThreatModel None
    (Some [ mkRawMetric (Some "t1") (Some "network") (Some 3) None ]).

(** A document whose second metric has no ["severity"]. *)
Definition model_no_severity : ThreatModel :=
  make_threat_model
    [ make_metric "t1" "network" 3 [];
      mkRawMetric (Some "t2") (Some "network") None (Some []) ].

(** ** The object store

    Python values are immutable scalars and tuples, or references to
    mutable objects ([dict], [list], [set], dataclass instances) that
    live in a store.  A program is a store transformer that returns a
    value or an exception; the store survives an exception.

    The model covers documents whose fields have the types of the input
    shape: dictionaries are keyed by strings and sets hold strings; an
    operation applied to a value of another type raises [TypeError]. *)

Module Store.

Abbreviation loc := positive (only parsing).

Inductive val : Type :=
  | VNone
  | VBool (b : bool)
  | VInt (z : Z)
  | VFloat (f : float)
  | VStr (s : string)
  | VPair (v1 v2 : val)
  | VRef (l : loc).

Inductive obj : Type :=
  | ODict (d : gmap string val)
  | OList (l : list val)
  | OSet (s : gset string)
  | OInstance (cls : string) (fields : gmap string val).

Abbreviation heap := (gmap loc obj) (only parsing).

Definition prog (A : Type) : Type := heap → result A * heap.

#[global] Instance prog_ret : MRet prog := λ A a h, (Ok a, h).
#[global] Instance prog_bind : MBind prog := λ A B f c h,
  match c h with
  | (Ok a, h') => f a h'
  | (Raise e, h') => (Raise e, h')
  end.

Definition raise {A : Type} (e : exn) : prog A := λ h, (Raise e, h).

(** A pure computation that may raise. *)
Definition lift {A : Type} (r : result A) : prog A := λ h, (r, h).

(** Creation of an object: a location that the store does not hold. *)
Definition alloc (o : obj) : prog val := λ h,
  let l := fresh (dom h) in (Ok (VRef l), <[l := o]> h).

Definition read (v : val) : prog obj := λ h,
  match v with
  | VRef l =>
      match h !! l with
      | Some o => (Ok o, h)
      | None => (Raise TypeError, h)
      end
  | _ => (Raise TypeError, h)
  end.

(** In-place update of the object a reference points to. *)
Definition write (v : val) (o : obj) : prog unit := λ h,
  match v with
  | VRef l =>
      match h !! l with
      | Some _ => (Ok (), <[l := o]> h)
      | None => (Raise TypeError, h)
      end
  | _ => (Raise TypeError, h)
  end.

(** A [for] loop with local variables [s]. *)
Fixpoint for_fold {A S : Type} (body : S → A → prog S) (s : S) (l : list A)
  : prog S :=
  match l with
  | [] => mret s
  | x :: l' => s' ← body s x; for_fold body s' l'
  end.

Definition for_each {A : Type} (l : list A) (body : A → prog unit)
  : prog unit :=
  for_fold (λ _ x, body x) () l.

(** *** Conversions of dynamically typed values *)

Definition as_int (v : val) : prog Z :=
  match v with VInt z => mret z | _ => raise TypeError end.

Definition as_str (v : val) : prog string :=
  match v with VStr s => mret s | _ => raise TypeError end.

Definition as_bool (v : val) : prog bool :=
  match v with VBool b => mret b | _ => raise TypeError end.

Definition as_int_pair (v : val) : prog (Z * Z) :=
  match v with
  | VPair (VInt a) (VInt b) => mret (a, b)
  | _ => raise TypeError
  end.

(** *** Operations on objects *)

(** [d[key]] *)
Definition dict_getitem (d : val) (key : string) : prog val :=
  o ← read d;
  match o with
  | ODict m =>
      match m !! key with
      | Some v => mret v
      | None => raise (KeyError key)
      end
  | _ => raise TypeError
  end.

(** [d.get(key, dflt)] *)
Definition dict_get (d : val) (key : string) (dflt : val) : prog val :=
  o ← read d;
  match o with
  | ODict m => mret (default dflt (m !! key))
  | _ => raise TypeError
  end.

(** [d[key] = v] *)
Definition dict_setitem (d : val) (key : string) (v : val) : prog unit :=
  o ← read d;
  match o with
  | ODict m => write d (ODict (<[key := v]> m))
  | _ => raise TypeError
  end.

(** [l.append(v)] *)
Definition list_append (l : val) (v : val) : prog unit :=
  o ← read l;
  match o with
  | OList vs => write l (OList (vs ++ [v]))
  | _ => raise TypeError
  end.

(** The elements a [for] loop over the list [l] visits. *)
Definition list_items (l : val) : prog (list val) :=
  o ← read l;
  match o with
  | OList vs => mret vs
  | _ => raise TypeError
  end.

(** [len(l)] *)
Definition list_len (l : val) : prog Z :=
  vs ← list_items l; mret (Z.of_nat (length vs)).

(** [s.add(x)] *)
Definition set_add (s : val) (x : string) : prog unit :=
  o ← read s;
  match o with
  | OSet xs => write s (OSet (xs ∪ {[ x ]}))
  | _ => raise TypeError
  end.

(** [x in s]: a string is looked up, another hashable value is not a
    member, a reference to a mutable object is not hashable. *)
Definition set_contains (s : val) (x : val) : prog bool :=
  o ← read s;
  match o with
  | OSet xs =>
      match x with
      | VStr n => mret (bool_decide (n ∈ xs))
      | VRef _ => raise TypeError
      | _ => mret false
      end
  | _ => raise TypeError
  end.

(** [sorted(s)]: a new list. *)
Definition set_sorted (s : val) : prog val :=
  o ← read s;
  match o with
  | OSet xs => alloc (OList (VStr <$> sorted xs))
  | _ => raise TypeError
  end.

(** [o.field] on a dataclass instance. *)
Definition getattr (o : val) (field : string) : prog val :=
  i ← read o;
  match i with
  | OInstance _ fields =>
      match fields !! field with
      | Some v => mret v
      | None => raise TypeError
      end
  | _ => raise TypeError
  end.

(** [Cls(field=value, ...)] *)
Definition new_instance (cls : string) (fields : list (string * val))
  : prog val :=
  alloc (OInstance cls (list_to_map fields)).

(** *** [compute_score] on the store *)

(** The body of the loop that builds the metric results. *)
Definition build_metric (inactive_threats : val) (all_inactive : bool)
    (metrics : val) (m : val) : prog unit :=
  name ← dict_getitem m "name";
  is_inactive ←
    (if all_inactive then mret true
     else set_contains inactive_threats name);
  dimension ← dict_getitem m "dimension";
  severity ← dict_getitem m "severity";
  dflt ← alloc (OList []);
  tags ← dict_get m "tags" dflt;
  r ← new_instance "MetricResult"
        [ ("name", name); ("dimension", dimension); ("severity", severity);
          ("tags", tags); ("active", VBool (negb is_inactive)) ];
  list_append metrics r.

(** The body of the accumulation loop over the metrics. *)
Definition accum_step (dim_accum : val) (m : val) : prog unit :=
  dimension ← getattr m "dimension" ≫= as_str;
  '(current, maximum) ← dict_getitem dim_accum dimension ≫= as_int_pair;
  severity ← getattr m "severity" ≫= as_int;
  let maximum := maximum + severity in
  active ← getattr m "active" ≫= as_bool;
  current ←
    (if negb active then
       severity ← getattr m "severity" ≫= as_int; mret (current + severity)
     else mret current);
  dimension ← getattr m "dimension" ≫= as_str;
  dict_setitem dim_accum dimension (VPair (VInt current) (VInt maximum)).

(** The body of the loop over [DIMENSIONS]; the local variables are
    [(overall_current, overall_max)]. *)
Definition score_step (dim_accum dimensions : val) (st : Z * Z)
    (dim_name : string) : prog (Z * Z) :=
  let '(overall_current, overall_max) := st in
  '(current, maximum) ← dict_getitem dim_accum dim_name ≫= as_int_pair;
  let overall_current := overall_current + current in
  let overall_max := overall_max + maximum in
  let score := dimension_score current maximum in
  ds ← new_instance "DimensionScore"
         [ ("name", VStr dim_name); ("current", VInt current);
           ("maximum", VInt maximum); ("score", VInt score) ];
  dict_setitem dimensions dim_name ds;;
  mret (overall_current, overall_max).

(** The loops that collect the tag prefixes. *)
Definition collect_prefixes (tag_prefixes metrics : val) : prog unit :=
  ms ← list_items metrics;
  for_each ms (λ m,
    tags ← getattr m "tags" ≫= list_items;
    for_each tags (λ tag,
      tag ← as_str tag;
      set_add tag_prefixes (tag_prefix tag))).

(** The two nested counting loops of one tag prefix; the local
    variables are [(total, compliant)]. *)
Definition count_tag (tag : string) (metrics : val) : prog (Z * Z) :=
  ms ← list_items metrics;
  for_fold (λ st m,
    tags ← getattr m "tags" ≫= list_items;
    for_fold (λ '(total, compliant) metric_tag,
      metric_tag ← as_str metric_tag;
      if String.prefix tag metric_tag then
        active ← getattr m "active" ≫= as_bool;
        mret (total + 1, if negb active then compliant + 1 else compliant)
      else mret (total, compliant))
      st tags)
    (0, 0) ms.

(** The body of the loop over the sorted tag prefixes. *)
Definition compliance_step (compliance metrics : val) (tag : val)
  : prog unit :=
  tag ← as_str tag;
  '(total, compliant) ← count_tag tag metrics;
  if 0 <? total then
    percentage ← lift (percentage_of compliant total);
    c ← new_instance "ComplianceResult"
          [ ("tag", VStr tag); ("compliant", VInt compliant);
            ("total", VInt total); ("percentage", VFloat percentage) ];
    dict_setitem compliance tag c
  else mret ().

(** [sum(1 for m in metrics if p(m.active))] *)
Definition count_if (p : bool → bool) (metrics : val) : prog Z :=
  ms ← list_items metrics;
  for_fold (λ n m,
    active ← getattr m "active" ≫= as_bool;
    mret (if p active then n + 1 else n))
    0 ms.

Definition compute_score (threat_model inactive_threats : val)
    (all_inactive : bool) : prog val :=
  inactive_threats ←
    (match inactive_threats with
     | VNone => alloc (OSet ∅)
     | _ => mret inactive_threats
     end);
  dflt ← alloc (OList []);
  raw_metrics ← dict_get threat_model "metrics" dflt;
  platform ← dict_get threat_model "name" (VStr "unknown");
  metrics ← alloc (OList []);
  raws ← list_items raw_metrics;
  for_each raws (build_metric inactive_threats all_inactive metrics);;
  dim_accum ←
    alloc (ODict (list_to_map
                    ((λ d, (d, VPair (VInt 0) (VInt 0))) <$> DIMENSIONS)));
  ms ← list_items metrics;
  for_each ms (accum_step dim_accum);;
  dimensions ← alloc (ODict ∅);
  '(overall_current, overall_max) ←
    for_fold (score_step dim_accum dimensions) (0, 0) DIMENSIONS;
  let overall := overall_score overall_current overall_max in
  stars ← lift (stars_of overall);
  tag_prefixes ← alloc (OSet ∅);
  collect_prefixes tag_prefixes metrics;;
  compliance ← alloc (ODict ∅);
  prefixes ← set_sorted tag_prefixes ≫= list_items;
  for_each prefixes (compliance_step compliance metrics);;
  active_count ← count_if (λ active, active) metrics;
  inactive_count ← count_if negb metrics;
  total_metrics ← list_len metrics;
  new_instance "ScoreResult"
    [ ("platform", platform); ("dimensions", dimensions);
      ("overall", VInt overall); ("stars", VFloat stars);
      ("compliance", compliance); ("metrics", metrics);
      ("total_metrics", VInt total_metrics);
      ("active_threats", VInt active_count);
      ("inactive_threats", VInt inactive_count) ].

(** *** Reading a result back *)

(** The objects a reference leads to, as a store-free value. *)
Definition read_field (h : heap) (v : val) (field : string) : option val :=
  match v with
  | VRef l =>
      match h !! l with
      | Some (OInstance _ fields) => fields !! field
      | Some (ODict d) => d !! field
      | _ => None
      end
  | _ => None
  end.

Definition read_list (h : heap) (v : val) : option (list val) :=
  match v with
  | VRef l =>
      match h !! l with
      | Some (OList vs) => Some vs
      | _ => None
      end
  | _ => None
  end.

Definition read_dict (h : gmap loc obj) (v : val)
  : option (gmap string val) :=
  match v with
  | VRef l =>
      match h !! l with
      | Some (ODict d) => Some d
      | _ => None
      end
  | _ => None
  end.

Definition decode_str (v : val) : option string :=
  match v with VStr s => Some s | _ => None end.

Definition decode_int (v : val) : option Z :=
  match v with VInt z => Some z | _ => None end.

Definition decode_float (v : val) : option float :=
  match v with VFloat f => Some f | _ => None end.

Definition decode_bool (v : val) : option bool :=
  match v with VBool b => Some b | _ => None end.

(** A dictionary all of whose values decode. *)
Definition decode_dict {A : Type} (f : val → option A) (d : gmap string val)
  : option (gmap string A) :=
  let d' := omap f d in
  if bool_decide (dom d' = dom d) then Some d' else None.

Definition field_str (h : gmap loc obj) (v : val) (field : string)
  : option string :=
  x ← read_field h v field; decode_str x.

Definition field_int (h : gmap loc obj) (v : val) (field : string)
  : option Z :=
  x ← read_field h v field; decode_int x.

Definition field_float (h : gmap loc obj) (v : val) (field : string)
  : option float :=
  x ← read_field h v field; decode_float x.

Definition field_bool (h : gmap loc obj) (v : val) (field : string)
  : option bool :=
  x ← read_field h v field; decode_bool x.

Definition field_list {A : Type} (f : val → option A) (h : gmap loc obj)
    (v : val) (field : string) : option (list A) :=
  x ← read_field h v field; vs ← read_list h x; mapM (M:=option) f vs.

Definition field_dict {A : Type} (f : val → option A) (h : gmap loc obj)
    (v : val) (field : string) : option (gmap string A) :=
  x ← read_field h v field; d ← read_dict h x; decode_dict f d.

Definition decode_metric (h : gmap loc obj) (v : val)
  : option MetricResult.t :=
  name ← field_str h v "name";
  dimension ← field_str h v "dimension";
  severity ← field_int h v "severity";
  tags ← field_list decode_str h v "tags";
  active ← field_bool h v "active";
  Some (MetricResult.mk name dimension severity tags active).

Definition decode_dimension (h : gmap loc obj) (v : val)
  : option DimensionScore.t :=
  name ← field_str h v "name";
  current ← field_int h v "current";
  maximum ← field_int h v "maximum";
  score ← field_int h v "score";
  Some (DimensionScore.mk name current maximum score).

Definition decode_compliance (h : gmap loc obj) (v : val)
  : option ComplianceResult.t :=
  tag ← field_str h v "tag";
  compliant ← field_int h v "compliant";
  total ← field_int h v "total";
  percentage ← field_float h v "percentage";
  Some (ComplianceResult.mk tag compliant total percentage).

(** The [ScoreResult] object [v] of the store [h] as a value. *)
Definition decode_result (h : gmap loc obj) (v : val)
  : option ScoreResult.t :=
  platform ← field_str h v "platform";
  dimensions ← field_dict (decode_dimension h) h v "dimensions";
  overall ← field_int h v "overall";
  stars ← field_float h v "stars";
  compliance ← field_dict (decode_compliance h) h v "compliance";
  metrics ← field_list (decode_metric h) h v "metrics";
  total_metrics ← field_int h v "total_metrics";
  active_threats ← field_int h v "active_threats";
  inactive_threats ← field_int h v "inactive_threats";
  Some (ScoreResult.mk platform dimensions overall stars compliance metrics
          total_metrics active_threats inactive_threats).

(** The outcome of a run as an outcome of the functional model. *)
Definition decode_run (run : result val * gmap loc obj)
  : option (result ScoreResult.t) :=
  match run.1 with
  | Ok v => r ← decode_result run.2 v; Some (Ok r)
  | Raise e => Some (Raise e)
  end.

(** *** Documents and results in the store *)

(** The fields of the dataclass instances. *)
Definition metric_fields (tags : val) (m : MetricResult.t)
  : list (string * val) :=
  [ ("name", VStr (MetricResult.name m));
    ("dimension", VStr (MetricResult.dimension m));
    ("severity", VInt (MetricResult.severity m));
    ("tags", tags); ("active", VBool (MetricResult.active m)) ].

Definition dimension_fields (ds : DimensionScore.t) : list (string * val) :=
  [ ("name", VStr (DimensionScore.name ds));
    ("current", VInt (DimensionScore.current ds));
    ("maximum", VInt (DimensionScore.maximum ds));
    ("score", VInt (DimensionScore.score ds)) ].

Definition compliance_fields (c : ComplianceResult.t)
  : list (string * val) :=
  [ ("tag", VStr (ComplianceResult.tag c));
    ("compliant", VInt (ComplianceResult.compliant c));
    ("total", VInt (ComplianceResult.total c));
    ("percentage", VFloat (ComplianceResult.percentage c)) ].

(** [v] refers to a list of the strings [l]. *)
Definition str_list_at (h : gmap loc obj) (v : val) (l : list string)
  : Prop :=
  read_list h v = Some (VStr <$> l).

(** [v] refers to the metric record [m] of a document. *)
Definition raw_metric_at (h : gmap loc obj) (v : val) (m : RawMetric)
  : Prop :=
  ∃ d, read_dict h v = Some d ∧
    d !! "name" = VStr <$> raw_name m ∧
    d !! "dimension" = VStr <$> raw_dimension m ∧
    d !! "severity" = VInt <$> raw_severity m ∧
    match raw_tags m with
    | Some ts => ∃ tv, d !! "tags" = Some tv ∧ str_list_at h tv ts
    | None => d !! "tags" = None
    end.

(** [v] refers to the document [tm]. *)
Definition doc_at (h : gmap loc obj) (v : val) (tm : ThreatModel) : Prop :=
  ∃ d, read_dict h v = Some d ∧
    d !! "name" = VStr <$> tm_name tm ∧
    match tm_metrics tm with
    | Some ms =>
        ∃ mv vs, d !! "metrics" = Some mv ∧ read_list h mv = Some vs ∧
                 Forall2 (raw_metric_at h) vs ms
    | None => d !! "metrics" = None
    end.

(** [v] is the argument [inactive_threats]: [None] or a set of names. *)
Definition inactive_at (h : gmap loc obj) (v : val)
    (it : option (gset string)) : Prop :=
  match it with
  | None => v = VNone
  | Some s => ∃ l, v = VRef l ∧ h !! l = Some (OSet s)
  end.

(** [v] refers to the [MetricResult] object of [m]. *)
Definition metric_at (h : gmap loc obj) (v : val) (m : MetricResult.t)
  : Prop :=
  ∃ l tv, v = VRef l ∧
    h !! l = Some (OInstance "MetricResult"
                     (list_to_map (metric_fields tv m))) ∧
    str_list_at h tv (MetricResult.tags m).

Definition dimension_at (h : gmap loc obj) (v : val) (ds : DimensionScore.t)
  : Prop :=
  ∃ l, v = VRef l ∧
    h !! l = Some (OInstance "DimensionScore"
                     (list_to_map (dimension_fields ds))).

Definition compliance_at (h : gmap loc obj) (v : val)
    (c : ComplianceResult.t) : Prop :=
  ∃ l, v = VRef l ∧
    h !! l = Some (OInstance "ComplianceResult"
                     (list_to_map (compliance_fields c))).

(** The dictionary [d] of references holds the objects of [m]. *)
Definition dict_at {A : Type} (at_ : val → A → Prop) (d : gmap string val)
    (m : gmap string A) : Prop :=
  ∀ k, match m !! k with
       | Some x => ∃ v, d !! k = Some v ∧ at_ v x
       | None => d !! k = None
       end.

(** The accumulator of the dimension pass as a dictionary of tuples. *)
Definition encode_accum (acc : gmap string (Z * Z)) : gmap string val :=
  (λ cm : Z * Z, VPair (VInt cm.1) (VInt cm.2)) <$> acc.

(** [v] refers to the [MetricResult] object of [xm.2] that was built from
    the record at [xm.1]: when the record has a ["tags"] entry, the
    attribute [tags] of the object is that entry, the same reference. *)
Definition metric_of (h : gmap loc obj) (v : val)
    (xm : val * MetricResult.t) : Prop :=
  metric_at h v xm.2 ∧
  ∃ d, read_dict h xm.1 = Some d ∧
    ∀ tv, d !! "tags" = Some tv → read_field h v "tags" = Some tv.

(** The invariant of a loop that fills the list at [lc] with references
    to new objects: the objects of [gb] and the objects created so far
    are in the part [g] of the store that the loop leaves alone. *)
Definition filling_list {A : Type} (at_ : gmap loc obj → val → A → Prop)
    (gb : gmap loc obj) (lc : loc) (xs : list A) (h : gmap loc obj) : Prop :=
  ∃ g vs, gb ⊆ g ∧ g ⊆ h ∧ g !! lc = None ∧ h !! lc = Some (OList vs) ∧
          Forall2 (at_ g) vs xs.

(** The same for a dictionary at [lc]. *)
Definition filling_dict {A : Type} (at_ : gmap loc obj → val → A → Prop)
    (gb : gmap loc obj) (lc : loc) (m : gmap string A) (h : gmap loc obj)
  : Prop :=
  ∃ g d, gb ⊆ g ∧ g ⊆ h ∧ g !! lc = None ∧ h !! lc = Some (ODict d) ∧
         dict_at (at_ g) d m.

(** The outcome [run] of [compute_score] on the store [h], for the
    document at [tmv], agrees with the outcome [res] of the functional
    model: a raised exception is the same; a returned value is a new
    [ScoreResult] object, in a store that extends [h], that reads back as
    the functional result, and whose metric list holds the objects built
    from the records [xs] of the document's list, in order. *)
Definition run_agrees (h : gmap loc obj) (tmv : val)
    (run : result val * gmap loc obj) (res : result ScoreResult.t) : Prop :=
  match res with
  | Ok r =>
      ∃ lres fields lm vs g xs,
        run.1 = Ok (VRef lres) ∧ h ⊆ run.2 ∧ h !! lres = None ∧
        run.2 !! lres = Some (OInstance "ScoreResult" fields) ∧
        fields !! "metrics" = Some (VRef lm) ∧
        g ⊆ run.2 ∧ g !! lm = Some (OList vs) ∧
        Forall2 (metric_of g) vs (zip xs (ScoreResult.metrics r)) ∧
        (∀ mv, read_field h tmv "metrics" = Some mv →
               read_list h mv = Some xs) ∧
        decode_result run.2 (VRef lres) = Some r
  | Raise e => run.1 = Raise e
  end.

(** Every object of [h0] is in [h], unchanged. *)
Definition unchanged (h0 h : heap) : Prop :=
  ∀ l o, h0 !! l = Some o → h !! l = Some o.

(** [v] refers to an object that [h0] does not hold. *)
Definition fresh_ref (h0 : heap) (v : val) : Prop :=
  ∃ l, v = VRef l ∧ h0 !! l = None.

(** A run of [c] from a store that extends [h0] leaves the objects of
    [h0] unchanged, whether it returns or raises, and a returned value
    satisfies [Q]. *)
Definition frame_spec {A : Type} (h0 : heap) (c : prog A) (Q : A → Prop)
  : Prop :=
  ∀ h, unchanged h0 h →
       unchanged h0 (c h).2 ∧ ∀ a, (c h).1 = Ok a → Q a.

(** A value that [c] returns satisfies [Q] in the store the run ends
    in. *)
Definition returns {A : Type} (c : prog A) (Q : A → gmap loc obj → Prop)
  : Prop :=
  ∀ h a h', c h = (Ok a, h') → Q a h'.

(** *** A document of the test suite in the store

    [{"name": "test model", "metrics": [{"name": "t1", "dimension":
    "network", "severity": 3, "tags": ["CIS,A"]}, {"name": "t2",
    "dimension": "network", "severity": 4}]}] with the inactive set
    [{"t1"}] at location 6. *)
Definition doc_heap : heap :=
  list_to_map
    [ (1%positive, OList [VStr "CIS,A"]);
      (2%positive,
       ODict (list_to_map
                [ ("name", VStr "t1"); ("dimension", VStr "network");
                  ("severity", VInt 3); ("tags", VRef 1%positive) ]));
      (3%positive,
       ODict (list_to_map
                [ ("name", VStr "t2"); ("dimension", VStr "network");
                  ("severity", VInt 4) ]));
      (4%positive, OList [VRef 2%positive; VRef 3%positive]);
      (5%positive,
       ODict (list_to_map
                [ ("name", VStr "test model"); ("metrics", VRef 4%positive) ]));
      (6%positive, OSet {[ "t1" ]}) ].

(** The same document for the functional model. *)
Definition doc_model : ThreatModel :=
  mkThreatModel (Some "test model")
    (Some [ mkRawMetric (Some "t1") (Some "network") (Some 3)
                        (Some ["CIS,A"]);
            mkRawMetric (Some "t2") (Some "network") (Some 4) None ]).

(** [{"metrics": [{"name": "door", "dimension": "physical",
    "severity": 2, "tags": []}]}] *)
Definition unknown_heap : gmap loc obj :=
  list_to_map
    [ (1%positive, OList []);
      (2%positive,
       ODict (list_to_map
                [ ("name", VStr "door"); ("dimension", VStr "physical");
                  ("severity", VInt 2); ("tags", VRef 1%positive) ]));
      (3%positive, OList [VRef 2%positive]);
      (4%positive, ODict (list_to_map [ ("metrics", VRef 3%positive) ])) ].

Definition unknown_model : ThreatModel :=
  mkThreatModel None
    (Some [ mkRawMetric (Some "door") (Some "physical") (Some 2)
                        (Some []) ]).

End Store.

(** ** Further notions for [compute_score] *)

(** No severity of the document is negative (the docstring of
    [compute_score] speaks of severity weights 1-5). *)
Definition nonneg_severities (threat_model : ThreatModel) : Prop :=
  Forall (λ m, ∀ sv, raw_severity m = Some sv → 0 ≤ sv)
         (get (tm_metrics threat_model) []).

(** [is_inactive] of the loop that builds the metric results. *)
Definition is_inactive (inactive_threats : option (gset string))
    (all_inactive : bool) (name : string) : bool :=
  all_inactive || bool_decide (name ∈ get inactive_threats ∅).

(** The document with its metric list replaced. *)
Definition with_metrics (threat_model : ThreatModel)
    (metrics : list RawMetric) : ThreatModel :=
  mkThreatModel (tm_name threat_model) (Some metrics).

(** Two results for the same metric, the second inactive whenever the
    first is. *)
Definition less_inactive (m m' : MetricResult.t) : Prop :=
  MetricResult.dimension m = MetricResult.dimension m' ∧
  MetricResult.severity m = MetricResult.severity m' ∧
  (inactive m = true → inactive m' = true).

(** The result with its metric list replaced. *)
Definition set_metrics (metrics : list MetricResult.t) (r : ScoreResult.t)
  : ScoreResult.t :=
  ScoreResult.mk (ScoreResult.platform r) (ScoreResult.dimensions r)
    (ScoreResult.overall r) (ScoreResult.stars r) (ScoreResult.compliance r)
    metrics (ScoreResult.total_metrics r) (ScoreResult.active_threats r)
    (ScoreResult.inactive_threats r).

(** * The reports and the command line *)

From stdpp Require Import pretty.

Local Open Scope Z_scope.

(** ** Exceptions of the command line

    The exception classes that the command-line code raises, catches or
    lets through.  [JSONDecodeError] and [UnicodeDecodeError] are
    subclasses of [ValueError]; [HTTPError] is a subclass of [URLError];
    an exception of [compute_score] is a [CoreError]; [OtherError] is an
    exception of any class that no [except] clause of the program names.
    [ConnectionError] stands for the class and its subclasses.  The
    string of a constructor is [str(e)]. *)
Inductive exc : Type :=
  | ValueError (msg : string)
  | JSONDecodeError (msg : string)
  | UnicodeDecodeError (msg : string)
  | FileNotFoundError (msg : string)
  | ConnectionError (msg : string)
  | HTTPError (code : Z)
  | URLError (reason : string)
  | CoreError (e : exn)
  | OtherError (msg : string).

Inductive outcome (A : Type) : Type :=
  | Done (a : A)
  | Raised (e : exc).
Arguments Done {A} a.
Arguments Raised {A} e.

#[global] Instance outcome_ret : MRet outcome := λ A a, Done a.
#[global] Instance outcome_bind : MBind outcome := λ A B f r,
  match r with
  | Done a => f a
  | Raised e => Raised e
  end.

(** An outcome of [compute_score] in the command line. *)
Definition of_result {A : Type} (r : result A) : outcome A :=
  match r with
  | Ok a => Done a
  | Raise e => Raised (CoreError e)
  end.

(** ** Text

    A string is a sequence of 8-bit characters.  The lengths, the order
    and the letter cases below are those of Python's strings on ASCII
    text. *)

Definition newline : string := String (Ascii.ascii_of_nat 10) "".

(** [s * n]: empty when [n] is not positive. *)
Definition str_repeat (s : string) (n : Z) : string :=
  Nat.iter (Z.to_nat n) (λ r, s +:+ r) "".

(** [f"{s:<{width}s}"]: [s] padded with spaces on the right. *)
Definition pad_right (width : nat) (s : string) : string :=
  s +:+ str_repeat " " (Z.of_nat width - Z.of_nat (String.length s)).

(** [f"{s:>{width}s}"]: [s] padded with spaces on the left. *)
Definition pad_left (width : nat) (s : string) : string :=
  str_repeat " " (Z.of_nat width - Z.of_nat (String.length s)) +:+ s.

Definition is_lower (c : Ascii.ascii) : bool :=
  (97 <=? Ascii.nat_of_ascii c)%nat && (Ascii.nat_of_ascii c <=? 122)%nat.
Definition is_upper (c : Ascii.ascii) : bool :=
  (65 <=? Ascii.nat_of_ascii c)%nat && (Ascii.nat_of_ascii c <=? 90)%nat.
Definition to_upper (c : Ascii.ascii) : Ascii.ascii :=
  if is_lower c then Ascii.ascii_of_nat (Ascii.nat_of_ascii c - 32) else c.
Definition to_lower (c : Ascii.ascii) : Ascii.ascii :=
  if is_upper c then Ascii.ascii_of_nat (Ascii.nat_of_ascii c + 32) else c.

(** [str.title] on ASCII text: a letter after a letter is lowercased, a
    letter after anything else is uppercased. *)
Fixpoint title_from (previous_is_cased : bool) (s : string) : string :=
  match s with
  | EmptyString => EmptyString
  | String c s' =>
      if is_lower c || is_upper c then
        String (if previous_is_cased then to_lower c else to_upper c)
               (title_from true s')
      else String c (title_from false s')
  end.
Definition title (s : string) : string := title_from false s.

(** [sorted(l, key=...)]: a stable sort, here by insertion; [le x y] is
    [key(x) <= key(y)]. *)
Fixpoint insert_sorted {A : Type} (le : A → A → bool) (x : A) (l : list A)
  : list A :=
  match l with
  | [] => [x]
  | y :: l' => if le x y then x :: l else y :: insert_sorted le x l'
  end.
Definition sorted_by {A : Type} (le : A → A → bool) (l : list A) : list A :=
  foldr (insert_sorted le) [] l.

(** ** Floating point in the reports *)

Definition float_sub : float → float → float := SFsub prec emax.

(** The literal [0.5]. *)
Definition f0_5 : float := binary_normalize prec emax 1 (-1) false.

(** [x >= y] on floats: false when an operand is not a number. *)
Definition float_ge (x y : float) : bool :=
  match SFcompare x y with
  | Some Gt | Some Eq => true
  | _ => false
  end.

(** [int(x)]: the integral part; [OverflowError] on an infinity and
    [ValueError] on a NaN. *)
Definition int_of_float (x : float) : outcome Z :=
  match x with
  | S754_zero _ => Done 0
  | S754_finite s m e =>
      let v := if 0 <=? e then Z.pos m * 2 ^ e else Z.pos m / 2 ^ (- e) in
      Done (if s then - v else v)
  | S754_infinity _ =>
      Raised (CoreError OverflowError)
  | S754_nan => Raised (ValueError "cannot convert float NaN to integer")
  end.

(** The integer nearest to [m * 2^e * 10], ties to even. *)
Definition tenths (m : positive) (e : Z) : Z :=
  if 0 <=? e then Z.pos m * 2 ^ e * 10
  else
    let den := 2 ^ (- e) in
    let q := Z.pos m * 10 / den in
    let r := Z.pos m * 10 mod den in
    if (den <? 2 * r) || ((den =? 2 * r) && Z.odd q) then q + 1 else q.

(** [f"{x:.1f}"]: one digit after the point, correctly rounded. *)
Definition format_1f (x : float) : string :=
  match x with
  | S754_zero s => if s then "-0.0" else "0.0"
  | S754_infinity s => if s then "-inf" else "inf"
  | S754_nan => "nan"
  | S754_finite s m e =>
      let n := tenths m e in
      (if s then "-" else "") +:+ pretty (n / 10) +:+ "." +:+ pretty (n mod 10)
  end.

(** ** [format_text_report] *)

(** The star bar of the report: [star_display]. *)
Definition star_display (stars : float) : outcome string :=
  filled ← int_of_float stars;
  f ← of_result (float_of_int filled);
  let half := if float_ge (float_sub stars f) f0_5 then 1 else 0 in
  let empty := 5 - filled - half in
  mret (str_repeat "*" filled +:+ (if half =? 0 then "" else "+")
        +:+ str_repeat "." empty).

(** The line of one dimension. *)
Definition dimension_line (dimensions : gmap string DimensionScore.t)
    (dim_name : string) : outcome string :=
  dim ← of_result (lookup_item dimensions dim_name);
  let score_str :=
    if DimensionScore.score dim =? -1 then "N/A (no metrics)"
    else pretty (DimensionScore.score dim) +:+ "%" in
  let label := title (DimensionScore.name dim) in
  mret ("  " +:+ pad_right 20 label +:+ " " +:+ pad_left 6 score_str
        +:+ "  (" +:+ pretty (DimensionScore.current dim) +:+ "/"
        +:+ pretty (DimensionScore.maximum dim) +:+ ")").

(** [key(x) <= key(y)] for the key [(-x.severity, x.name)]. *)
Definition by_severity_then_name (x y : MetricResult.t) : bool :=
  (- MetricResult.severity x <? - MetricResult.severity y)
  || ((- MetricResult.severity x =? - MetricResult.severity y)
      && String.leb (MetricResult.name x) (MetricResult.name y)).

(** The line of one metric. *)
Definition threat_line (m : MetricResult.t) : string :=
  let status := if MetricResult.active m then "ACTIVE" else "OK" in
  "  [" +:+ pad_right 6 status +:+ "] (sev "
  +:+ pretty (MetricResult.severity m) +:+ ") " +:+ MetricResult.name m.

(** The line of one compliance entry. *)
Definition compliance_line (compliance : gmap string ComplianceResult.t)
    (tag : string) : outcome string :=
  c ← of_result (lookup_item compliance tag);
  mret ("  " +:+ pad_right 30 tag +:+ " "
        +:+ pad_left 5 (format_1f (ComplianceResult.percentage c))
        +:+ "%  (" +:+ pretty (ComplianceResult.compliant c) +:+ "/"
        +:+ pretty (ComplianceResult.total c) +:+ ")").

(** The list [lines] at the end of [format_text_report]. *)
Definition report_lines (result : ScoreResult.t) : outcome (list string) :=
  let lines :=
    [ "EDAMAME Security Score - " +:+ ScoreResult.platform result;
      str_repeat "=" 60; "" ] in
  stars ← star_display (ScoreResult.stars result);
  let lines := lines ++
    [ "  Stars:   " +:+ format_1f (ScoreResult.stars result)
      +:+ " / 5.0  [" +:+ stars +:+ "]";
      "  Overall: " +:+ pretty (ScoreResult.overall result) +:+ "%";
      "";
      "Dimension Scores"; str_repeat "-" 40 ] in
  dims ← mapM (dimension_line (ScoreResult.dimensions result)) DIMENSIONS;
  let lines := lines ++ dims ++
    [ "";
      "Threats: " +:+ pretty (ScoreResult.total_metrics result)
      +:+ " total, " +:+ pretty (ScoreResult.active_threats result)
      +:+ " active, " +:+ pretty (ScoreResult.inactive_threats result)
      +:+ " inactive";
      str_repeat "-" 40 ] in
  let lines := lines ++
    (threat_line <$> sorted_by by_severity_then_name
                       (ScoreResult.metrics result)) ++ [""] in
  if bool_decide (ScoreResult.compliance result = ∅) then mret lines
  else
    entries ← mapM (compliance_line (ScoreResult.compliance result))
                   (sorted (dom (ScoreResult.compliance result)));
    mret (lines ++ ["Compliance"; str_repeat "-" 40] ++ entries ++ [""]).

Definition format_text_report (result : ScoreResult.t) : outcome string :=
  lines ← report_lines result;
  mret (String.concat newline lines).

(** ** The outside world

    The program reads files, fetches a URL and prints.  A run is a
    function of the world: what the files hold and what the server
    answers.  It yields the trace of what it did and its outcome. *)

(** The JSON value of a checks file, as [load_checks_file] tells them
    apart: a list of names, an object whose values are lists of names, or
    a value that is neither a list nor an object. *)
Inductive checks_json : Type :=
  | ChecksList (names : list string)
  | ChecksDict (d : gmap string (list string))
  | ChecksOther.

Record World : Type := mkWorld {
  (** [open(path)] and [json.load] of a threat model *)
  open_model : string → outcome ThreatModel;
  (** [open(path)] and [json.load] of a checks file *)
  open_checks : string → outcome checks_json;
  (** [urlopen], [read], [decode] and [json.loads] *)
  urlopen : string → outcome ThreatModel
}.

Inductive event : Type :=
  | Opened (path : string)
  | Requested (url user_agent : string) (timeout : Z)
  | Stdout (text : string)
  | Stderr (text : string).

Definition io (A : Type) : Type := World → list event * outcome A.

#[global] Instance io_ret : MRet io := λ A a w, ([], Done a).
#[global] Instance io_bind : MBind io := λ A B f c w,
  match c w with
  | (t, Done a) => let '(t', r) := f a w in (t ++ t', r)
  | (t, Raised e) => (t, Raised e)
  end.

Definition io_raise {A : Type} (e : exc) : io A := λ w, ([], Raised e).
Definition io_lift {A : Type} (r : outcome A) : io A := λ w, ([], r).
Definition emit (ev : event) : io () := λ w, ([ev], Done ()).

(** What the world answers. *)
Definition ask {A : Type} (q : World → outcome A) : io A := λ w, ([], q w).

(** [c; k] *)
Definition io_then {A : Type} (c : io ()) (k : io A) : io A :=
  mbind (M:=io) (λ _, k) c.

(** [print(text)] and [print(text, file=sys.stderr)] *)
Definition print (text : string) : io () := emit (Stdout text).
Definition print_err (text : string) : io () := emit (Stderr text).

(** [try: c  except ...: handler]: [handler e] is [None] when no clause
    matches [e]. *)
Definition try_except {A : Type} (c : io A) (handler : exc → option (io A))
  : io A := λ w,
  match c w with
  | (t, Raised e) =>
      match handler e with
      | Some h => let '(t', r) := h w in (t ++ t', r)
      | None => (t, Raised e)
      end
  | run => run
  end.

(** A [for] loop of prints. *)
Fixpoint io_for_each {A : Type} (l : list A) (body : A → io ()) : io () :=
  match l with
  | [] => mret ()
  | x :: l' => io_then (body x) (io_for_each l' body)
  end.

(** ** [fetch_threat_model], [load_threat_model], [load_checks_file] *)

Definition VALID_PLATFORMS : list string :=
  [ "macOS"; "Windows"; "Linux"; "iOS"; "Android" ].

(** [THREAT_MODEL_URL.format(branch=branch, platform=platform)] *)
Definition THREAT_MODEL_URL (branch platform : string) : string :=
  "https://raw.githubusercontent.com/edamametechnologies/threatmodels/"
  +:+ branch +:+ "/threatmodel-" +:+ platform +:+ ".json".

Definition fetch_threat_model (platform branch : string) : io ThreatModel :=
  if negb (bool_decide (platform ∈ VALID_PLATFORMS)) then
    io_raise (ValueError ("Invalid platform '" +:+ platform
                          +:+ "'. Must be one of: "
                          +:+ String.concat ", " VALID_PLATFORMS))
  else
    let url := THREAT_MODEL_URL branch platform in
    try_except
      (io_then (emit (Requested url "edamame-score-calculator/1.0" 30))
               (ask (λ w, urlopen w url)))
      (λ e, match e with
            | HTTPError code =>
                Some (io_raise (ConnectionError
                        ("Failed to fetch threat model for " +:+ platform
                         +:+ " from branch '" +:+ branch +:+ "': HTTP "
                         +:+ pretty code)))
            | URLError reason =>
                Some (io_raise (ConnectionError
                        ("Failed to connect to GitHub: " +:+ reason)))
            | _ => None
            end).

Definition load_threat_model (path : string) : io ThreatModel :=
  io_then (emit (Opened path)) (ask (λ w, open_model w path)).

Definition load_checks_file (path : string) : io (gset string) :=
  data ← io_then (emit (Opened path)) (ask (λ w, open_checks w path));
  match data with
  | ChecksList names => mret (list_to_set names)
  | ChecksDict d =>
      match d !! "inactive" with
      | Some names => mret (list_to_set names)
      | None =>
          io_raise (ValueError "Invalid checks file format. Expected a JSON list or object with 'inactive' key.")
      end
  | ChecksOther =>
      io_raise (ValueError "Invalid checks file format. Expected a JSON list or object with 'inactive' key.")
  end.

(** ** [main] *)

(** The namespace that [parse_args] returns; [inactive_names] is
    [args.inactive]. *)
Record Args : Type := mkArgs {
  platform : string;
  inactive_names : list string;
  all_inactive : bool;
  checks_file : option string;
  branch : string;
  local_file : option string;
  json_output : bool;
  list_threats : bool
}.

(** [if path:] on an option that is [None] or a string. *)
Definition given (path : option string) : option string :=
  match path with
  | Some "" | None => None
  | Some p => Some p
  end.

(** The body of the loop of the [--list-threats] mode. *)
Definition list_threat (m : RawMetric) : io () :=
  dim ← io_lift (of_result (getitem "dimension" (raw_dimension m)));
  sev ← io_lift (of_result (getitem "severity" (raw_severity m)));
  name ← io_lift (of_result (getitem "name" (raw_name m)));
  let tags := String.concat ", " (get (raw_tags m) []) in
  let tag_str := if String.eqb tags "" then "" else "  [" +:+ tags +:+ "]" in
  print ("  (sev " +:+ pretty sev +:+ ", " +:+ dim +:+ ") " +:+ name
         +:+ tag_str).

(** [{m["name"] for m in threat_model.get("metrics", [])}] *)
Definition known_names (threat_model : ThreatModel) : result (gset string) :=
  names ← mapM (λ m, getitem "name" (raw_name m))
               (get (tm_metrics threat_model) []);
  mret (list_to_set names).

Section cli.

(** [format_json_report] is not modelled: [main] is given the function. *)
Variable format_json_report : ScoreResult.t → outcome string.

(** The part of [main] after the threat model is loaded and outside the
    [--list-threats] mode. *)
Definition score_and_print (args : Args) (threat_model : ThreatModel)
  : io Z :=
  let inactive : gset string := list_to_set (inactive_names args) in
  loaded ←
    match given (checks_file args) with
    | Some path =>
        try_except (more ← load_checks_file path; mret (Some more))
          (λ e, match e with
                | FileNotFoundError msg | JSONDecodeError msg
                | ValueError msg | UnicodeDecodeError msg =>
                    Some (io_then
                            (print_err ("Error loading checks file: " +:+ msg))
                            (mret None))
                | _ => None
                end)
    | None => mret (Some ∅)
    end;
  match loaded with
  | None => mret 1
  | Some more =>
      let inactive := inactive ∪ more in
      known_names ← io_lift (of_result (known_names threat_model));
      let unknown := inactive ∖ known_names in
      io_then
        (if negb (bool_decide (unknown = ∅)) && negb (all_inactive args) then
           print_err ("Warning: unknown threat names (ignored): "
                      +:+ String.concat ", " (sorted unknown))
         else mret ()) (
      result ← io_lift (of_result (compute_score threat_model (Some inactive)
                                     (all_inactive args)));
      report ← io_lift (if json_output args then format_json_report result
                        else format_text_report result);
      io_then (print report) (mret 0))
  end.

Definition main (args : Args) : io Z :=
  loaded ←
    try_except
      (threat_model ←
         match given (local_file args) with
         | Some path => load_threat_model path
         | None => fetch_threat_model (platform args) (branch args)
         end;
       mret (Some threat_model))
      (λ e, match e with
            | ConnectionError msg | FileNotFoundError msg
            | JSONDecodeError msg =>
                Some (io_then
                        (print_err ("Error loading threat model: " +:+ msg))
                        (mret None))
            | _ => None
            end);
  match loaded with
  | None => mret 1
  | Some threat_model =>
      if list_threats args then
        io_then (io_for_each (get (tm_metrics threat_model) []) list_threat)
                (mret 0)
      else score_and_print args threat_model
  end.

End cli.

(** ** Notions for the statements about the command line *)

(** What a run printed on standard output and on standard error. *)
Definition stdout_of (trace : list event) : list string :=
  omap (λ ev, match ev with Stdout s => Some s | _ => None end) trace.
Definition stderr_of (trace : list event) : list string :=
  omap (λ ev, match ev with Stderr s => Some s | _ => None end) trace.

(** The files a run opened and the URLs it requested. *)
Definition opened_of (trace : list event) : list string :=
  omap (λ ev, match ev with Opened p => Some p | _ => None end) trace.
Definition requested_of (trace : list event) : list string :=
  omap (λ ev, match ev with Requested u _ _ => Some u | _ => None end) trace.

(** The namespace of a run that only lists the threats. *)
Definition list_args (args : Args) : Args :=
  mkArgs (platform args) [] false None (branch args) (local_file args)
         false true.

(** The threat model that [main] loads: from the local file when one is
    given, else from the repository. *)
Definition loading (args : Args) : io ThreatModel :=
  match given (local_file args) with
  | Some path => load_threat_model path
  | None => fetch_threat_model (platform args) (branch args)
  end.

(** The namespace with the names of [--inactive] replaced and without a
    checks file. *)
Definition with_names (names : list string) (args : Args) : Args :=
  mkArgs (platform args) names (all_inactive args) None (branch args)
         (local_file args) (json_output args) (list_threats args).

(** The warning of [main] for the set [unknown]. *)
Definition warning (unknown : gset string) : string :=
  "Warning: unknown threat names (ignored): "
  +:+ String.concat ", " (sorted unknown).

(** What the run does once the inactive set is built: the warning, the
    computation and the report. *)
Definition score_run (format_json_report : ScoreResult.t → outcome string)
    (args : Args) (threat_model : ThreatModel) (inactive : gset string)
  : list event * outcome Z :=
  match known_names threat_model with
  | Raise e => ([], Raised (CoreError e))
  | Ok known =>
      let warn :=
        if negb (bool_decide (inactive ∖ known = ∅))
           && negb (all_inactive args)
        then [Stderr (warning (inactive ∖ known))] else [] in
      match compute_score threat_model (Some inactive) (all_inactive args)
      with
      | Raise e => (warn, Raised (CoreError e))
      | Ok r =>
          match (if json_output args then format_json_report r
                 else format_text_report r) with
          | Raised e => (warn, Raised e)
          | Done report => (warn ++ [Stdout report], Done 0)
          end
      end
  end.

(** ** A world for the examples

    The file [model.json] holds the document of
    [test_single_tag_partial_compliant], the file [checks.json] holds
    [{"inactive": ["t1", "ghost"]}], and the network is down. *)
Definition example_world : World :=
  mkWorld
    (λ path, if String.eqb path "model.json" then Done model_partial_compliant
             else Raised (FileNotFoundError "No such file or directory"))
    (λ path, if String.eqb path "checks.json"
             then Done (ChecksDict {[ "inactive" := ["t1"; "ghost"] ]})
             else Raised (FileNotFoundError "No such file or directory"))
    (λ url, Raised (URLError "Network is unreachable")).

(** [--platform macOS --local-file model.json] with the given names and
    checks file. *)
Definition example_args (names : list string) (checks : option string)
    (list_mode : bool) : Args :=
  mkArgs "macOS" names false checks "main" (Some "model.json") false list_mode.

(** A stand-in for [format_json_report]. *)
Definition example_json (r : ScoreResult.t) : outcome string := Done "{}".
(** ** The result monad *)

Lemma bind_Ok {A B : Type} (r : result A) (f : A → result B) (b : B) :
  r ≫= f = Ok b ↔ ∃ a, r = Ok a ∧ f a = Ok b.
Proof.
  destruct r as [a|e]; simpl.
  - split; [intros H; exists a; auto | intros (a' & [= <-] & H); exact H].
  - split; [discriminate | intros (a' & [=] & _)].
Qed.

Lemma bind_Raise {A B : Type} (r : result A) (f : A → result B) (e : exn) :
  r ≫= f = Raise e ↔ r = Raise e ∨ ∃ a, r = Ok a ∧ f a = Raise e.
Proof.
  destruct r as [a|e']; simpl.
  - split; [intros H; right; exists a; auto |].
    intros [[=] | (a' & [= <-] & H)]; exact H.
  - split; [intros [= <-]; auto |].
    intros [[= <-] | (a' & [=] & _)]; reflexivity.
Qed.

Lemma bind_Ok_l {A B : Type} (a : A) (f : A → result B) : Ok a ≫= f = f a.
Proof. reflexivity. Qed.

Lemma bind_Raise_l {A B : Type} (e : exn) (f : A → result B) :
  Raise e ≫= f = Raise e.
Proof. reflexivity. Qed.

Lemma foldM_app {A S : Type} (body : S → A → result S) (s : S)
    (l1 l2 : list A) :
  foldM body s (l1 ++ l2) = foldM body s l1 ≫= λ s', foldM body s' l2.
Proof.
  revert s. induction l1 as [|x l1 IH]; intros s; simpl; [reflexivity|].
  destruct (body s x) as [s'|e]; simpl; [apply IH | reflexivity].
Qed.

(** A loop invariant that every iteration preserves holds of the final
    state of a loop that does not raise. *)
Lemma foldM_invariant {A S : Type} (body : S → A → result S) (I : S → Prop)
    (l : list A) (s s' : S) :
  (∀ s x s', x ∈ l → I s → body s x = Ok s' → I s') →
  I s → foldM body s l = Ok s' → I s'.
Proof.
  revert s. induction l as [|x l IH]; intros s Hstep HI Hrun; simpl in Hrun.
  - injection Hrun as <-. exact HI.
  - apply bind_Ok in Hrun as (s1 & Hx & Hrun).
    apply (IH s1); [| |exact Hrun].
    + intros s2 y s3 Hy. apply Hstep. by right.
    + eapply Hstep; [|exact HI|exact Hx]. by left.
Qed.

(** ** Building the metric list *)

Lemma build_metric_Ok s a raw m :
  build_metric s a raw = Ok m ↔ resolves s a raw m.
Proof.
  unfold build_metric, resolves.
  destruct raw as [[n|] [d|] [sv|] tg]; simpl; split;
    try discriminate; try (intros ([=] & _); fail);
    try (intros (_ & [=] & _); fail); try (intros (_ & _ & [=] & _); fail).
  - intros [= <-]. simpl. auto.
  - destruct m as [n' d' sv' tg' ac']; simpl.
    intros ([= ->] & [= ->] & [= ->] & -> & ->). reflexivity.
Qed.

Lemma build_metric_Raise s a raw e :
  build_metric s a raw = Raise e →
  lacks_required raw ∧
  ∃ k, e = KeyError k ∧ k ∈ ["name"; "dimension"; "severity"].
Proof.
  unfold build_metric, lacks_required.
  destruct raw as [[n|] [d|] [sv|] tg]; simpl; intros [= <-];
    (split; [auto | eexists; split; [reflexivity | set_solver]]).
Qed.

Lemma build_metric_total s a raw :
  ¬ lacks_required raw → ∃ m, build_metric s a raw = Ok m.
Proof.
  unfold build_metric, lacks_required.
  destruct raw as [[n|] [d|] [sv|] tg]; simpl; intros H;
    try (exfalso; apply H; auto; fail).
  eexists; reflexivity.
Qed.

(** The loop appends to the list built so far. *)
Lemma build_loop_acc s a raws (acc : list MetricResult.t) :
  foldM (λ metrics m, r ← build_metric s a m; mret (metrics ++ [r])) acc raws
  = (λ l, acc ++ l) <$> build_metrics s a raws.
Proof.
  unfold build_metrics.
  revert acc. induction raws as [|raw raws IH]; intros acc; simpl.
  - by rewrite app_nil_r.
  - destruct (build_metric s a raw) as [m|e]; simpl; [|reflexivity].
    rewrite (IH (acc ++ [m])), (IH [m]).
    destruct (foldM _ [] raws) as [l|e]; simpl; [|reflexivity].
    by rewrite <- app_assoc.
Qed.

Lemma build_metrics_cons s a raw raws :
  build_metrics s a (raw :: raws) =
  m ← build_metric s a raw; (λ l, m :: l) <$> build_metrics s a raws.
Proof.
  unfold build_metrics at 1. simpl.
  destruct (build_metric s a raw) as [m|e]; simpl; [|reflexivity].
  apply (build_loop_acc s a raws [m]).
Qed.

Lemma build_metrics_Ok s a raws metrics :
  build_metrics s a raws = Ok metrics ↔ Forall2 (resolves s a) raws metrics.
Proof.
  revert metrics. induction raws as [|raw raws IH]; intros metrics.
  - split.
    + intros [= <-]. constructor.
    + intros H. inversion H. reflexivity.
  - rewrite build_metrics_cons. split.
    + intros H. apply bind_Ok in H as (m & Hm & H).
      destruct (build_metrics s a raws) as [l|e]; [|discriminate].
      injection H as <-. constructor; [by apply build_metric_Ok | by apply IH].
    + intros H. inversion H as [|? m ? l Hm Hl]; subst.
      apply build_metric_Ok in Hm. apply IH in Hl.
      rewrite Hm, Hl. reflexivity.
Qed.

Lemma build_metrics_Raise s a raws e :
  build_metrics s a raws = Raise e →
  ∃ k, e = KeyError k ∧ k ∈ ["name"; "dimension"; "severity"].
Proof.
  induction raws as [|raw raws IH]; [discriminate|].
  rewrite build_metrics_cons. intros H.
  apply bind_Raise in H as [H | (m & _ & H)].
  - by apply build_metric_Raise in H as [_ H].
  - destruct (build_metrics s a raws) as [l|e']; [discriminate|].
    injection H as <-. by apply IH.
Qed.

Lemma build_metrics_lacks s a raws :
  Exists lacks_required raws →
  ∃ e, build_metrics s a raws = Raise e.
Proof.
  induction 1 as [raw raws H | raw raws H IH]; rewrite build_metrics_cons.
  - destruct (build_metric s a raw) as [m|e] eqn:E; [|eauto].
    apply build_metric_Ok in E as (E1 & E2 & E3 & _).
    destruct H as [H | [H | H]]; congruence.
  - destruct (build_metric s a raw) as [m|e]; simpl; [|eauto].
    destruct IH as [e ->]. eauto.
Qed.

Lemma build_metrics_total s a raws :
  Forall (λ raw, ¬ lacks_required raw) raws →
  ∃ metrics, build_metrics s a raws = Ok metrics.
Proof.
  induction 1 as [|raw raws H _ IH]; [by exists []|].
  rewrite build_metrics_cons.
  destruct (build_metric_total s a raw H) as [m ->].
  destruct IH as [l ->]. eexists; reflexivity.
Qed.

(** ** Conversion of integers to binary64

    An integer below [2^1023] in absolute value converts to a finite
    float: [float_of_int] does not raise on it. *)

Lemma digits2_pos_bounds (m : positive) :
  2 ^ (Z.pos (digits2_pos m) - 1) ≤ Z.pos m < 2 ^ Z.pos (digits2_pos m).
Proof.
  induction m as [m IH|m IH|]; simpl digits2_pos.
  - rewrite Pos2Z.inj_succ.
    replace (Z.succ (Z.pos (digits2_pos m)) - 1)
      with (Z.succ (Z.pos (digits2_pos m) - 1)) by lia.
    rewrite !Z.pow_succ_r by lia. lia.
  - rewrite Pos2Z.inj_succ.
    replace (Z.succ (Z.pos (digits2_pos m)) - 1)
      with (Z.succ (Z.pos (digits2_pos m) - 1)) by lia.
    rewrite !Z.pow_succ_r by lia. lia.
  - simpl. lia.
Qed.

Lemma Zdigits2_le (m k : Z) : 0 ≤ k → 0 ≤ m ≤ 2 ^ k → Zdigits2 m ≤ k + 1.
Proof.
  intros Hk [Hm0 Hmk]. destruct m as [|m|m]; simpl; [lia| |lia].
  pose proof (digits2_pos_bounds m) as [Hlo _].
  destruct (Z_lt_le_dec (k + 1) (Z.pos (digits2_pos m))) as [Hlt|]; [|lia].
  exfalso.
  assert (2 ^ (k + 1) ≤ 2 ^ (Z.pos (digits2_pos m) - 1))
    by (apply Z.pow_le_mono_r; lia).
  rewrite Z.pow_add_r in * by lia. lia.
Qed.

Lemma digits2_pos_iter_xO (m k : positive) :
  Z.pos (digits2_pos (Pos.iter xO m k)) = Z.pos (digits2_pos m) + Z.pos k.
Proof.
  induction k as [|k IH] using Pos.peano_ind.
  - simpl. lia.
  - rewrite Pos.iter_succ. simpl digits2_pos.
    rewrite Pos2Z.inj_succ, IH. lia.
Qed.

Lemma shr_1_m (mrs : shr_record) :
  0 ≤ shr_m mrs → shr_m (shr_1 mrs) = shr_m mrs / 2.
Proof.
  destruct mrs as [m r s]. simpl. intros Hm.
  destruct m as [|[p|p|]|p]; simpl; try lia.
  - reflexivity.
  - rewrite Pos2Z.inj_xI. apply (Z.div_unique _ 2 _ 1); lia.
  - rewrite Pos2Z.inj_xO. apply (Z.div_unique _ 2 _ 0); lia.
  - reflexivity.
Qed.

Lemma iter_shr_1_m (p : positive) : ∀ mrs : shr_record,
  0 ≤ shr_m mrs →
  shr_m (SpecFloat.iter_pos shr_1 p mrs) = shr_m mrs / 2 ^ Z.pos p.
Proof.
  assert (∀ mrs, 0 ≤ shr_m mrs → 0 ≤ shr_m (shr_1 mrs)) as Hnn.
  { intros mrs Hm. rewrite shr_1_m by done. apply Z.div_pos; lia. }
  induction p as [p IH|p IH|]; intros mrs Hm; cbn [SpecFloat.iter_pos].
  - assert (0 ≤ shr_m (SpecFloat.iter_pos shr_1 p (shr_1 mrs))) as H1
      by (rewrite IH by auto; apply Z.div_pos; [auto | lia]).
    rewrite IH, IH, shr_1_m by auto.
    rewrite !Z.div_div by lia. f_equal.
    replace (Z.pos p~1) with (1 + Z.pos p + Z.pos p) by lia.
    rewrite !Z.pow_add_r by lia. ring.
  - assert (0 ≤ shr_m (SpecFloat.iter_pos shr_1 p mrs)) as H1
      by (rewrite IH by done; apply Z.div_pos; lia).
    rewrite IH, IH by done.
    rewrite !Z.div_div by lia. f_equal.
    replace (Z.pos p~0) with (Z.pos p + Z.pos p) by lia.
    rewrite !Z.pow_add_r by lia. ring.
  - rewrite shr_1_m by done. f_equal.
Qed.

Lemma round_nearest_even_bounds (m : Z) (l : location) :
  m ≤ round_nearest_even m l ≤ m + 1.
Proof.
  destruct l as [|[]]; simpl; try lia. destruct (Z.even m); lia.
Qed.

(** Rounding a mantissa of at least 53 digits and a value below
    [2^1023] does not overflow. *)
Lemma binary_round_aux_no_overflow (sx : bool) (mz : positive) (ez : Z) :
  53 ≤ Z.pos (digits2_pos mz) →
  1 ≤ Z.pos (digits2_pos mz) + ez ≤ 1023 →
  ∀ s, binary_round_aux prec emax sx (Z.pos mz) ez loc_Exact
       ≠ S754_infinity s.
Proof.
  intros Hdz Hd s. unfold binary_round_aux.
  set (dz := Z.pos (digits2_pos mz)) in *.
  set (rec0 := shr_record_of_loc (Z.pos mz) loc_Exact).
  set (mrs1 := match dz - 53 with
               | Z.pos p => SpecFloat.iter_pos shr_1 p rec0
               | _ => rec0
               end).
  set (e1 := ez + (dz - 53)).
  assert (shr_fexp prec emax (Z.pos mz) ez loc_Exact = (mrs1, e1)) as ->.
  { unfold shr_fexp, shr. fold rec0.
    replace (fexp prec emax (Zdigits2 (Z.pos mz) + ez) - ez) with (dz - 53)
      by (unfold fexp, SpecFloat.emin, prec, emax; simpl Zdigits2; fold dz;
          lia).
    subst mrs1 e1. destruct (dz - 53) as [|p|p] eqn:Hp; try lia.
    - f_equal. lia.
    - reflexivity. }
  lazy beta iota zeta.
  assert (0 ≤ shr_m mrs1 < 2 ^ 53) as Hm1.
  { pose proof (digits2_pos_bounds mz) as [_ Hhi]. fold dz in Hhi.
    assert (shr_m rec0 = Z.pos mz) as Hrec0 by reflexivity.
    subst mrs1. destruct (dz - 53) as [|p|p] eqn:Hp; try lia.
    - rewrite Hrec0. replace dz with 53 in Hhi by lia. lia.
    - rewrite iter_shr_1_m by (rewrite Hrec0; lia). rewrite Hrec0.
      split; [apply Z.div_pos; lia|].
      apply Z.div_lt_upper_bound; [lia|].
      rewrite <- Z.pow_add_r by lia. replace (Z.pos p + 53) with dz by lia.
      exact Hhi. }
  set (m2 := round_nearest_even (shr_m mrs1) (loc_of_shr_record mrs1)).
  pose proof (round_nearest_even_bounds (shr_m mrs1) (loc_of_shr_record mrs1))
    as Hm2. fold m2 in Hm2.
  assert (Zdigits2 m2 ≤ 54) as Hdg2 by (apply (Zdigits2_le m2 53); lia).
  destruct (shr_fexp prec emax m2 e1 loc_Exact) as [mrs2 e2] eqn:H2.
  assert (e2 ≤ e1 + 1) as He2.
  { unfold shr_fexp, shr in H2.
    assert (fexp prec emax (Zdigits2 m2 + e1) - e1 ≤ 1) as Hn2
      by (unfold fexp, SpecFloat.emin, prec, emax; subst e1; lia).
    destruct (fexp prec emax (Zdigits2 m2 + e1) - e1) as [|p|p];
      injection H2 as _ <-; lia. }
  destruct (shr_m mrs2); try discriminate.
  destruct (Z.leb_spec e2 (emax - prec)); [discriminate|].
  unfold prec, emax in *. subst e1. lia.
Qed.

Lemma binary_round_no_overflow (sx : bool) (m : positive) :
  Z.pos m < 2 ^ 1023 →
  ∀ s, binary_round prec emax sx m 0 ≠ S754_infinity s.
Proof.
  intros Hm s. unfold binary_round.
  pose proof (digits2_pos_bounds m) as [Hlo _].
  set (d := Z.pos (digits2_pos m)) in *.
  assert (1 ≤ d ≤ 1023) as Hd.
  { split; [subst d; lia|].
    destruct (Z_lt_le_dec 1023 d) as [Hlt|]; [|lia]. exfalso.
    assert (2 ^ 1023 ≤ 2 ^ (d - 1)) by (apply Z.pow_le_mono_r; lia). lia. }
  assert (fexp prec emax (d + 0) = d - 53) as ->
    by (unfold fexp, SpecFloat.emin, prec, emax; lia).
  unfold shl_align.
  destruct (d - 53 - 0) as [|k|k] eqn:Hk.
  - apply binary_round_aux_no_overflow; fold d; lia.
  - apply binary_round_aux_no_overflow; fold d; lia.
  - apply binary_round_aux_no_overflow; rewrite digits2_pos_iter_xO; fold d;
      lia.
Qed.

Lemma float_of_int_Ok (z : Z) :
  - 2 ^ 1023 < z < 2 ^ 1023 → ∃ f, float_of_int z = Ok f.
Proof.
  intros Hz. unfold float_of_int.
  destruct (binary_normalize prec emax z 0 false) as [s| s | |s m e] eqn:Hf;
    eauto.
  exfalso. destruct z as [|m|m]; simpl in Hf; [discriminate| |].
  - by apply binary_round_no_overflow in Hf; [|lia].
  - by apply binary_round_no_overflow in Hf; [|lia].
Qed.

(** ** The accumulation loop over the metrics *)

Lemma accum_step_Ok acc m acc' :
  accum_step acc m = Ok acc' ↔
  ∃ c mx, acc !! MetricResult.dimension m = Some (c, mx) ∧
    acc' = <[MetricResult.dimension m :=
               (if inactive m then c + MetricResult.severity m else c,
                mx + MetricResult.severity m)]> acc.
Proof.
  unfold accum_step, lookup_item, inactive.
  destruct (acc !! MetricResult.dimension m) as [[c mx]|]; simpl.
  - split.
    + intros [= <-]. eauto.
    + intros (c' & mx' & [= <- <-] & ->). reflexivity.
  - split; [discriminate | intros (? & ? & [=] & _)].
Qed.

Lemma accum_step_Raise acc m e :
  accum_step acc m = Raise e →
  acc !! MetricResult.dimension m = None ∧
  e = KeyError (MetricResult.dimension m).
Proof.
  unfold accum_step, lookup_item.
  destruct (acc !! MetricResult.dimension m) as [[c mx]|]; simpl;
    [discriminate | intros [= <-]; auto].
Qed.

Lemma sum_severity_cons m l :
  sum_severity (m :: l) = MetricResult.severity m + sum_severity l.
Proof. reflexivity. Qed.

Lemma dim_maximum_cons d m l :
  dim_maximum d (m :: l) =
  (if in_dimension d m then MetricResult.severity m else 0) + dim_maximum d l.
Proof.
  unfold dim_maximum. simpl.
  destruct (in_dimension d m); [apply sum_severity_cons | reflexivity].
Qed.

Lemma dim_current_cons d m l :
  dim_current d (m :: l) =
  (if in_dimension d m && inactive m then MetricResult.severity m else 0)
  + dim_current d l.
Proof.
  unfold dim_current. simpl.
  destruct (in_dimension d m && inactive m);
    [apply sum_severity_cons | reflexivity].
Qed.

(** What the accumulation loop computes: every slot grows by the sums of
    its dimension, and no slot is created. *)
Lemma accum_loop_Ok metrics : ∀ acc acc',
  foldM accum_step acc metrics = Ok acc' →
  ∀ d, acc' !! d =
       (λ cm : Z * Z, (cm.1 + dim_current d metrics,
                       cm.2 + dim_maximum d metrics)) <$> acc !! d.
Proof.
  induction metrics as [|m metrics IH]; intros acc acc' Hrun d.
  - injection Hrun as <-. destruct (acc !! d) as [[c mx]|]; simpl; [|done].
    unfold dim_current, dim_maximum. simpl. do 2 f_equal; lia.
  - simpl in Hrun. apply bind_Ok in Hrun as (acc1 & Hstep & Hrun).
    apply accum_step_Ok in Hstep as (c & mx & Hlk & ->).
    rewrite (IH _ _ Hrun d), dim_current_cons, dim_maximum_cons.
    unfold in_dimension.
    destruct (decide (MetricResult.dimension m = d)) as [<-|Hne].
    + rewrite lookup_insert_eq, Hlk, bool_decide_eq_true_2 by done. simpl.
      destruct (inactive m); do 2 f_equal; lia.
    + rewrite lookup_insert_ne, bool_decide_eq_false_2 by done. simpl.
      destruct (acc !! d) as [[c' mx']|]; simpl; [|done].
      do 2 f_equal; lia.
Qed.

Lemma accum_loop_known metrics acc acc' :
  foldM accum_step acc metrics = Ok acc' →
  Forall (λ m, is_Some (acc !! MetricResult.dimension m)) metrics.
Proof.
  revert acc. induction metrics as [|m metrics IH]; intros acc Hrun;
    [constructor|].
  simpl in Hrun. apply bind_Ok in Hrun as (acc1 & Hstep & Hrun).
  apply accum_step_Ok in Hstep as (c & mx & Hlk & ->).
  constructor; [by rewrite Hlk|].
  eapply Forall_impl; [exact (IH _ Hrun)|]. simpl. intros m' Hm'.
  destruct (decide (MetricResult.dimension m = MetricResult.dimension m'))
    as [<-|Hne]; [by rewrite Hlk|].
  by rewrite lookup_insert_ne in Hm'.
Qed.

Lemma accum_loop_total metrics : ∀ acc,
  Forall (λ m, is_Some (acc !! MetricResult.dimension m)) metrics →
  ∃ acc', foldM accum_step acc metrics = Ok acc'.
Proof.
  induction metrics as [|m metrics IH]; intros acc Hall; [by exists acc|].
  apply Forall_cons in Hall as [[[c mx] Hlk] Hall].
  cbn [foldM]. destruct (accum_step acc m) as [acc1|e] eqn:Hstep.
  - apply accum_step_Ok in Hstep as (c' & mx' & _ & ->).
    apply IH. eapply Forall_impl; [exact Hall|]. simpl. intros m' Hm'.
    destruct (decide (MetricResult.dimension m = MetricResult.dimension m'))
      as [<-|Hne]; [by rewrite lookup_insert_eq | by rewrite lookup_insert_ne].
  - apply accum_step_Raise in Hstep as [Hnone _]. congruence.
Qed.

(** A metric whose dimension has no slot makes the loop raise, with that
    dimension as the missing key. *)
Lemma accum_loop_Raise metrics : ∀ acc,
  Exists (λ m, acc !! MetricResult.dimension m = None) metrics →
  ∃ m, m ∈ metrics ∧ acc !! MetricResult.dimension m = None ∧
       foldM accum_step acc metrics
       = Raise (KeyError (MetricResult.dimension m)).
Proof.
  induction metrics as [|m metrics IH]; intros acc Hex;
    [by apply Exists_nil in Hex|].
  cbn [foldM]. destruct (accum_step acc m) as [acc1|e] eqn:Hstep.
  - apply accum_step_Ok in Hstep as (c & mx & Hlk & ->).
    apply Exists_cons in Hex as [Hm | Hex]; [congruence|].
    destruct (IH (<[MetricResult.dimension m :=
                      (if inactive m then c + MetricResult.severity m else c,
                       mx + MetricResult.severity m)]> acc))
      as (m' & Hin & Hnone & Hrun).
    + eapply Exists_impl; [exact Hex|]. simpl. intros m' Hm'.
      rewrite lookup_insert_ne; [done | congruence].
    + exists m'. split; [by right|]. split; [|exact Hrun].
      rewrite lookup_insert_ne in Hnone; [done|].
      intros Heq. rewrite <- Heq, lookup_insert_eq in Hnone. discriminate.
  - apply accum_step_Raise in Hstep as [Hnone ->].
    exists m. split; [by left | done].
Qed.

Lemma dim_accum_init_lookup d :
  dim_accum_init !! d = if decide (d ∈ DIMENSIONS) then Some (0, 0) else None.
Proof.
  destruct (decide (d ∈ DIMENSIONS)) as [Hd|Hd]; unfold DIMENSIONS in Hd.
  - repeat (apply elem_of_cons in Hd as [->|Hd]); try (vm_compute; reflexivity).
    by apply elem_of_nil in Hd.
  - unfold dim_accum_init, DIMENSIONS. simpl.
    repeat (apply not_elem_of_cons in Hd as [? Hd]).
    repeat rewrite lookup_insert_ne by done. apply lookup_empty.
Qed.

(** ** The loop over the five dimensions *)

Lemma score_step_Ok acc dims oc om d st' :
  score_step acc (dims, oc, om) d = Ok st' ↔
  ∃ c mx, acc !! d = Some (c, mx) ∧
    st' = (<[d := DimensionScore.mk d c mx (dimension_score c mx)]> dims,
           oc + c, om + mx).
Proof.
  unfold score_step, lookup_item.
  destruct (acc !! d) as [[c mx]|]; simpl.
  - split.
    + intros [= <-]. eauto.
    + intros (c' & mx' & [= <- <-] & ->). reflexivity.
  - split; [discriminate | intros (? & ? & [=] & _)].
Qed.

Lemma score_loop_Ok acc l : ∀ dims oc om dims' oc' om',
  foldM (score_step acc) (dims, oc, om) l = Ok (dims', oc', om') →
  (∀ d, d ∈ l → ∃ c mx, acc !! d = Some (c, mx) ∧
      dims' !! d = Some (DimensionScore.mk d c mx (dimension_score c mx))) ∧
  (∀ d, d ∉ l → dims' !! d = dims !! d) ∧
  oc' = oc + foldr (λ d s, (default (0, 0) (acc !! d)).1 + s) 0 l ∧
  om' = om + foldr (λ d s, (default (0, 0) (acc !! d)).2 + s) 0 l.
Proof.
  induction l as [|x l IH]; intros dims oc om dims' oc' om' Hrun.
  - injection Hrun as <- <- <-. simpl.
    split; [intros d Hd; by apply elem_of_nil in Hd|].
    split; [done | lia].
  - simpl in Hrun. apply bind_Ok in Hrun as (st1 & Hstep & Hrun).
    apply score_step_Ok in Hstep as (c & mx & Hlk & ->).
    destruct (IH _ _ _ _ _ _ Hrun) as (Hin & Hout & -> & ->).
    split; [|split].
    + intros d Hd. destruct (decide (d ∈ l)) as [Hl|Hl]; [by apply Hin|].
      apply elem_of_cons in Hd as [->|Hd]; [|done].
      exists c, mx. split; [done|].
      by rewrite (Hout _ Hl), lookup_insert_eq.
    + intros d Hd. apply not_elem_of_cons in Hd as [Hne Hd].
      by rewrite (Hout _ Hd), lookup_insert_ne.
    + simpl. rewrite Hlk. simpl. lia.
Qed.

Lemma score_loop_total acc l : ∀ st,
  Forall (λ d, is_Some (acc !! d)) l →
  ∃ st', foldM (score_step acc) st l = Ok st'.
Proof.
  induction l as [|x l IH]; intros [[dims oc] om] Hall; [eauto|].
  apply Forall_cons in Hall as [[[c mx] Hlk] Hall].
  cbn [foldM]. destruct (score_step acc (dims, oc, om) x) as [st1|e] eqn:Hstep.
  - by apply IH.
  - unfold score_step, lookup_item in Hstep. rewrite Hlk in Hstep.
    discriminate.
Qed.

Lemma score_loop_Raise acc l st e :
  foldM (score_step acc) st l = Raise e → ∃ k, e = KeyError k.
Proof.
  revert st. induction l as [|x l IH]; intros [[dims oc] om]; [discriminate|].
  simpl. intros H. apply bind_Raise in H as [H | (st1 & _ & H)].
  - unfold score_step, lookup_item in H.
    destruct (acc !! x) as [[c mx]|]; [discriminate|].
    injection H as <-. eauto.
  - by apply IH in H.
Qed.

(** ** Tag prefixes *)

Lemma prefix_String a s1 b s2 :
  String.prefix (String a s1) (String b s2) =
  if Ascii.ascii_dec a b then String.prefix s1 s2 else false.
Proof. reflexivity. Qed.

Lemma index_comma_String b t :
  String.index 0 "," (String b t) =
  if Ascii.ascii_dec comma b then Some 0%nat
  else S <$> String.index 0 "," t.
Proof.
  change (String.index 0 "," (String b t))
    with (if String.prefix "," (String b t) then Some 0%nat
          else match String.index 0 "," t with
               | Some n => Some (S n)
               | None => None
               end).
  change (String.prefix "," (String b t))
    with (if Ascii.ascii_dec comma b then String.prefix "" t else false).
  destruct (Ascii.ascii_dec comma b); [destruct t; reflexivity|].
  destruct (String.index 0 "," t); reflexivity.
Qed.

Lemma tag_prefix_String b t :
  tag_prefix (String b t) =
  if Ascii.ascii_dec comma b then EmptyString else String b (tag_prefix t).
Proof.
  unfold tag_prefix. rewrite index_comma_String.
  destruct (Ascii.ascii_dec comma b) as [<-|Hb]; [reflexivity|].
  destruct (String.index 0 "," t) as [n|]; reflexivity.
Qed.

(** The prefix taken from a tag is a prefix of that tag. *)
Lemma tag_prefix_is_prefix t : String.prefix (tag_prefix t) t = true.
Proof.
  induction t as [|b t IH]; [reflexivity|].
  rewrite tag_prefix_String.
  destruct (Ascii.ascii_dec comma b) as [<-|Hb]; [reflexivity|].
  rewrite prefix_String. destruct (Ascii.ascii_dec b b); [exact IH | done].
Qed.

(** The prefix holds no separator, and the tag is the prefix alone or the
    prefix, one separator and a rest. *)
Lemma tag_prefix_spec t :
  String.index 0 "," (tag_prefix t) = None ∧
  (t = tag_prefix t ∨ ∃ rest, t = tag_prefix t +:+ "," +:+ rest).
Proof.
  induction t as [|b t [IHi IHs]]; [split; [reflexivity | by left]|].
  rewrite tag_prefix_String.
  destruct (Ascii.ascii_dec comma b) as [<-|Hb].
  - split; [reflexivity | right; exists t; reflexivity].
  - split.
    + rewrite index_comma_String, IHi.
      destruct (Ascii.ascii_dec comma b) as [Heq|_]; [done | reflexivity].
    + destruct IHs as [Heq | [rest Heq]].
      * left. congruence.
      * right. exists rest.
        change (String b (tag_prefix t) +:+ "," +:+ rest)
          with (String b (tag_prefix t +:+ "," +:+ rest)).
        congruence.
Qed.

Lemma index_comma_None s : String.index 0 "," s = None ↔ no_comma s.
Proof.
  unfold no_comma. induction s as [|c s IH].
  - split; [|reflexivity]. intros _ [|? ?] b; discriminate.
  - rewrite index_comma_String.
    destruct (Ascii.ascii_dec comma c) as [<-|Hc].
    + split; [discriminate|]. intros H. by destruct (H "" s).
    + destruct (String.index 0 "," s) as [n|]; simpl.
      * split; [discriminate|]. intros H.
        assert (Some n = None) as Hn; [|discriminate].
        apply IH. intros a b ->. by apply (H (String c a) b).
      * split; [|reflexivity]. intros _ [|c' a] b.
        -- intros [= Hc' _]. apply Hc. by rewrite Hc'.
        -- intros [= _ ->]. by apply (proj1 IH eq_refl a b).
Qed.

(** [tag_prefix] computes the prefix of a tag. *)
Lemma tag_prefix_unique p t : tag_prefix t = p ↔ is_tag_prefix p t.
Proof.
  unfold is_tag_prefix. split.
  - intros <-. destruct (tag_prefix_spec t) as [Hi [Heq | Hrest]].
    + left. rewrite Heq at 1. split; [by apply index_comma_None | done].
    + right. split; [by apply index_comma_None | done].
  - intros [[Ht ->] | [Hp [rest ->]]].
    + unfold tag_prefix. by rewrite (proj2 (index_comma_None t) Ht).
    + induction p as [|c p IH].
      { change ("" +:+ "," +:+ rest) with (String comma rest).
        rewrite tag_prefix_String.
        by destruct (Ascii.ascii_dec comma comma). }
      change (String c p +:+ "," +:+ rest)
        with (String c (p +:+ "," +:+ rest)).
      rewrite tag_prefix_String.
      destruct (Ascii.ascii_dec comma c) as [<-|Hc].
      * by destruct (Hp "" p).
      * f_equal. apply IH. intros a b ->. by apply (Hp (String c a) b).
Qed.

Lemma collect_inner_elem (tags : list string) : ∀ (acc : gset string) p,
  p ∈ foldl (λ tag_prefixes tag, tag_prefixes ∪ {[ tag_prefix tag ]}) acc tags
  ↔ p ∈ acc ∨ ∃ t, t ∈ tags ∧ tag_prefix t = p.
Proof.
  induction tags as [|t tags IH]; intros acc p; simpl.
  - split; [auto | intros [H | (t & Ht & _)]; [done | by apply elem_of_nil in Ht]].
  - rewrite IH, elem_of_union, elem_of_singleton. split.
    + intros [[H | ->] | (t' & Ht' & Hp)]; [auto | right | right].
      * exists t. split; [by left | done].
      * exists t'. split; [by right | done].
    + intros [H | (t' & Ht' & Hp)]; [auto|].
      apply elem_of_cons in Ht' as [-> | Ht']; [auto|].
      right. eauto.
Qed.

Lemma collect_outer_elem (metrics : list MetricResult.t) :
  ∀ (acc : gset string) p,
  p ∈ foldl (λ tag_prefixes m,
               foldl (λ tag_prefixes tag, tag_prefixes ∪ {[ tag_prefix tag ]})
                     tag_prefixes (MetricResult.tags m))
            acc metrics
  ↔ p ∈ acc ∨ observed_prefix p metrics.
Proof.
  unfold observed_prefix.
  setoid_rewrite <- tag_prefix_unique.
  induction metrics as [|m metrics IH]; intros acc p; simpl.
  - split; [auto | intros [H | (m & t & Hm & _)]; [done | by apply elem_of_nil in Hm]].
  - rewrite IH, collect_inner_elem. split.
    + intros [[H | (t & Ht & Hp)] | (m' & t & Hm' & Ht & Hp)]; [auto | right | right].
      * exists m, t. split; [by left | done].
      * exists m', t. split; [by right | done].
    + intros [H | (m' & t & Hm' & Ht & Hp)]; [auto|].
      apply elem_of_cons in Hm' as [-> | Hm']; [left; right; eauto|].
      right. eauto.
Qed.

Lemma collect_prefixes_elem metrics p :
  p ∈ collect_prefixes metrics ↔ observed_prefix p metrics.
Proof.
  unfold collect_prefixes. rewrite collect_outer_elem.
  split; [intros [H|H]; [by apply not_elem_of_empty in H | done] | auto].
Qed.

Lemma sorted_elem (s : gset string) p : p ∈ sorted s ↔ p ∈ s.
Proof.
  unfold sorted. rewrite merge_sort_Permutation. apply elem_of_elements.
Qed.

(** ** Counting *)

Lemma tag_pairs_cons m metrics :
  tag_pairs (m :: metrics) =
  ((λ t, (m, t)) <$> MetricResult.tags m) ++ tag_pairs metrics.
Proof. reflexivity. Qed.

Lemma elem_of_tag_pairs metrics m t :
  (m, t) ∈ tag_pairs metrics ↔ m ∈ metrics ∧ t ∈ MetricResult.tags m.
Proof.
  unfold tag_pairs. rewrite list_elem_of_bind. split.
  - intros (m' & Hin & Hm'). apply list_elem_of_fmap in Hin as (t' & [= -> ->] & Ht).
    done.
  - intros [Hm Ht]. exists m. split; [|done].
    apply list_elem_of_fmap. eauto.
Qed.

Lemma count_inner p m (tags : list string) : ∀ total compliant,
  foldl (λ '(total, compliant) metric_tag,
           if String.prefix p metric_tag then
             (total + 1,
              if negb (MetricResult.active m) then compliant + 1
              else compliant)
           else (total, compliant))
        (total, compliant) tags
  = (total + Z.of_nat (length (List.filter (λ mt, String.prefix p mt.2)
                                 ((λ t, (m, t)) <$> tags))),
     compliant + Z.of_nat (length
       (List.filter (λ mt, String.prefix p mt.2 && inactive mt.1)
                    ((λ t, (m, t)) <$> tags)))).
Proof.
  unfold inactive.
  induction tags as [|t tags IH]; intros total compliant; csimpl.
  - f_equal; lia.
  - destruct (String.prefix p t), (MetricResult.active m); csimpl;
      rewrite IH; f_equal; lia.
Qed.

Lemma count_outer p (metrics : list MetricResult.t) : ∀ total compliant,
  foldl (λ st m,
           foldl (λ '(total, compliant) metric_tag,
                    if String.prefix p metric_tag then
                      (total + 1,
                       if negb (MetricResult.active m) then compliant + 1
                       else compliant)
                    else (total, compliant))
                 st (MetricResult.tags m))
        (total, compliant) metrics
  = (total + total_for p metrics, compliant + compliant_for p metrics).
Proof.
  unfold total_for, compliant_for.
  induction metrics as [|m metrics IH]; intros total compliant.
  - simpl. f_equal; lia.
  - rewrite tag_pairs_cons, !List.filter_app, !length_app.
    cbn [foldl]. rewrite count_inner, IH. f_equal; lia.
Qed.

Lemma count_tag_spec p metrics :
  count_tag p metrics = (total_for p metrics, compliant_for p metrics).
Proof. unfold count_tag. by rewrite count_outer. Qed.

Lemma filter_length_pos {A : Type} (f : A → bool) (l : list A) x :
  x ∈ l → f x = true → 0 < Z.of_nat (length (List.filter f l)).
Proof.
  induction 1 as [x l | x y l _ IH]; intros Hx; simpl.
  - rewrite Hx. simpl. lia.
  - destruct (f y); simpl; [lia | auto].
Qed.

(** Every prefix taken from a tag has a positive total. *)
Lemma observed_prefix_total p metrics :
  observed_prefix p metrics → 0 < total_for p metrics.
Proof.
  intros (m & t & Hm & Ht & Hp). apply tag_prefix_unique in Hp as <-.
  unfold total_for.
  apply (filter_length_pos _ _ (m, t)).
  - by apply elem_of_tag_pairs.
  - apply tag_prefix_is_prefix.
Qed.

Lemma compliant_le_total p metrics :
  0 ≤ compliant_for p metrics ≤ total_for p metrics.
Proof.
  unfold compliant_for, total_for.
  induction (tag_pairs metrics) as [|[m t] l IH]; simpl; [lia|].
  destruct (String.prefix p t); simpl; [|exact IH].
  destruct (inactive m); simpl; lia.
Qed.

(** ** The compliance loop *)

Definition compliance_entry (metrics : list MetricResult.t) (p : string)
    (c : ComplianceResult.t) : Prop :=
  ComplianceResult.tag c = p ∧
  ComplianceResult.compliant c = compliant_for p metrics ∧
  ComplianceResult.total c = total_for p metrics ∧
  percentage_of (ComplianceResult.compliant c) (ComplianceResult.total c)
  = Ok (ComplianceResult.percentage c).

Lemma compliance_step_Ok metrics comp p comp' :
  compliance_step metrics comp p = Ok comp' →
  if 0 <? total_for p metrics then
    ∃ c, compliance_entry metrics p c ∧ comp' = <[p := c]> comp
  else comp' = comp.
Proof.
  unfold compliance_step. rewrite count_tag_spec.
  destruct (0 <? total_for p metrics); simpl; [|by intros [= <-]].
  intros H. apply bind_Ok in H as (pct & Hpct & [= <-]).
  eexists. split; [|reflexivity]. by repeat split.
Qed.

Lemma compliance_loop_Ok metrics l : ∀ comp comp',
  foldM (compliance_step metrics) comp l = Ok comp' →
  (∀ p, p ∈ l → 0 < total_for p metrics →
        ∃ c, comp' !! p = Some c ∧ compliance_entry metrics p c) ∧
  (∀ p, ¬ (p ∈ l ∧ 0 < total_for p metrics) → comp' !! p = comp !! p).
Proof.
  induction l as [|x l IH]; intros comp comp' Hrun.
  - injection Hrun as <-. split; [|done].
    intros p Hp. by apply elem_of_nil in Hp.
  - simpl in Hrun. apply bind_Ok in Hrun as (comp1 & Hstep & Hrun).
    apply compliance_step_Ok in Hstep.
    destruct (IH _ _ Hrun) as [Hin Hout]. split.
    + intros p Hp Hpos.
      destruct (decide (p ∈ l)) as [Hl|Hl]; [by apply Hin|].
      apply elem_of_cons in Hp as [->|Hp]; [|done].
      rewrite Hout by tauto.
      apply Z.ltb_lt in Hpos. rewrite Hpos in Hstep.
      destruct Hstep as (c & Hc & ->). exists c.
      by rewrite lookup_insert_eq.
    + intros p Hp. rewrite Hout.
      * destruct (0 <? total_for x metrics) eqn:Hpos; [|by subst].
        destruct Hstep as (c & Hc & ->).
        apply lookup_insert_ne. intros ->. apply Hp.
        split; [by left | by apply Z.ltb_lt].
      * intros [Hl Hpos]. apply Hp. split; [by right | done].
Qed.

Lemma float_of_int_Raise z e : float_of_int z = Raise e → e = OverflowError.
Proof.
  unfold float_of_int.
  destruct (binary_normalize prec emax z 0 false); congruence.
Qed.

Lemma percentage_of_Raise c t e :
  percentage_of c t = Raise e → e = OverflowError.
Proof.
  unfold percentage_of. intros H.
  apply bind_Raise in H as [H | (fc & _ & H)];
    [by apply float_of_int_Raise in H|].
  apply bind_Raise in H as [H | (ft & _ & H)];
    [by apply float_of_int_Raise in H | discriminate].
Qed.

Lemma stars_of_Raise overall e : stars_of overall = Raise e → e = OverflowError.
Proof.
  unfold stars_of. intros H.
  apply bind_Raise in H as [H | (f & _ & H)];
    [by apply float_of_int_Raise in H | discriminate].
Qed.

Lemma compliance_loop_Raise metrics l comp e :
  foldM (compliance_step metrics) comp l = Raise e → e = OverflowError.
Proof.
  revert comp. induction l as [|x l IH]; intros comp; [discriminate|].
  simpl. intros H. apply bind_Raise in H as [H | (comp1 & _ & H)];
    [|by apply IH in H].
  unfold compliance_step in H.
  destruct (count_tag x metrics) as [total compliant].
  destruct (0 <? total); [|discriminate].
  apply bind_Raise in H as [H | (pct & _ & H)];
    [by apply percentage_of_Raise in H | discriminate].
Qed.

(** ** The structure of a successful run *)

Lemma compute_score_Ok tm it a r :
  compute_score tm it a = Ok r →
  ∃ metrics acc dims oc om stars comp,
    build_metrics (get it ∅) a (get (tm_metrics tm) []) = Ok metrics ∧
    foldM accum_step dim_accum_init metrics = Ok acc ∧
    foldM (score_step acc) (∅, 0, 0) DIMENSIONS = Ok (dims, oc, om) ∧
    stars_of (overall_score oc om) = Ok stars ∧
    foldM (compliance_step metrics) ∅ (sorted (collect_prefixes metrics))
    = Ok comp ∧
    r = ScoreResult.mk (get (tm_name tm) "unknown") dims
          (overall_score oc om) stars comp metrics
          (Z.of_nat (length metrics))
          (count_if MetricResult.active metrics)
          (count_if (λ m, negb (MetricResult.active m)) metrics).
Proof.
  unfold compute_score. intros H.
  apply bind_Ok in H as (metrics & Hm & H).
  apply bind_Ok in H as (acc & Hacc & H).
  apply bind_Ok in H as ([[dims oc] om] & Hdims & H).
  apply bind_Ok in H as (stars & Hstars & H).
  apply bind_Ok in H as (comp & Hcomp & H).
  injection H as <-.
  exists metrics, acc, dims, oc, om, stars, comp. done.
Qed.

Lemma count_if_length p metrics :
  count_if p metrics = Z.of_nat (length (List.filter p metrics)).
Proof.
  unfold count_if.
  assert (∀ (l : list MetricResult.t) acc,
            foldl Z.add acc ((λ _, 1) <$> l) = acc + Z.of_nat (length l))
    as Hgen.
  { induction l as [|x l IH]; intros acc; csimpl; [lia|].
    rewrite IH. lia. }
  rewrite Hgen. lia.
Qed.

Lemma filter_partition_length {A : Type} (p : A → bool) (l : list A) :
  (length (List.filter p l) + length (List.filter (λ x, negb (p x)) l))%nat
  = length l.
Proof.
  induction l as [|x l IH]; simpl; [reflexivity|].
  destruct (p x); simpl; lia.
Qed.

(** The table of dimension scores of a successful run. *)
Lemma compute_score_dimensions tm it a r :
  compute_score tm it a = Ok r →
  (∀ d, d ∈ DIMENSIONS →
     ScoreResult.dimensions r !! d =
     Some (DimensionScore.mk d
             (dim_current d (ScoreResult.metrics r))
             (dim_maximum d (ScoreResult.metrics r))
             (dimension_score (dim_current d (ScoreResult.metrics r))
                              (dim_maximum d (ScoreResult.metrics r))))) ∧
  (∀ d, d ∉ DIMENSIONS → ScoreResult.dimensions r !! d = None) ∧
  ScoreResult.overall r =
    overall_score
      (sum_dimensions DimensionScore.current (ScoreResult.dimensions r))
      (sum_dimensions DimensionScore.maximum (ScoreResult.dimensions r)).
Proof.
  intros H.
  apply compute_score_Ok in H
    as (metrics & acc & dims & oc & om & stars & comp
        & Hm & Hacc & Hdims & Hstars & Hcomp & ->).
  simpl.
  pose proof (accum_loop_Ok _ _ _ Hacc) as Hlk.
  apply score_loop_Ok in Hdims as (Hin & Hout & -> & ->).
  assert (∀ d, d ∈ DIMENSIONS →
            acc !! d = Some (dim_current d metrics, dim_maximum d metrics))
    as Hacc_d.
  { intros d Hd. rewrite Hlk, dim_accum_init_lookup, decide_True by done.
    simpl. do 2 f_equal; lia. }
  assert (∀ d, d ∈ DIMENSIONS →
     dims !! d =
     Some (DimensionScore.mk d (dim_current d metrics) (dim_maximum d metrics)
             (dimension_score (dim_current d metrics)
                              (dim_maximum d metrics)))) as Hdims_d.
  { intros d Hd. destruct (Hin d Hd) as (c & mx & Hc & ->).
    rewrite (Hacc_d d Hd) in Hc. by injection Hc as <- <-. }
  split; [exact Hdims_d|]. split; [intros d Hd; by rewrite Hout|].
  unfold sum_dimensions. f_equal.
  - rewrite Z.add_0_l.
    assert (Forall (λ d, d ∈ DIMENSIONS) DIMENSIONS) as Hall
      by (apply Forall_forall; auto).
    induction Hall as [|d l Hd _ IH]; simpl; [done|].
    by rewrite IH, (Hacc_d d Hd), (Hdims_d d Hd).
  - rewrite Z.add_0_l.
    assert (Forall (λ d, d ∈ DIMENSIONS) DIMENSIONS) as Hall
      by (apply Forall_forall; auto).
    induction Hall as [|d l Hd _ IH]; simpl; [done|].
    by rewrite IH, (Hacc_d d Hd), (Hdims_d d Hd).
Qed.

Lemma floor_div_bounds (c m : Z) :
  0 < m → 100 * c / m * m ≤ 100 * c < (100 * c / m + 1) * m.
Proof.
  intros Hm. pose proof (Z.mul_div_le (100 * c) m Hm).
  pose proof (Z.mul_succ_div_gt (100 * c) m Hm). lia.
Qed.

Lemma overall_and_stars_aux tm it a r :
  compute_score tm it a = Ok r →
  stars_of (ScoreResult.overall r) = Ok (ScoreResult.stars r).
Proof.
  intros H.
  apply compute_score_Ok in H
    as (metrics & acc & dims & oc & om & stars & comp
        & _ & _ & _ & Hstars & _ & ->).
  exact Hstars.
Qed.

(** ** The claims *)

(** C1. In the result of [compute_score], each of the five fixed
    dimensions has a score record whose [current] is the sum of the
    severities of the inactive metrics of that dimension and whose
    [maximum] is the sum of all its severities; the score is
    floor(100 * current / maximum) when maximum > 0 and -1 when
    maximum = 0.  The returned metrics are the document's records with
    their status resolved.  In particular current = 3, maximum = 7 gives
    42. *)
Theorem dimension_score_floor tm it a r :
  compute_score tm it a = Ok r →
  Forall2 (resolves (get it ∅) a) (get (tm_metrics tm) [])
          (ScoreResult.metrics r) ∧
  (∀ d, d ∈ DIMENSIONS →
     ∃ ds, ScoreResult.dimensions r !! d = Some ds ∧
       DimensionScore.current ds = dim_current d (ScoreResult.metrics r) ∧
       DimensionScore.maximum ds = dim_maximum d (ScoreResult.metrics r) ∧
       (0 < DimensionScore.maximum ds →
          DimensionScore.score ds =
            100 * DimensionScore.current ds / DimensionScore.maximum ds ∧
          DimensionScore.score ds * DimensionScore.maximum ds
            ≤ 100 * DimensionScore.current ds
            < (DimensionScore.score ds + 1) * DimensionScore.maximum ds) ∧
       (DimensionScore.maximum ds = 0 → DimensionScore.score ds = -1)) ∧
  dimension_score 3 7 = 42.
Proof.
  intros H. split; [|split; [|reflexivity]].
  - apply compute_score_Ok in H
      as (metrics & acc & dims & oc & om & stars & comp & Hm & _ & _ & _ & _ & ->).
    by apply build_metrics_Ok.
  - intros d Hd. apply compute_score_dimensions in H as (Hdims & _ & _).
    eexists. split; [exact (Hdims d Hd)|]. simpl.
    split; [done|]. split; [done|]. unfold dimension_score. split.
    + intros Hpos. apply Z.ltb_lt in Hpos as Hpos'. rewrite Hpos'.
      split; [done | by apply floor_div_bounds].
    + intros ->. reflexivity.
Qed.

(** C2. The overall score is floor(100 * overall_current / overall_max),
    where the two sums range over the five fixed dimensions of the
    result, and it is 0 when overall_max is 0 (or is not positive); the
    stars are overall * 5.0 / 100.0 in floating point. *)
Theorem overall_and_stars tm it a r :
  compute_score tm it a = Ok r →
  let overall_current :=
    sum_dimensions DimensionScore.current (ScoreResult.dimensions r) in
  let overall_max :=
    sum_dimensions DimensionScore.maximum (ScoreResult.dimensions r) in
  (0 < overall_max →
     ScoreResult.overall r = 100 * overall_current / overall_max ∧
     ScoreResult.overall r * overall_max ≤ 100 * overall_current
       < (ScoreResult.overall r + 1) * overall_max) ∧
  (overall_max ≤ 0 → ScoreResult.overall r = 0) ∧
  ∃ f, float_of_int (ScoreResult.overall r) = Ok f ∧
       ScoreResult.stars r = float_div (float_mul f f5_0) f100_0.
Proof.
  intros H oc om.
  pose proof (compute_score_dimensions _ _ _ _ H) as (_ & _ & Hov).
  fold oc om in Hov. rewrite Hov. unfold overall_score.
  split; [|split].
  - intros Hpos. apply Z.ltb_lt in Hpos as Hpos'. rewrite Hpos'.
    split; [done | by apply floor_div_bounds].
  - intros Hle. apply Z.ltb_ge in Hle. by rewrite Hle.
  - apply compute_score_Ok in H
      as (metrics & acc & dims & oc' & om' & stars & comp
          & _ & _ & _ & Hstars & _ & ->).
    simpl in *. unfold overall_score in Hov. rewrite <- Hov.
    unfold stars_of in Hstars. apply bind_Ok in Hstars as (f & Hf & [= <-]).
    eauto.
Qed.

(** C7. The summary counts add up: active_threats + inactive_threats =
    total_metrics, where total_metrics is the length of the returned
    metric list and the two counts are the numbers of its metrics with
    active = true and active = false. *)
Theorem summary_counts tm it a r :
  compute_score tm it a = Ok r →
  ScoreResult.active_threats r + ScoreResult.inactive_threats r
    = ScoreResult.total_metrics r ∧
  ScoreResult.total_metrics r = Z.of_nat (length (ScoreResult.metrics r)) ∧
  ScoreResult.active_threats r =
    Z.of_nat (length (List.filter (λ m, bool_decide (MetricResult.active m = true))
                                  (ScoreResult.metrics r))) ∧
  ScoreResult.inactive_threats r =
    Z.of_nat (length (List.filter (λ m, bool_decide (MetricResult.active m = false))
                                  (ScoreResult.metrics r))).
Proof.
  intros H.
  apply compute_score_Ok in H
    as (metrics & acc & dims & oc & om & stars & comp & _ & _ & _ & _ & _ & ->).
  simpl. rewrite !count_if_length.
  assert (∀ p q : MetricResult.t → bool, (∀ m, p m = q m) →
            List.filter p metrics = List.filter q metrics) as Hext.
  { intros p q Hpq. induction metrics as [|m l IH]; simpl; [done|].
    by rewrite Hpq, IH. }
  rewrite (Hext (λ m, bool_decide (MetricResult.active m = true))
                MetricResult.active) by (by intros [? ? ? ? []]).
  rewrite (Hext (λ m, bool_decide (MetricResult.active m = false))
                (λ m, negb (MetricResult.active m)))
    by (by intros [? ? ? ? []]).
  pose proof (filter_partition_length MetricResult.active metrics).
  repeat split; lia.
Qed.

(** C6. A compliance result is emitted exactly for the tag prefixes
    observed on some metric's tag whose total is positive (which every
    observed prefix has); [total] counts the metric–tag pairs whose tag
    starts with the prefix, [compliant] those of them whose metric is
    inactive, and [percentage] is 100.0 * compliant / total in floating
    point: 1 of 2 gives exactly 50.0, and 1 of 3 is not floored to 33.0. *)
Theorem compliance_by_prefix tm it a r :
  compute_score tm it a = Ok r →
  (∀ p, is_Some (ScoreResult.compliance r !! p) ↔
        observed_prefix p (ScoreResult.metrics r) ∧
        0 < total_for p (ScoreResult.metrics r)) ∧
  (∀ p, observed_prefix p (ScoreResult.metrics r) →
        0 < total_for p (ScoreResult.metrics r)) ∧
  (∀ p c, ScoreResult.compliance r !! p = Some c →
     ComplianceResult.tag c = p ∧
     ComplianceResult.total c = total_for p (ScoreResult.metrics r) ∧
     ComplianceResult.compliant c = compliant_for p (ScoreResult.metrics r) ∧
     ∃ fc ft,
       float_of_int (ComplianceResult.compliant c) = Ok fc ∧
       float_of_int (ComplianceResult.total c) = Ok ft ∧
       ComplianceResult.percentage c = float_div (float_mul f100_0 fc) ft) ∧
  percentage_of 1 2 = Ok f50_0 ∧
  percentage_of 1 3 ≠ Ok (float_lit 33).
Proof.
  intros H.
  apply compute_score_Ok in H
    as (metrics & acc & dims & oc & om & stars & comp
        & _ & _ & _ & _ & Hcomp & ->).
  simpl. apply compliance_loop_Ok in Hcomp as [Hin Hout].
  assert (∀ p c, comp !! p = Some c →
            observed_prefix p metrics ∧ 0 < total_for p metrics ∧
            compliance_entry metrics p c) as Hentry.
  { intros p c Hc.
    destruct (decide (p ∈ sorted (collect_prefixes metrics)
                      ∧ 0 < total_for p metrics)) as [[Hp Hpos]|Hno].
    - destruct (Hin p Hp Hpos) as (c' & Hc' & He).
      rewrite Hc in Hc'. injection Hc' as <-.
      apply sorted_elem, collect_prefixes_elem in Hp. done.
    - rewrite (Hout p Hno), lookup_empty in Hc. discriminate. }
  split; [|split; [|split; [|split]]].
  - intros p. split.
    + intros [c Hc]. destruct (Hentry p c Hc) as (? & ? & _). done.
    + intros [Hp Hpos]. apply collect_prefixes_elem, sorted_elem in Hp.
      destruct (Hin p Hp Hpos) as (c & Hc & _). by exists c.
  - intros p. apply observed_prefix_total.
  - intros p c Hc.
    destruct (Hentry p c Hc) as (_ & _ & Htag & Hcompl & Htot & Hpct).
    split; [done|]. split; [done|]. split; [done|].
    unfold percentage_of in Hpct.
    apply bind_Ok in Hpct as (fc & Hfc & Hpct).
    apply bind_Ok in Hpct as (ft & Hft & [= Hpct]).
    exists fc, ft. done.
  - vm_compute. reflexivity.
  - vm_compute. discriminate.
Qed.

(** C5. A document whose metric list is empty is not an error: the
    result has overall 0, stars 0.0, score -1 for each of the five
    dimensions, no compliance entry and no metric. *)
Theorem empty_metric_list tm it a :
  tm_metrics tm = Some [] →
  ∃ r, compute_score tm it a = Ok r ∧
    ScoreResult.overall r = 0 ∧
    ScoreResult.stars r = f0_0 ∧
    (∀ d, d ∈ DIMENSIONS →
       ∃ ds, ScoreResult.dimensions r !! d = Some ds ∧
             DimensionScore.score ds = -1) ∧
    ScoreResult.compliance r = ∅ ∧
    ScoreResult.metrics r = [] ∧
    ScoreResult.total_metrics r = 0.
Proof.
  destruct tm as [n ms]. simpl. intros ->.
  eexists. split; [reflexivity|]. simpl.
  split; [reflexivity|]. split; [reflexivity|].
  split; [|split; [reflexivity | split; reflexivity]].
  intros d Hd. unfold DIMENSIONS in Hd.
  repeat (apply elem_of_cons in Hd as [->|Hd]);
    try (eexists; split; [vm_compute; reflexivity | reflexivity]).
  by apply elem_of_nil in Hd.
Qed.

(** ** Unrecognised dimensions *)

(** C3, counterexample.  On a document with a metric of dimension
    ["physical"], [compute_score] does not complete: the lookup of the
    accumulator slot raises [KeyError]. *)
Lemma unknown_dimension_counterexample :
  compute_score model_unknown_dimension None false
  = Raise (KeyError "physical").
Proof. vm_compute. reflexivity. Qed.

(** C3, as the code has it.  For every document with a metric whose
    dimension is none of the five labels, [compute_score] returns no
    result: it raises [KeyError].  When every metric record has its
    required keys, the key of the error is the unrecognised dimension of
    one of the metrics. *)
Theorem unknown_dimension_raises tm it a :
  (∃ m d, m ∈ get (tm_metrics tm) [] ∧ raw_dimension m = Some d ∧
          d ∉ DIMENSIONS) →
  ∃ k, compute_score tm it a = Raise (KeyError k) ∧
    (Forall (λ m, ¬ lacks_required m) (get (tm_metrics tm) []) →
     (k ∉ DIMENSIONS) ∧
     ∃ m, m ∈ get (tm_metrics tm) [] ∧ raw_dimension m = Some k).
Proof.
  intros (raw & d & Hraw & Hd & Hunknown). unfold compute_score.
  destruct (build_metrics (get it ∅) a (get (tm_metrics tm) []))
    as [metrics|e] eqn:Hbuild.
  - apply build_metrics_Ok in Hbuild. simpl.
    destruct (accum_loop_Raise metrics dim_accum_init) as (m & Hm & Hnone & ->).
    { apply Exists_exists.
      destruct (proj1 (list_elem_of_lookup _ _) Hraw) as [i Hi].
      destruct (Forall2_lookup_l _ _ _ _ _ Hbuild Hi) as (m & Hmi & Hres).
      exists m. split; [by eapply list_elem_of_lookup_2|].
      destruct Hres as (_ & Hdim & _). rewrite Hd in Hdim.
      injection Hdim as <-.
      by rewrite dim_accum_init_lookup, decide_False. }
    simpl. eexists. split; [reflexivity|]. intros _.
    rewrite dim_accum_init_lookup in Hnone. case_decide; [done|].
    split; [done|].
    destruct (proj1 (list_elem_of_lookup _ _) Hm) as [i Hi].
    destruct (Forall2_lookup_r _ _ _ _ _ Hbuild Hi) as (raw' & Hri & Hres).
    exists raw'. split; [by eapply list_elem_of_lookup_2|].
    by destruct Hres as (_ & Hdim & _).
  - simpl. destruct (build_metrics_Raise _ _ _ _ Hbuild) as (k & -> & _).
    exists k. split; [reflexivity|]. intros Hall.
    apply (build_metrics_total (get it ∅) a) in Hall as [metrics Hok].
    congruence.
Qed.

(** ** The best case *)

Lemma all_inactive_metrics it raws metrics :
  Forall2 (resolves it true) raws metrics →
  Forall (λ m, MetricResult.active m = false) metrics.
Proof.
  induction 1 as [|raw m raws metrics (_ & _ & _ & _ & Hact) _ IH];
    constructor; [exact Hact | exact IH].
Qed.

Lemma all_inactive_current d metrics :
  Forall (λ m, MetricResult.active m = false) metrics →
  dim_current d metrics = dim_maximum d metrics.
Proof.
  induction 1 as [|m metrics Hact _ IH]; [reflexivity|].
  rewrite dim_current_cons, dim_maximum_cons, IH.
  unfold inactive. rewrite Hact. simpl. by rewrite andb_true_r.
Qed.

Lemma all_inactive_count metrics :
  Forall (λ m, MetricResult.active m = false) metrics →
  count_if MetricResult.active metrics = 0.
Proof.
  intros Hall. rewrite count_if_length.
  induction Hall as [|m metrics Hact _ IH]; [reflexivity|].
  simpl. by rewrite Hact.
Qed.

(** C4, counterexample.  With [all_inactive] set, the empty document
    gets overall 0 and 0.0 stars, not 100 and 5.0. *)
Lemma all_inactive_counterexample :
  ∃ r, compute_score model_empty None true = Ok r ∧
       ScoreResult.overall r = 0 ∧ ScoreResult.overall r ≠ 100 ∧
       ScoreResult.stars r = f0_0 ∧ ScoreResult.stars r ≠ f5_0.
Proof.
  eexists. split; [reflexivity|]. simpl.
  split; [reflexivity|]. split; [discriminate|].
  split; [reflexivity | discriminate].
Qed.

(** C4, as the code has it.  In every result of [compute_score] with
    [all_inactive] set, every dimension with maximum > 0 has score 100
    and no threat is active; overall is 100 and stars are 5.0 when the
    maxima of the five dimensions sum to more than 0, and overall is 0
    and stars are 0.0 otherwise. *)
Theorem all_inactive_best_case tm it r :
  compute_score tm it true = Ok r →
  (∀ d ds, ScoreResult.dimensions r !! d = Some ds →
           0 < DimensionScore.maximum ds → DimensionScore.score ds = 100) ∧
  ScoreResult.active_threats r = 0 ∧
  (0 < sum_dimensions DimensionScore.maximum (ScoreResult.dimensions r) →
     ScoreResult.overall r = 100 ∧ ScoreResult.stars r = f5_0) ∧
  (sum_dimensions DimensionScore.maximum (ScoreResult.dimensions r) ≤ 0 →
     ScoreResult.overall r = 0 ∧ ScoreResult.stars r = f0_0).
Proof.
  intros H.
  pose proof (compute_score_dimensions _ _ _ _ H) as (Hdims & Hnone & Hov).
  pose proof (overall_and_stars_aux _ _ _ _ H) as Hstars.
  apply compute_score_Ok in H
    as (metrics & acc & dims & oc & om & stars & comp
        & Hm & _ & _ & _ & _ & ->).
  simpl in *.
  apply build_metrics_Ok, all_inactive_metrics in Hm.
  assert (sum_dimensions DimensionScore.current dims
          = sum_dimensions DimensionScore.maximum dims) as Hsum.
  { unfold sum_dimensions.
    assert (Forall (λ d, d ∈ DIMENSIONS) DIMENSIONS) as Hall
      by (apply Forall_forall; auto).
    induction Hall as [|d l Hd _ IH]; simpl; [done|].
    rewrite IH, (Hdims d Hd). simpl. by rewrite all_inactive_current. }
  rewrite Hsum in Hov.
  split; [|split; [|split]].
  - intros d ds Hds Hpos.
    destruct (decide (d ∈ DIMENSIONS)) as [Hd|Hd];
      [|rewrite (Hnone d Hd) in Hds; discriminate].
    rewrite (Hdims d Hd) in Hds. injection Hds as <-. simpl in *.
    rewrite all_inactive_current in * by done.
    unfold dimension_score. apply Z.ltb_lt in Hpos as Hpos'. rewrite Hpos'.
    apply Z.div_mul. lia.
  - by apply all_inactive_count.
  - intros Hpos. rewrite Hov in Hstars |- *. unfold overall_score in *.
    apply Z.ltb_lt in Hpos as Hpos'. rewrite Hpos' in Hstars |- *.
    rewrite Z.div_mul in Hstars |- * by lia. split; [done|].
    vm_compute in Hstars. by injection Hstars as <-.
  - intros Hle. rewrite Hov in Hstars |- *. unfold overall_score in *.
    apply Z.ltb_ge in Hle. rewrite Hle in Hstars |- *. split; [done|].
    vm_compute in Hstars. by injection Hstars as <-.
Qed.

(** ** Names that match no metric *)

Lemma build_metric_agree s1 s2 a raw :
  (∀ n, raw_name raw = Some n → (n ∈ s1 ↔ n ∈ s2)) →
  build_metric s1 a raw = build_metric s2 a raw.
Proof.
  intros Hagree. unfold build_metric.
  destruct (raw_name raw) as [n|]; [|reflexivity]. simpl.
  by rewrite (bool_decide_ext _ _ (Hagree n eq_refl)).
Qed.

Lemma build_metrics_agree s1 s2 a raws :
  (∀ n, n ∈ omap raw_name raws → (n ∈ s1 ↔ n ∈ s2)) →
  build_metrics s1 a raws = build_metrics s2 a raws.
Proof.
  induction raws as [|raw raws IH]; intros Hagree; [reflexivity|].
  rewrite !build_metrics_cons, IH.
  - rewrite (build_metric_agree s1 s2); [reflexivity|].
    intros n Hn. apply Hagree, list_elem_of_omap.
    exists raw. split; [by left | done].
  - intros n Hn. apply Hagree.
    apply list_elem_of_omap in Hn as (raw' & Hin & Hname).
    apply list_elem_of_omap. exists raw'. split; [by right | done].
Qed.

(** C8. Two inactive-name sets that differ only by names that match no
    metric of the document give equal outcomes of [compute_score]: the
    same result, field by field, or the same exception. *)
Theorem unmatched_names_inert tm (s1 s2 : gset string) a :
  (∀ n, n ∈ (s1 ∖ s2) ∪ (s2 ∖ s1) → n ∉ metric_names tm) →
  compute_score tm (Some s1) a = compute_score tm (Some s2) a.
Proof.
  intros Hdiff. unfold compute_score. simpl.
  rewrite (build_metrics_agree s1 s2); [reflexivity|].
  intros n Hn. fold (metric_names tm) in Hn.
  destruct (decide (n ∈ s1)) as [H1|H1], (decide (n ∈ s2)) as [H2|H2];
    try tauto; exfalso; apply (Hdiff n); try done; set_solver.
Qed.

(** ** Optional keys *)

Lemma build_metrics_with_tags s a raws :
  build_metrics s a (with_tags <$> raws) = build_metrics s a raws.
Proof.
  induction raws as [|raw raws IH]; [reflexivity|].
  rewrite fmap_cons, !build_metrics_cons, IH.
  by destruct raw as [[n|] [d|] [sv|] [tg|]].
Qed.

(** C10. A document without the ["metrics"] key is scored as the
    document with an empty metric list, and this is a result, not an
    error; without the ["name"] key the platform of the result is
    ["unknown"], and nothing else changes; a metric record without the
    ["tags"] key is treated as the record with an empty tag list.  A
    metric record without ["name"], ["dimension"] or ["severity"] makes
    [compute_score] raise [KeyError] on one of these keys. *)
Theorem optional_keys tm it a :
  (tm_metrics tm = None →
     compute_score tm it a
     = compute_score (mkThreatModel (tm_name tm) (Some [])) it a ∧
     ∃ r, compute_score tm it a = Ok r ∧ ScoreResult.metrics r = []) ∧
  (tm_name tm = None →
     (∀ r, compute_score tm it a = Ok r →
           ScoreResult.platform r = "unknown") ∧
     ∀ n, compute_score tm it a
          = fmap (M:=result) (set_platform "unknown")
              (compute_score (mkThreatModel (Some n) (tm_metrics tm)) it a)) ∧
  compute_score tm it a = compute_score (with_all_tags tm) it a ∧
  (Exists lacks_required (get (tm_metrics tm) []) →
     ∃ k, k ∈ ["name"; "dimension"; "severity"] ∧
          compute_score tm it a = Raise (KeyError k)).
Proof.
  destruct tm as [n ms]. simpl. split; [|split; [|split]].
  - intros ->. split; [reflexivity|]. eexists. split; reflexivity.
  - intros ->. split.
    + intros r H. apply compute_score_Ok in H
        as (metrics & acc & dims & oc & om & stars & comp
            & _ & _ & _ & _ & _ & ->).
      reflexivity.
    + intros n'. unfold compute_score. cbn [tm_name tm_metrics].
      destruct (build_metrics _ _ _) as [metrics|e];
        rewrite ?bind_Ok_l, ?bind_Raise_l; [cbv beta | reflexivity].
      destruct (foldM accum_step _ _) as [acc|e];
        rewrite ?bind_Ok_l, ?bind_Raise_l; [cbv beta | reflexivity].
      destruct (foldM (score_step acc) _ _) as [[[dims oc] om]|e];
        rewrite ?bind_Ok_l, ?bind_Raise_l; [cbv beta iota | reflexivity].
      destruct (stars_of _) as [stars|e];
        rewrite ?bind_Ok_l, ?bind_Raise_l; [cbv beta | reflexivity].
      destruct (foldM (compliance_step metrics) _ _) as [comp|e];
        reflexivity.
  - unfold compute_score. simpl.
    destruct ms as [raws|]; simpl; [|reflexivity].
    by rewrite build_metrics_with_tags.
  - intros Hex. unfold compute_score. simpl.
    destruct (build_metrics_lacks (get it ∅) a _ Hex) as [e He].
    destruct (build_metrics_Raise _ _ _ _ He) as (k & -> & Hk).
    exists k. split; [done|]. by rewrite He.
Qed.

(** ** Totality on documents of the input shape *)

Lemma compute_score_intro tm it a metrics acc dims oc om stars comp :
  build_metrics (get it ∅) a (get (tm_metrics tm) []) = Ok metrics →
  foldM accum_step dim_accum_init metrics = Ok acc →
  foldM (score_step acc) (∅, 0, 0) DIMENSIONS = Ok (dims, oc, om) →
  stars_of (overall_score oc om) = Ok stars →
  foldM (compliance_step metrics) ∅ (sorted (collect_prefixes metrics))
  = Ok comp →
  compute_score tm it a =
  Ok (ScoreResult.mk (get (tm_name tm) "unknown") dims
        (overall_score oc om) stars comp metrics
        (Z.of_nat (length metrics))
        (count_if MetricResult.active metrics)
        (count_if (λ m, negb (MetricResult.active m)) metrics)).
Proof.
  intros Hm Hacc Hdims Hstars Hcomp. unfold compute_score.
  rewrite Hm, bind_Ok_l, Hacc, bind_Ok_l, Hdims, bind_Ok_l.
  cbv beta iota. rewrite Hstars, bind_Ok_l, Hcomp. reflexivity.
Qed.

Lemma dim_current_bounds d metrics :
  Forall (λ m, 0 ≤ MetricResult.severity m) metrics →
  0 ≤ dim_current d metrics ≤ dim_maximum d metrics.
Proof.
  induction 1 as [|m metrics Hm _ IH]; [done|].
  rewrite dim_current_cons, dim_maximum_cons.
  destruct (in_dimension d m), (inactive m); simpl; lia.
Qed.

Lemma overall_score_bounds oc om :
  0 ≤ oc ≤ om → 0 ≤ overall_score oc om ≤ 100.
Proof.
  intros Hoc. unfold overall_score.
  destruct (Z.ltb_spec 0 om) as [Hpos|]; [|lia]. split.
  - apply Z.div_pos; lia.
  - apply Z.div_le_upper_bound; lia.
Qed.

Lemma percentage_of_Ok compliant total :
  0 ≤ compliant ≤ total → total < 2 ^ 1023 →
  ∃ f, percentage_of compliant total = Ok f.
Proof.
  intros Hc Ht. unfold percentage_of.
  destruct (float_of_int_Ok compliant) as [fc ->]; [lia|].
  destruct (float_of_int_Ok total) as [ft ->]; [lia|].
  eexists. reflexivity.
Qed.

Lemma total_for_le p metrics :
  total_for p metrics ≤ Z.of_nat (length (tag_pairs metrics)).
Proof.
  unfold total_for. apply inj_le.
  induction (tag_pairs metrics) as [|mt l IH]; simpl; [lia|].
  destruct (String.prefix p mt.2); simpl; lia.
Qed.

Lemma compliance_step_total metrics comp p :
  Z.of_nat (length (tag_pairs metrics)) < 2 ^ 1023 →
  ∃ comp', compliance_step metrics comp p = Ok comp'.
Proof.
  intros Hlen. unfold compliance_step. rewrite count_tag_spec.
  destruct (0 <? total_for p metrics); [|by eexists].
  destruct (percentage_of_Ok (compliant_for p metrics) (total_for p metrics))
    as [f ->].
  - apply compliant_le_total.
  - pose proof (total_for_le p metrics). lia.
  - by eexists.
Qed.

Lemma compliance_loop_total metrics l : ∀ comp,
  Z.of_nat (length (tag_pairs metrics)) < 2 ^ 1023 →
  ∃ comp', foldM (compliance_step metrics) comp l = Ok comp'.
Proof.
  induction l as [|p l IH]; intros comp Hlen; [by exists comp|].
  cbn [foldM].
  destruct (compliance_step_total metrics comp p Hlen) as [comp1 ->].
  rewrite bind_Ok_l. by apply IH.
Qed.

Lemma resolves_tag_pairs s a raws metrics :
  Forall2 (resolves s a) raws metrics →
  length (tag_pairs metrics) = length (m ← raws; get (raw_tags m) []).
Proof.
  induction 1 as [|raw m raws metrics (_ & _ & _ & Htags & _) _ IH];
    [reflexivity|].
  rewrite tag_pairs_cons. csimpl.
  by rewrite !length_app, length_fmap, Htags, IH.
Qed.

(** On a document of the input shape with fewer than [2^1023] tags,
    [compute_score] returns a result. *)
Lemma compute_score_returns tm it a :
  well_formed tm → tag_count tm < 2 ^ 1023 →
  ∃ r, compute_score tm it a = Ok r.
Proof.
  unfold well_formed, tag_count. intros Hwf Hcount.
  destruct (build_metrics_total (get it ∅) a (get (tm_metrics tm) []))
    as [metrics Hm].
  { eapply Forall_impl; [exact Hwf|]. simpl.
    intros m (n & d & sv & Hn & Hd & Hsv & _) [H|[H|H]]; congruence. }
  pose proof (proj1 (build_metrics_Ok _ _ _ _) Hm) as Hres.
  assert (Forall (λ m, MetricResult.dimension m ∈ DIMENSIONS ∧
                       0 ≤ MetricResult.severity m) metrics) as Hshape.
  { clear Hm Hcount. induction Hres as [|raw m raws metrics Hr _ IH];
      [constructor|].
    apply Forall_cons in Hwf as [(n & d & sv & _ & Hd & Hsv & Hin & Hpos) Hwf].
    constructor; [|by apply IH].
    destruct Hr as (_ & Hd' & Hsv' & _).
    rewrite Hd in Hd'. rewrite Hsv in Hsv'.
    injection Hd' as <-. injection Hsv' as <-. done. }
  destruct (accum_loop_total metrics dim_accum_init) as [acc Hacc].
  { eapply Forall_impl; [exact Hshape|]. simpl. intros m [Hd _].
    by rewrite dim_accum_init_lookup, decide_True. }
  pose proof (accum_loop_Ok _ _ _ Hacc) as Hlk.
  destruct (score_loop_total acc DIMENSIONS (∅, 0, 0))
    as [[[dims oc] om] Hdims].
  { apply Forall_forall. intros d Hd.
    by rewrite Hlk, dim_accum_init_lookup, decide_True. }
  pose proof (score_loop_Ok _ _ _ _ _ _ _ _ Hdims) as (_ & _ & Hoc & Hom).
  assert (0 ≤ oc ≤ om) as Hbounds.
  { rewrite Hoc, Hom. clear Hoc Hom Hdims.
    assert (Forall (λ d, d ∈ DIMENSIONS) DIMENSIONS) as Hall
      by (apply Forall_forall; auto).
    induction Hall as [|d l Hd _ IH]; simpl; [lia|].
    rewrite Hlk, dim_accum_init_lookup, decide_True by done. simpl.
    pose proof (dim_current_bounds d metrics) as Hb.
    destruct Hb; [|lia].
    eapply Forall_impl; [exact Hshape|]. simpl. tauto. }
  destruct (float_of_int_Ok (overall_score oc om)) as [f Hf].
  { pose proof (overall_score_bounds oc om Hbounds). lia. }
  destruct (compliance_loop_total metrics
              (sorted (collect_prefixes metrics)) ∅) as [comp Hcomp].
  { by rewrite (resolves_tag_pairs _ _ _ _ Hres). }
  eexists. eapply compute_score_intro; try eassumption.
  unfold stars_of. rewrite Hf. reflexivity.
Qed.

(** ** The store model: what a run leaves unchanged *)

Section frame.
Import Store.
Variable h0 : heap.

Lemma unchanged_insert_fresh h l o :
  unchanged h0 h → h0 !! l = None → unchanged h0 (<[l := o]> h).
Proof.
  intros Hh Hl l' o' Hl'. rewrite lookup_insert_ne; [by apply Hh|].
  intros ->. congruence.
Qed.

Lemma unchanged_fresh_loc h : unchanged h0 h → h0 !! fresh (dom h) = None.
Proof.
  intros Hh. destruct (h0 !! fresh (dom h)) as [o|] eqn:Hl; [|done].
  apply Hh in Hl. exfalso. apply (is_fresh (dom h)).
  apply elem_of_dom. by exists o.
Qed.

Lemma frame_weaken {A : Type} (c : prog A) (Q R : A → Prop) :
  (∀ a, Q a → R a) → frame_spec h0 c Q → frame_spec h0 c R.
Proof.
  intros HQR Hc h Hh. destruct (Hc h Hh) as [Hun HQ].
  split; [exact Hun | auto].
Qed.

Lemma frame_any {A : Type} (c : prog A) (Q : A → Prop) :
  frame_spec h0 c Q → frame_spec h0 c (λ _, True).
Proof. by apply frame_weaken. Qed.

Lemma frame_ret {A : Type} (a : A) (Q : A → Prop) :
  Q a → frame_spec h0 (mret a) Q.
Proof. intros Ha h Hh. split; [exact Hh|]. by intros a' [= <-]. Qed.

Lemma frame_raise {A : Type} (e : exn) (Q : A → Prop) :
  frame_spec h0 (raise e) Q.
Proof. intros h Hh. split; [exact Hh | discriminate]. Qed.

Lemma frame_lift {A : Type} (r : result A) :
  frame_spec h0 (lift r) (λ _, True).
Proof. intros h Hh. split; [exact Hh | done]. Qed.

Lemma frame_bind {A B : Type} (c : prog A) (f : A → prog B)
    (Q : A → Prop) (R : B → Prop) :
  frame_spec h0 c Q → (∀ a, Q a → frame_spec h0 (f a) R) →
  frame_spec h0 (c ≫= f) R.
Proof.
  intros Hc Hf h Hh. destruct (Hc h Hh) as [Hun HQ].
  unfold mbind, prog_bind. destruct (c h) as [[a|e] h1]; simpl in *.
  - apply (Hf a); [by apply HQ | exact Hun].
  - split; [exact Hun | discriminate].
Qed.

Lemma frame_bind_any {A B : Type} (c : prog A) (f : A → prog B)
    (R : B → Prop) :
  frame_spec h0 c (λ _, True) → (∀ a, frame_spec h0 (f a) R) →
  frame_spec h0 (c ≫= f) R.
Proof. intros Hc Hf. eapply frame_bind; [exact Hc | auto]. Qed.

(** A created object is not an object of [h0]. *)
Lemma frame_alloc o : frame_spec h0 (alloc o) (fresh_ref h0).
Proof.
  intros h Hh. pose proof (unchanged_fresh_loc h Hh) as Hl. split.
  - by apply unchanged_insert_fresh.
  - intros a [= <-]. by exists (fresh (dom h)).
Qed.

Lemma frame_bind_alloc {B : Type} o (f : val → prog B) (R : B → Prop) :
  (∀ v, fresh_ref h0 v → frame_spec h0 (f v) R) →
  frame_spec h0 (alloc o ≫= f) R.
Proof. intros Hf. eapply frame_bind; [apply frame_alloc | exact Hf]. Qed.

Lemma frame_read v : frame_spec h0 (read v) (λ _, True).
Proof.
  intros h Hh. unfold read.
  destruct v; try (split; [exact Hh | done]).
  destruct (h !! l); split; done.
Qed.

(** An update in place leaves [h0] unchanged when its target is not an
    object of [h0]. *)
Lemma frame_write v o :
  fresh_ref h0 v → frame_spec h0 (write v o) (λ _, True).
Proof.
  intros (l & -> & Hl) h Hh. unfold write.
  destruct (h !! l); simpl; [|split; done].
  split; [by apply unchanged_insert_fresh | done].
Qed.

Lemma frame_for_fold {A S : Type} (body : S → A → prog S) (l : list A) :
  (∀ s x, frame_spec h0 (body s x) (λ _, True)) →
  ∀ s, frame_spec h0 (for_fold body s l) (λ _, True).
Proof.
  intros Hbody. induction l as [|x l IH]; intros s; simpl.
  - by apply frame_ret.
  - apply frame_bind_any; [apply Hbody | apply IH].
Qed.

Lemma frame_for_each {A : Type} (body : A → prog unit) (l : list A) :
  (∀ x, frame_spec h0 (body x) (λ _, True)) →
  frame_spec h0 (for_each l body) (λ _, True).
Proof. intros Hbody. apply frame_for_fold. auto. Qed.

End frame.

(** One step of a frame proof, by the shape of the program. *)
Ltac frame_step :=
  lazymatch goal with
  | |- Store.frame_spec _ (Store.alloc _ ≫= _) _ =>
      apply frame_bind_alloc; intros ? ?
  | |- Store.frame_spec _ (Store.new_instance _ _ ≫= _) _ =>
      apply frame_bind_alloc; intros ? ?
  | |- Store.frame_spec _ (_ ≫= _) _ => apply frame_bind_any; [|intros ?]
  | |- Store.frame_spec _ (mret _) _ => by apply frame_ret
  | |- Store.frame_spec _ (Store.raise _) _ => apply frame_raise
  | |- Store.frame_spec _ (Store.lift _) _ => apply frame_lift
  | |- Store.frame_spec _ (Store.read _) _ => apply frame_read
  | |- Store.frame_spec _ (Store.write _ _) _ => by apply frame_write
  | |- Store.frame_spec _ (Store.alloc _) (λ _, True) =>
      eapply frame_any, frame_alloc
  | |- Store.frame_spec _ (Store.new_instance _ _) (λ _, True) =>
      eapply frame_any, frame_alloc
  | |- Store.frame_spec _ (Store.alloc _) _ => apply frame_alloc
  | |- Store.frame_spec _ (Store.new_instance _ _) _ => apply frame_alloc
  | |- Store.frame_spec _ (Store.for_each _ _) _ =>
      apply frame_for_each; intros ?; cbv beta
  | |- Store.frame_spec _ (Store.for_fold _ _ _) _ =>
      apply frame_for_fold; intros ? ?; cbv beta
  | |- Store.frame_spec _ (match ?x with _ => _ end) _ => destruct x
  | |- Store.frame_spec _ ((match ?x with _ => _ end) _) _ =>
      destruct x; cbv beta
  | |- Store.frame_spec _ (if ?b then _ else _) _ => destruct b
  end.

Ltac frame_steps := repeat frame_step.

Section operations.
Import Store.
Variable h0 : heap.

Lemma frame_as_int v : frame_spec h0 (as_int v) (λ _, True).
Proof. unfold as_int. frame_steps. Qed.

Lemma frame_as_str v : frame_spec h0 (as_str v) (λ _, True).
Proof. unfold as_str. frame_steps. Qed.

Lemma frame_as_bool v : frame_spec h0 (as_bool v) (λ _, True).
Proof. unfold as_bool. frame_steps. Qed.

Lemma frame_as_int_pair v : frame_spec h0 (as_int_pair v) (λ _, True).
Proof. unfold as_int_pair. frame_steps. Qed.

Lemma frame_dict_getitem d key :
  frame_spec h0 (dict_getitem d key) (λ _, True).
Proof. unfold dict_getitem. frame_steps. Qed.

Lemma frame_dict_get d key dflt :
  frame_spec h0 (dict_get d key dflt) (λ _, True).
Proof. unfold dict_get. frame_steps. Qed.

Lemma frame_dict_setitem d key v :
  fresh_ref h0 d → frame_spec h0 (dict_setitem d key v) (λ _, True).
Proof. intros Hd. unfold dict_setitem. frame_steps. Qed.

Lemma frame_list_append l v :
  fresh_ref h0 l → frame_spec h0 (list_append l v) (λ _, True).
Proof. intros Hl. unfold list_append. frame_steps. Qed.

Lemma frame_list_items l : frame_spec h0 (list_items l) (λ _, True).
Proof. unfold list_items. frame_steps. Qed.

Lemma frame_list_len l : frame_spec h0 (list_len l) (λ _, True).
Proof. unfold list_len. frame_steps. apply frame_list_items. Qed.

Lemma frame_set_add s x :
  fresh_ref h0 s → frame_spec h0 (set_add s x) (λ _, True).
Proof. intros Hs. unfold set_add. frame_steps. Qed.

Lemma frame_set_contains s x :
  frame_spec h0 (set_contains s x) (λ _, True).
Proof. unfold set_contains. frame_steps. Qed.

Lemma frame_set_sorted s : frame_spec h0 (set_sorted s) (λ _, True).
Proof. unfold set_sorted. frame_steps. Qed.

Lemma frame_getattr o field : frame_spec h0 (getattr o field) (λ _, True).
Proof. unfold getattr. frame_steps. Qed.

End operations.

(** A frame proof of a block of statements. *)
Ltac frame_block :=
  repeat first
    [ frame_step
    | apply frame_as_int | apply frame_as_str | apply frame_as_bool
    | apply frame_as_int_pair
    | apply frame_dict_getitem | apply frame_dict_get
    | apply frame_list_items | apply frame_list_len
    | apply frame_set_contains | apply frame_set_sorted
    | apply frame_getattr
    | by apply frame_dict_setitem | by apply frame_list_append
    | by apply frame_set_add ].

Section compute_score_frame.
Import Store.
Variable h0 : heap.

Lemma frame_build_metric it a metrics m :
  fresh_ref h0 metrics →
  frame_spec h0 (Store.build_metric it a metrics m) (λ _, True).
Proof. intros Hm. unfold Store.build_metric. frame_block. Qed.

Lemma frame_accum_step dim_accum m :
  fresh_ref h0 dim_accum →
  frame_spec h0 (Store.accum_step dim_accum m) (λ _, True).
Proof. intros Hd. unfold Store.accum_step. frame_block. Qed.

Lemma frame_score_step dim_accum dimensions st dim_name :
  fresh_ref h0 dimensions →
  frame_spec h0 (Store.score_step dim_accum dimensions st dim_name)
             (λ _, True).
Proof.
  intros Hd. unfold Store.score_step. destruct st as [oc om]. frame_block.
Qed.

Lemma frame_collect_prefixes tag_prefixes metrics :
  fresh_ref h0 tag_prefixes →
  frame_spec h0 (Store.collect_prefixes tag_prefixes metrics) (λ _, True).
Proof. intros Ht. unfold Store.collect_prefixes. frame_block. Qed.

Lemma frame_count_tag tag metrics :
  frame_spec h0 (Store.count_tag tag metrics) (λ _, True).
Proof. unfold Store.count_tag. frame_block. Qed.

Lemma frame_compliance_step compliance metrics tag :
  fresh_ref h0 compliance →
  frame_spec h0 (Store.compliance_step compliance metrics tag) (λ _, True).
Proof.
  intros Hc. unfold Store.compliance_step. frame_block.
  apply frame_count_tag.
Qed.

Lemma frame_count_if p metrics :
  frame_spec h0 (Store.count_if p metrics) (λ _, True).
Proof. unfold Store.count_if. frame_block. Qed.

(** A run of [compute_score] leaves every object of the initial store
    unchanged and returns a reference to an object it created. *)
Lemma frame_compute_score threat_model inactive_threats all_inactive :
  frame_spec h0
    (Store.compute_score threat_model inactive_threats all_inactive)
    (fresh_ref h0).
Proof.
  unfold Store.compute_score.
  repeat first
    [ frame_step
    | apply frame_dict_get | apply frame_list_items | apply frame_list_len
    | apply frame_set_sorted | apply frame_count_if
    | by apply frame_build_metric | by apply frame_accum_step
    | by apply frame_score_step | by apply frame_collect_prefixes
    | by apply frame_compliance_step ].
Qed.

End compute_score_frame.

(** ** The store model: what a run returns *)

Lemma returns_bind {A B : Type} (c : Store.prog A) (f : A → Store.prog B)
    (Q : B → gmap positive Store.obj → Prop) :
  (∀ a, Store.returns (f a) Q) → Store.returns (c ≫= f) Q.
Proof.
  intros Hf h b h' Hrun. unfold mbind, Store.prog_bind in Hrun.
  destruct (c h) as [[a|e] h1]; [by eapply Hf | discriminate].
Qed.

Lemma returns_new_instance cls fields :
  Store.returns (Store.new_instance cls fields)
    (λ v h', ∃ l, v = Store.VRef l ∧
                  h' !! l = Some (Store.OInstance cls (list_to_map fields))).
Proof.
  intros h v h' [= <- <-]. eexists. split; [reflexivity|].
  apply lookup_insert_eq.
Qed.

Lemma returns_compute_score threat_model inactive_threats all_inactive :
  Store.returns
    (Store.compute_score threat_model inactive_threats all_inactive)
    (λ v h', ∃ l fields, v = Store.VRef l ∧
               h' !! l = Some (Store.OInstance "ScoreResult" fields)).
Proof.
  unfold Store.compute_score.
  repeat (apply returns_bind; intros ?;
          try match goal with
              | |- Store.returns (let '(_, _) := ?x in _) _ => destruct x
              end).
  intros h v h' Hrun.
  apply returns_new_instance in Hrun as (l & -> & Hl). eauto.
Qed.

(** C9. [compute_score] does not mutate its input.  From any store,
    whatever the arguments refer to, a run leaves every object the store
    held before the call unchanged (the document, its metric list, each
    metric record, each tag list, the inactive set), whether the run
    returns or raises; and a returned value refers to a [ScoreResult]
    object at a location that the initial store did not hold. *)
Theorem compute_score_no_mutation (h : gmap positive Store.obj)
    (threat_model inactive_threats : Store.val) (all_inactive : bool) :
  let run :=
    Store.compute_score threat_model inactive_threats all_inactive h in
  (∀ l o, h !! l = Some o → run.2 !! l = Some o) ∧
  (∀ v, run.1 = Ok v →
        ∃ l fields, v = Store.VRef l ∧ h !! l = None ∧
          run.2 !! l = Some (Store.OInstance "ScoreResult" fields)).
Proof.
  intros run.
  destruct (frame_compute_score h threat_model inactive_threats all_inactive h)
    as [Hun Hfresh]; [by intros l o|].
  fold run in Hun, Hfresh. split; [exact Hun|].
  intros v Hv. destruct (Hfresh v Hv) as (l & -> & Hl).
  destruct run as [res h'] eqn:Hrun. simpl in Hv. subst res.
  apply returns_compute_score in Hrun as (l' & fields & [= <-] & Hobj).
  exists l, fields. done.
Qed.

(** The store model and the functional model agree on the documents of
    [Store.doc_heap] and [Store.unknown_heap]: the object a run returns
    reads back as the functional result, with and without the
    all-inactive flag and the inactive set, and a run that raises raises
    the exception of the functional model. *)
Lemma store_agrees_example :
  Store.decode_run (Store.compute_score (Store.VRef 5) (Store.VRef 6) false
                                        Store.doc_heap)
  = Some (compute_score Store.doc_model (Some {["t1"]}) false) ∧
  Store.decode_run (Store.compute_score (Store.VRef 5) Store.VNone false
                                        Store.doc_heap)
  = Some (compute_score Store.doc_model None false) ∧
  Store.decode_run (Store.compute_score (Store.VRef 5) Store.VNone true
                                        Store.doc_heap)
  = Some (compute_score Store.doc_model None true) ∧
  Store.decode_run (Store.compute_score (Store.VRef 4) Store.VNone false
                                        Store.unknown_heap)
  = Some (compute_score Store.unknown_model None false).
Proof. repeat split; vm_compute; reflexivity. Qed.

(** The tag list of a returned metric is the list object of the
    document, not a copy: the first metric of the result refers to
    location 1, the tag list of the document's first record. *)
Lemma tags_shared_example :
  let run :=
    Store.compute_score (Store.VRef 5) (Store.VRef 6) false Store.doc_heap in
  ∃ v metrics m rest, run.1 = Ok v ∧
    Store.read_field run.2 v "metrics" = Some metrics ∧
    Store.read_list run.2 metrics = Some (m :: rest) ∧
    Store.read_field run.2 m "tags" = Some (Store.VRef 1) ∧
    Store.read_field Store.doc_heap (Store.VRef 2) "tags"
      = Some (Store.VRef 1).
Proof.
  intros run. eexists _, _, _, _.
  split; [vm_compute; reflexivity|].
  split; [vm_compute; reflexivity|].
  split; [vm_compute; reflexivity|].
  split; vm_compute; reflexivity.
Qed.

(** ** The store model refines the functional model

    On a store that holds a document, a run of [Store.compute_score]
    returns an object that reads back as the result of the functional
    [compute_score], or raises the exception the functional model
    raises. *)

Section run.
Import Store.

Lemma run_bind {A B : Type} (c : prog A) (f : A → prog B) h a h' :
  c h = (Ok a, h') → (c ≫= f) h = f a h'.
Proof. intros Hc. unfold mbind, prog_bind. by rewrite Hc. Qed.

Lemma run_bind_raise {A B : Type} (c : prog A) (f : A → prog B) h e h' :
  c h = (Raise e, h') → (c ≫= f) h = (Raise e, h').
Proof. intros Hc. unfold mbind, prog_bind. by rewrite Hc. Qed.

Lemma run_read l o (h : gmap positive obj) :
  h !! l = Some o → read (VRef l) h = (Ok o, h).
Proof. intros Hl. unfold read. by rewrite Hl. Qed.

Lemma run_write l o o' (h : gmap positive obj) :
  h !! l = Some o → write (VRef l) o' h = (Ok (), <[l := o']> h).
Proof. intros Hl. unfold write. by rewrite Hl. Qed.

Lemma run_dict_getitem l d key (h : gmap positive obj) :
  h !! l = Some (ODict d) →
  dict_getitem (VRef l) key h = (getitem key (d !! key), h).
Proof.
  intros Hl. unfold dict_getitem.
  rewrite (run_bind _ _ _ _ _ (run_read _ _ _ Hl)).
  by destruct (d !! key).
Qed.

Lemma run_dict_get l d key dflt (h : gmap positive obj) :
  h !! l = Some (ODict d) →
  dict_get (VRef l) key dflt h = (Ok (default dflt (d !! key)), h).
Proof.
  intros Hl. unfold dict_get.
  by rewrite (run_bind _ _ _ _ _ (run_read _ _ _ Hl)).
Qed.

Lemma run_dict_setitem l d key v (h : gmap positive obj) :
  h !! l = Some (ODict d) →
  dict_setitem (VRef l) key v h
  = (Ok (), <[l := ODict (<[key := v]> d)]> h).
Proof.
  intros Hl. unfold dict_setitem.
  rewrite (run_bind _ _ _ _ _ (run_read _ _ _ Hl)).
  by apply run_write with (o := ODict d).
Qed.

Lemma run_list_append l vs v (h : gmap positive obj) :
  h !! l = Some (OList vs) →
  list_append (VRef l) v h = (Ok (), <[l := OList (vs ++ [v])]> h).
Proof.
  intros Hl. unfold list_append.
  rewrite (run_bind _ _ _ _ _ (run_read _ _ _ Hl)).
  by apply run_write with (o := OList vs).
Qed.

Lemma run_list_items l vs (h : gmap positive obj) :
  h !! l = Some (OList vs) → list_items (VRef l) h = (Ok vs, h).
Proof.
  intros Hl. unfold list_items.
  by rewrite (run_bind _ _ _ _ _ (run_read _ _ _ Hl)).
Qed.

Lemma run_set_add l s x (h : gmap positive obj) :
  h !! l = Some (OSet s) →
  set_add (VRef l) x h = (Ok (), <[l := OSet (s ∪ {[ x ]})]> h).
Proof.
  intros Hl. unfold set_add.
  rewrite (run_bind _ _ _ _ _ (run_read _ _ _ Hl)).
  by apply run_write with (o := OSet s).
Qed.

Lemma run_set_contains l s n (h : gmap positive obj) :
  h !! l = Some (OSet s) →
  set_contains (VRef l) (VStr n) h = (Ok (bool_decide (n ∈ s)), h).
Proof.
  intros Hl. unfold set_contains.
  by rewrite (run_bind _ _ _ _ _ (run_read _ _ _ Hl)).
Qed.

Lemma run_getattr l cls fields field v (h : gmap positive obj) :
  h !! l = Some (OInstance cls fields) → fields !! field = Some v →
  getattr (VRef l) field h = (Ok v, h).
Proof.
  intros Hl Hf. unfold getattr.
  rewrite (run_bind _ _ _ _ _ (run_read _ _ _ Hl)). by rewrite Hf.
Qed.

(** A loop of the store model simulates a loop of the functional model:
    [R] relates the local variables and the store to the functional
    state, [RA] the elements. *)
Lemma for_fold_sim {A B S T : Type} (body : S → A → prog S)
    (pbody : T → B → result T) (R : S → T → gmap positive obj → Prop)
    (RA : A → B → Prop) :
  (∀ s t x y h, RA x y → R s t h →
     match pbody t y with
     | Ok t' => ∃ s' h', body s x h = (Ok s', h') ∧ R s' t' h'
     | Raise e => ∃ h', body s x h = (Raise e, h')
     end) →
  ∀ xs ys, Forall2 RA xs ys → ∀ s t h, R s t h →
     match foldM pbody t ys with
     | Ok t' => ∃ s' h', for_fold body s xs h = (Ok s', h') ∧ R s' t' h'
     | Raise e => ∃ h', for_fold body s xs h = (Raise e, h')
     end.
Proof.
  intros Hbody xs ys Hxs.
  induction Hxs as [|x y xs ys Hxy _ IH]; intros s t h HR; cbn [foldM for_fold].
  - exists s, h. done.
  - specialize (Hbody s t x y h Hxy HR).
    destruct (pbody t y) as [t1|e]; rewrite ?bind_Ok_l, ?bind_Raise_l.
    + destruct Hbody as (s1 & h1 & Hrun & HR1).
      rewrite (run_bind _ _ _ _ _ Hrun). by apply IH.
    + destruct Hbody as (h1 & Hrun).
      rewrite (run_bind_raise _ _ _ _ _ Hrun). by exists h1.
Qed.

Lemma foldM_pure {A S : Type} (f : S → A → S) (s : S) (l : list A) :
  foldM (λ s x, Ok (f s x)) s l = Ok (foldl f s l).
Proof. revert s. induction l as [|x l IH]; intros s; simpl; auto. Qed.

End run.

Section mono.
Import Store.
Implicit Types g h : gmap positive obj.

Lemma run_alloc o h :
  ∃ l, h !! l = None ∧ alloc o h = (Ok (VRef l), <[l := o]> h).
Proof.
  exists (fresh (dom h)). split; [|reflexivity].
  apply not_elem_of_dom, is_fresh.
Qed.

Lemma read_list_mono g h v vs :
  read_list g v = Some vs → g ⊆ h → read_list h v = Some vs.
Proof.
  unfold read_list. destruct v as [| | | | | |l]; try discriminate.
  destruct (g !! l) as [o|] eqn:Hl; [|discriminate].
  intros Hv Hgh. by rewrite (lookup_weaken _ _ _ _ Hl Hgh).
Qed.

Lemma read_dict_mono g h v d :
  read_dict g v = Some d → g ⊆ h → read_dict h v = Some d.
Proof.
  unfold read_dict. destruct v as [| | | | | |l]; try discriminate.
  destruct (g !! l) as [o|] eqn:Hl; [|discriminate].
  intros Hv Hgh. by rewrite (lookup_weaken _ _ _ _ Hl Hgh).
Qed.

Lemma read_list_ref h v vs :
  read_list h v = Some vs → ∃ l, v = VRef l ∧ h !! l = Some (OList vs).
Proof.
  unfold read_list. destruct v as [| | | | | |l]; try discriminate.
  destruct (h !! l) as [[d|vs'|s|cls fs]|] eqn:Hl; try discriminate.
  intros [= ->]. by exists l.
Qed.

Lemma read_dict_ref h v d :
  read_dict h v = Some d → ∃ l, v = VRef l ∧ h !! l = Some (ODict d).
Proof.
  unfold read_dict. destruct v as [| | | | | |l]; try discriminate.
  destruct (h !! l) as [[d'|vs|s|cls fs]|] eqn:Hl; try discriminate.
  intros [= ->]. by exists l.
Qed.

Lemma str_list_at_mono g h v l :
  str_list_at g v l → g ⊆ h → str_list_at h v l.
Proof. apply read_list_mono. Qed.

Lemma raw_metric_at_mono g h v m :
  raw_metric_at g v m → g ⊆ h → raw_metric_at h v m.
Proof.
  intros (d & Hd & Hn & Hdim & Hsv & Htags) Hgh.
  exists d. split; [by eapply read_dict_mono|]. repeat split; try done.
  destruct (raw_tags m) as [ts|]; [|done].
  destruct Htags as (tv & Htv & Hts). exists tv.
  split; [done | by eapply str_list_at_mono].
Qed.

Lemma metric_at_mono g h v m : metric_at g v m → g ⊆ h → metric_at h v m.
Proof.
  intros (l & tv & -> & Hl & Htags) Hgh. exists l, tv.
  split; [done|]. split; [by eapply lookup_weaken|].
  by eapply str_list_at_mono.
Qed.

Lemma read_field_mono g h v field x :
  read_field g v field = Some x → g ⊆ h → read_field h v field = Some x.
Proof.
  unfold read_field. destruct v as [| | | | | |l]; try done.
  destruct (g !! l) as [o|] eqn:E; [|done]. intros H Hgh.
  by rewrite (lookup_weaken _ _ _ _ E Hgh).
Qed.

Lemma metric_of_mono g h v xm : metric_of g v xm → g ⊆ h → metric_of h v xm.
Proof.
  intros [Hat (d & Hd & Htags)] Hgh. split; [by eapply metric_at_mono|].
  exists d. split; [by eapply read_dict_mono|].
  intros tv Htv. eapply read_field_mono; [by apply Htags | done].
Qed.

Lemma dimension_at_mono g h v ds :
  dimension_at g v ds → g ⊆ h → dimension_at h v ds.
Proof.
  intros (l & -> & Hl) Hgh. exists l. split; [done|].
  by eapply lookup_weaken.
Qed.

Lemma compliance_at_mono g h v c :
  compliance_at g v c → g ⊆ h → compliance_at h v c.
Proof.
  intros (l & -> & Hl) Hgh. exists l. split; [done|].
  by eapply lookup_weaken.
Qed.

Lemma Forall2_mono {A : Type} (at_ : gmap positive obj → val → A → Prop)
    g h vs xs :
  (∀ v x, at_ g v x → at_ h v x) →
  Forall2 (at_ g) vs xs → Forall2 (at_ h) vs xs.
Proof. intros Hmono H. eapply Forall2_impl; [exact H | exact Hmono]. Qed.

(** Extending the frozen part by a new object. *)
Lemma frozen_alloc g h l o :
  g ⊆ h → h !! l = None →
  g ⊆ <[l := o]> g ∧ <[l := o]> g ⊆ <[l := o]> h ∧ g !! l = None.
Proof.
  intros Hgh Hl.
  assert (g !! l = None) as Hg.
  { destruct (g !! l) as [o'|] eqn:Hg; [|done].
    by rewrite (lookup_weaken _ _ _ _ Hg Hgh) in Hl. }
  split; [by apply insert_subseteq|]. split; [by apply insert_mono | done].
Qed.

(** Updating the object under construction. *)
Lemma frozen_write g h l o : g ⊆ h → g !! l = None → g ⊆ <[l := o]> h.
Proof. intros Hgh Hl. by apply insert_subseteq_r. Qed.

End mono.

Ltac run_step H :=
  first [ rewrite (run_bind _ _ _ _ _ H)
        | rewrite (run_bind_raise _ _ _ _ _ H) ].

Section build_phase.
Implicit Types g h : gmap positive Store.obj.

Lemma metric_at_new g l l' raw n d sv b :
  raw_name raw = Some n → raw_dimension raw = Some d →
  raw_severity raw = Some sv →
  g !! l = Some (Store.OInstance "MetricResult"
                   (list_to_map
                      [ ("name", Store.VStr n); ("dimension", Store.VStr d);
                        ("severity", Store.VInt sv);
                        ("tags", l'); ("active", Store.VBool b) ])) →
  Store.str_list_at g l' (get (raw_tags raw) []) →
  Store.metric_at g (Store.VRef l)
    (MetricResult.mk n d sv (get (raw_tags raw) []) b).
Proof. intros _ _ _ Hl Htags. exists l, l'. done. Qed.

Lemma getitem_fmap_Some {A B : Type} (f : A → B) key x :
  getitem key (f <$> Some x) = Ok (f x).
Proof. reflexivity. Qed.

Lemma getitem_fmap_None {A B : Type} (f : A → B) key :
  getitem key (f <$> None) = Raise (KeyError key).
Proof. reflexivity. Qed.

Lemma build_metric_cases s a raw :
  build_metric s a raw =
  match raw_name raw with
  | None => Raise (KeyError "name")
  | Some n =>
      match raw_dimension raw with
      | None => Raise (KeyError "dimension")
      | Some d =>
          match raw_severity raw with
          | None => Raise (KeyError "severity")
          | Some sv =>
              Ok (MetricResult.mk n d sv (get (raw_tags raw) [])
                    (negb (a || bool_decide (n ∈ s))))
          end
      end
  end.
Proof. by destruct raw as [[n|] [d|] [sv|] tg]. Qed.

(** One iteration of the loop that builds the metric results. *)
Lemma build_metric_sim gb ls (s : gset string) a lm raw x
    (ms : list (Store.val * MetricResult.t)) h :
  gb !! ls = Some (Store.OSet s) →
  Store.raw_metric_at gb x raw →
  Store.filling_list Store.metric_of gb lm ms h →
  match build_metric s a raw with
  | Ok r =>
      ∃ h', Store.build_metric (Store.VRef ls) a (Store.VRef lm) x h
            = (Ok (), h') ∧
            Store.filling_list Store.metric_of gb lm (ms ++ [(x, r)]) h'
  | Raise e =>
      ∃ h', Store.build_metric (Store.VRef ls) a (Store.VRef lm) x h
            = (Raise e, h')
  end.
Proof.
  intros Hls (dd & Hdd & Hn & Hdim & Hsv & Htags)
         (g & vs & Hbg & Hgh & Hlm & Hvs & Hms).
  apply read_dict_ref in Hdd as (lx & -> & Hlx).
  assert (gb ⊆ h) as Hbh by (by etrans).
  pose proof (lookup_weaken _ _ _ _ Hlx Hbh) as Hlx'.
  pose proof (lookup_weaken _ _ _ _ Hls Hbh) as Hls'.
  rewrite build_metric_cases. unfold Store.build_metric.
  (* name *)
  pose proof (run_dict_getitem _ _ "name" _ Hlx') as E. rewrite Hn in E.
  destruct (raw_name raw) as [n|];
    rewrite ?getitem_fmap_Some, ?getitem_fmap_None in E; run_step E; clear E;
    lazy beta iota; [|by eexists].
  assert ((if a then mret (M:=Store.prog) true
           else Store.set_contains (Store.VRef ls) (Store.VStr n)) h
          = (Ok (a || bool_decide (n ∈ s)), h)) as E.
  { destruct a; [reflexivity|]. by rewrite (run_set_contains _ _ _ _ Hls'). }
  run_step E. clear E.
  (* dimension, severity *)
  pose proof (run_dict_getitem _ _ "dimension" _ Hlx') as E.
  rewrite Hdim in E.
  destruct (raw_dimension raw) as [d|];
    rewrite ?getitem_fmap_Some, ?getitem_fmap_None in E; run_step E; clear E;
    lazy beta iota; [|by eexists].
  pose proof (run_dict_getitem _ _ "severity" _ Hlx') as E. rewrite Hsv in E.
  destruct (raw_severity raw) as [sv|];
    rewrite ?getitem_fmap_Some, ?getitem_fmap_None in E; run_step E; clear E;
    lazy beta iota; [|by eexists].
  (* the default tag list *)
  destruct (run_alloc (Store.OList []) h) as (l1 & Hl1 & E). run_step E.
  clear E. destruct (frozen_alloc g h l1 (Store.OList []) Hgh Hl1)
    as (Hg1 & Hg1h & Hg1l).
  set (h1 := <[l1 := Store.OList []]> h) in *.
  set (g1 := <[l1 := Store.OList []]> g) in *.
  assert (h1 !! lx = Some (Store.ODict dd)) as Hlx1.
  { subst h1. rewrite lookup_insert_ne; [done | congruence]. }
  assert (h1 !! lm = Some (Store.OList vs)) as Hlm1.
  { subst h1. rewrite lookup_insert_ne; [done | congruence]. }
  assert (g1 !! lm = None) as Hlmg1.
  { subst g1. rewrite lookup_insert_ne; [done | congruence]. }
  rewrite (run_bind _ _ _ _ _ (run_dict_get _ _ "tags" _ _ Hlx1)).
  set (tv := default (Store.VRef l1) (dd !! "tags")).
  assert (Store.str_list_at g1 tv (get (raw_tags raw) [])) as Htv.
  { subst tv. destruct (raw_tags raw) as [ts|]; simpl.
    - destruct Htags as (tv & -> & Hts). simpl.
      eapply str_list_at_mono; [exact Hts | by transitivity g].
    - rewrite Htags. simpl. unfold Store.str_list_at, Store.read_list.
      subst g1. by rewrite lookup_insert_eq. }
  (* the new object *)
  unfold Store.new_instance.
  match goal with
  | |- context [Store.alloc ?o] =>
      destruct (run_alloc o h1) as (l2 & Hl2 & E); set (inst := o) in *
  end.
  run_step E. clear E.
  destruct (frozen_alloc g1 h1 l2 inst Hg1h Hl2) as (Hg2 & Hg2h & Hg2l).
  set (h2 := <[l2 := inst]> h1) in *.
  set (g2 := <[l2 := inst]> g1) in *.
  assert (h2 !! lm = Some (Store.OList vs)) as Hlm2.
  { subst h2. rewrite lookup_insert_ne; [done | congruence]. }
  assert (g2 !! lm = None) as Hlmg2.
  { subst g2. rewrite lookup_insert_ne; [done | congruence]. }
  rewrite (run_list_append _ _ _ _ Hlm2).
  eexists. split; [reflexivity|].
  exists g2, (vs ++ [Store.VRef l2]).
  split; [transitivity g; [done|]; by transitivity g1|].
  split; [by apply frozen_write|]. split; [done|].
  split; [apply lookup_insert_eq|].
  assert (gb ⊆ g2) as Hbg2.
  { transitivity g; [done|]. by transitivity g1. }
  apply Forall2_app.
  - eapply Forall2_mono; [|exact Hms]. intros v m Hv.
    eapply metric_of_mono; [exact Hv | by transitivity g1].
  - constructor; [|constructor]. split.
    + exists l2, tv. split; [done|]. split; [|by eapply str_list_at_mono].
      subst g2. by rewrite lookup_insert_eq.
    + exists dd. cbn [fst snd]. split.
      { unfold Store.read_dict. by rewrite (lookup_weaken _ _ _ _ Hlx Hbg2). }
      intros tv0 Htv0. unfold Store.read_field. subst g2.
      rewrite lookup_insert_eq. subst inst tv. rewrite Htv0. reflexivity.
Qed.

(** The pairs of a record and its result, in the order of the loop. *)
Lemma build_pairs s a (xs : list Store.val) raws :
  length xs = length raws →
  ∀ acc : list (Store.val * MetricResult.t),
  foldM (λ pairs (y : Store.val * RawMetric),
           r ← build_metric s a y.2; mret (pairs ++ [(y.1, r)]))
        acc (zip xs raws)
  = (λ ms, acc ++ zip xs ms) <$> build_metrics s a raws.
Proof.
  revert raws. induction xs as [|x xs IH]; intros [|raw raws] Hlen acc;
    try discriminate Hlen.
  { cbn. by rewrite app_nil_r. }
  cbn [zip zip_with foldM fst snd]. rewrite build_metrics_cons.
  destruct (build_metric s a raw) as [m|e]; [|done].
  rewrite !bind_Ok_l. cbn [mret result_ret]. rewrite ?bind_Ok_l.
  rewrite IH by (by injection Hlen).
  destruct (build_metrics s a raws) as [ms|e]; [|done].
  cbn. by rewrite <- (assoc app).
Qed.

Lemma Forall2_zip_fst {A B C : Type} (R : A → C → Prop) (xs : list A)
    (ms : list B) (vs : list C) :
  length xs = length ms →
  Forall2 (λ v (xm : A * B), R xm.1 v) vs (zip xs ms) → Forall2 R xs vs.
Proof.
  revert ms vs. induction xs as [|x xs IH]; intros [|m ms] vs Hlen H;
    try discriminate Hlen; inversion H; subst; constructor; [done|].
  eapply IH; [|done]. by injection Hlen.
Qed.

Lemma metric_of_at g vs (xs : list Store.val) ms :
  length xs = length ms →
  Forall2 (Store.metric_of g) vs (zip xs ms) →
  Forall2 (Store.metric_at g) vs ms.
Proof.
  intros Hlen H.
  assert (ms = (zip xs ms).*2) as -> by (by rewrite snd_zip by lia).
  apply Forall2_fmap_r. eapply Forall2_impl; [exact H|]. by intros v xm [? _].
Qed.

(** The loop that builds the metric results. *)
Lemma build_loop_sim gb ls (s : gset string) a lm raws xs h :
  gb !! ls = Some (Store.OSet s) →
  Forall2 (Store.raw_metric_at gb) xs raws →
  Store.filling_list Store.metric_of gb lm [] h →
  match build_metrics s a raws with
  | Ok ms =>
      ∃ h', Store.for_each xs
              (Store.build_metric (Store.VRef ls) a (Store.VRef lm)) h
            = (Ok (), h') ∧
            Store.filling_list Store.metric_of gb lm (zip xs ms) h'
  | Raise e =>
      ∃ h', Store.for_each xs
              (Store.build_metric (Store.VRef ls) a (Store.VRef lm)) h
            = (Raise e, h')
  end.
Proof.
  intros Hls Hxs Hinit. unfold Store.for_each.
  pose proof (for_fold_sim
    (λ _ x, Store.build_metric (Store.VRef ls) a (Store.VRef lm) x)
    (λ pairs (y : Store.val * RawMetric),
       r ← build_metric s a y.2; mret (pairs ++ [(y.1, r)]))
    (λ _ ms h, Store.filling_list Store.metric_of gb lm ms h)
    (λ x (y : Store.val * RawMetric),
       x = y.1 ∧ Store.raw_metric_at gb x y.2)) as Hsim.
  specialize (Hsim) with (xs := xs) (ys := zip xs raws) (s := ()) (t := [])
                         (h := h).
  rewrite (build_pairs s a xs raws (Forall2_length _ _ _ Hxs) []) in Hsim.
  assert (Forall2 (λ x (y : Store.val * RawMetric),
                     x = y.1 ∧ Store.raw_metric_at gb x y.2)
                  xs (zip xs raws)) as Hzip.
  { clear -Hxs. induction Hxs as [|x raw xs raws Hx _ IH];
      [constructor|]. by constructor. }
  assert (∀ (u : ()) (t : list (Store.val * MetricResult.t)) (x : Store.val)
            (y : Store.val * RawMetric) h1,
            x = y.1 ∧ Store.raw_metric_at gb x y.2 →
            Store.filling_list Store.metric_of gb lm t h1 →
            match (r ← build_metric s a y.2; mret (t ++ [(y.1, r)])) with
            | Ok t' =>
                ∃ (u' : ()) h',
                  Store.build_metric (Store.VRef ls) a (Store.VRef lm) x h1
                  = (Ok u', h') ∧
                  Store.filling_list Store.metric_of gb lm t' h'
            | Raise e =>
                ∃ h',
                  Store.build_metric (Store.VRef ls) a (Store.VRef lm) x h1
                  = (Raise e, h')
            end) as Hstep.
  { intros [] t x [x' raw] h1 [-> Hxy] HR. cbn [fst snd] in *.
    pose proof (build_metric_sim gb ls s a lm raw x' t h1 Hls Hxy HR) as Hstep.
    destruct (build_metric s a raw) as [r|e]; rewrite ?bind_Ok_l, ?bind_Raise_l.
    - destruct Hstep as (h2 & Hrun & HR2). by exists (), h2.
    - exact Hstep. }
  specialize (Hsim Hstep Hzip Hinit).
  destruct (build_metrics s a raws) as [ms|e]; cbn in Hsim.
  - destruct Hsim as ([] & h' & Hrun & HR). by exists h'.
  - exact Hsim.
Qed.

End build_phase.

Section accum_phase.
Implicit Types g h : gmap positive Store.obj.

(** Reading the fields of a [MetricResult] object. *)
Lemma run_metric_dimension h x m :
  Store.metric_at h x m →
  (Store.getattr x "dimension" ≫= Store.as_str) h
  = (Ok (MetricResult.dimension m), h).
Proof.
  intros (l & tv & -> & Hl & _).
  by rewrite (run_bind _ _ _ _ _
                (run_getattr _ _ _ "dimension" _ _ Hl eq_refl)).
Qed.

Lemma run_metric_severity h x m :
  Store.metric_at h x m →
  (Store.getattr x "severity" ≫= Store.as_int) h
  = (Ok (MetricResult.severity m), h).
Proof.
  intros (l & tv & -> & Hl & _).
  by rewrite (run_bind _ _ _ _ _
                (run_getattr _ _ _ "severity" _ _ Hl eq_refl)).
Qed.

Lemma run_metric_active h x m :
  Store.metric_at h x m →
  (Store.getattr x "active" ≫= Store.as_bool) h
  = (Ok (MetricResult.active m), h).
Proof.
  intros (l & tv & -> & Hl & _).
  by rewrite (run_bind _ _ _ _ _
                (run_getattr _ _ _ "active" _ _ Hl eq_refl)).
Qed.

Lemma run_metric_tags h x m :
  Store.metric_at h x m →
  (Store.getattr x "tags" ≫= Store.list_items) h
  = (Ok (Store.VStr <$> MetricResult.tags m), h).
Proof.
  intros (l & tv & -> & Hl & Htags).
  rewrite (run_bind _ _ _ _ _ (run_getattr _ _ _ "tags" _ _ Hl eq_refl)).
  apply read_list_ref in Htags as (lt & -> & Hlt).
  by apply run_list_items.
Qed.

Lemma encode_accum_lookup acc d :
  Store.encode_accum acc !! d
  = (λ cm : Z * Z, Store.VPair (Store.VInt cm.1) (Store.VInt cm.2))
      <$> acc !! d.
Proof. apply lookup_fmap. Qed.

(** One iteration of the accumulation loop. *)
Lemma accum_step_sim g ld x m acc h :
  g ⊆ h → g !! ld = None →
  h !! ld = Some (Store.ODict (Store.encode_accum acc)) →
  Store.metric_at g x m →
  match accum_step acc m with
  | Ok acc' =>
      ∃ h', Store.accum_step (Store.VRef ld) x h = (Ok (), h') ∧
            g ⊆ h' ∧
            h' !! ld = Some (Store.ODict (Store.encode_accum acc'))
  | Raise e => ∃ h', Store.accum_step (Store.VRef ld) x h = (Raise e, h')
  end.
Proof.
  intros Hgh Hld Hacc Hx.
  pose proof (metric_at_mono _ _ _ _ Hx Hgh) as Hx'.
  unfold accum_step, lookup_item, Store.accum_step.
  rewrite (run_bind _ _ _ _ _ (run_metric_dimension _ _ _ Hx')).
  pose proof (run_dict_getitem _ _ (MetricResult.dimension m) _ Hacc) as E.
  rewrite encode_accum_lookup in E.
  destruct (acc !! MetricResult.dimension m) as [[c mx]|];
    rewrite ?getitem_fmap_Some, ?getitem_fmap_None in E.
  - rewrite (run_bind _ _ _ _ _ (run_bind _ _ _ _ _ E)). clear E.
    rewrite (run_bind _ _ _ _ _ (run_metric_severity _ _ _ Hx')).
    rewrite (run_bind _ _ _ _ _ (run_metric_active _ _ _ Hx')).
    assert ((if negb (MetricResult.active m)
             then (Store.getattr x "severity" ≫= Store.as_int)
                  ≫= λ severity, mret (M:=Store.prog) (c + severity)
             else mret (M:=Store.prog) c) h
            = (Ok (if negb (MetricResult.active m)
                   then c + MetricResult.severity m else c), h)) as E.
    { destruct (negb (MetricResult.active m)); [|reflexivity].
      by rewrite (run_bind _ _ _ _ _ (run_metric_severity _ _ _ Hx')). }
    simpl. run_step E. clear E.
    rewrite (run_bind _ _ _ _ _ (run_metric_dimension _ _ _ Hx')).
    rewrite (run_dict_setitem _ _ _ _ _ Hacc).
    eexists. split; [reflexivity|]. split; [by apply frozen_write|].
    rewrite lookup_insert_eq. unfold Store.encode_accum.
    by rewrite fmap_insert.
  - rewrite (run_bind_raise _ _ _ _ _ (run_bind_raise _ _ _ _ _ E)).
    simpl. by eexists.
Qed.

Lemma accum_loop_sim g ld xs ms acc h :
  g ⊆ h → g !! ld = None →
  h !! ld = Some (Store.ODict (Store.encode_accum acc)) →
  Forall2 (Store.metric_at g) xs ms →
  match foldM accum_step acc ms with
  | Ok acc' =>
      ∃ h', Store.for_each xs (Store.accum_step (Store.VRef ld)) h
            = (Ok (), h') ∧
            g ⊆ h' ∧
            h' !! ld = Some (Store.ODict (Store.encode_accum acc'))
  | Raise e =>
      ∃ h', Store.for_each xs (Store.accum_step (Store.VRef ld)) h
            = (Raise e, h')
  end.
Proof.
  intros Hgh Hld Hacc Hxs. unfold Store.for_each.
  pose proof (for_fold_sim
    (λ _ x, Store.accum_step (Store.VRef ld) x) accum_step
    (λ _ acc h, g ⊆ h ∧
                h !! ld = Some (Store.ODict (Store.encode_accum acc)))
    (Store.metric_at g)) as Hsim.
  specialize (Hsim) with (xs := xs) (ys := ms) (s := ()) (t := acc) (h := h).
  assert (∀ (s : ()) t x y h1, Store.metric_at g x y →
            g ⊆ h1 ∧ h1 !! ld = Some (Store.ODict (Store.encode_accum t)) →
            match accum_step t y with
            | Ok t' =>
                ∃ (s' : ()) h', Store.accum_step (Store.VRef ld) x h1
                                = (Ok s', h') ∧
                  g ⊆ h' ∧
                  h' !! ld = Some (Store.ODict (Store.encode_accum t'))
            | Raise e =>
                ∃ h', Store.accum_step (Store.VRef ld) x h1 = (Raise e, h')
            end) as Hbody.
  { intros [] t x y h1 Hxy [Hg1 Hl1].
    pose proof (accum_step_sim g ld x y t h1 Hg1 Hld Hl1 Hxy) as Hstep.
    destruct (accum_step t y) as [t'|e]; [|exact Hstep].
    destruct Hstep as (h2 & Hrun & H2). by exists (), h2. }
  specialize (Hsim Hbody Hxs (conj Hgh Hacc)).
  destruct (foldM accum_step acc ms) as [acc'|e]; [|exact Hsim].
  destruct Hsim as ([] & h' & Hrun & H'). by exists h'.
Qed.

End accum_phase.

Section dict_phase.
Implicit Types g h : gmap positive Store.obj.

(** Creating an object and storing it in the dictionary under
    construction. *)
Lemma filling_dict_step {A : Type}
    (at_ : gmap positive Store.obj → Store.val → A → Prop) gb lc
    (m : gmap string A) h o k x :
  (∀ g h v y, at_ g v y → g ⊆ h → at_ h v y) →
  (∀ g l, g !! l = Some o → at_ g (Store.VRef l) x) →
  Store.filling_dict at_ gb lc m h →
  ∃ l h1 h2,
    Store.alloc o h = (Ok (Store.VRef l), h1) ∧
    Store.dict_setitem (Store.VRef lc) k (Store.VRef l) h1 = (Ok (), h2) ∧
    Store.filling_dict at_ gb lc (<[k := x]> m) h2.
Proof.
  intros Hmono Hnew (g & dd & Hbg & Hgh & Hlc & Hdd & Hdict).
  destruct (run_alloc o h) as (l & Hl & E).
  destruct (frozen_alloc g h l o Hgh Hl) as (Hg1 & Hg1h & Hg1l).
  set (h1 := <[l := o]> h) in *. set (g1 := <[l := o]> g) in *.
  assert (h1 !! lc = Some (Store.ODict dd)) as Hlc1.
  { subst h1. rewrite lookup_insert_ne; [done | congruence]. }
  assert (g1 !! lc = None) as Hlcg1.
  { subst g1. rewrite lookup_insert_ne; [done | congruence]. }
  exists l, h1, (<[lc := Store.ODict (<[k := Store.VRef l]> dd)]> h1).
  split; [exact E|]. split; [by apply run_dict_setitem|].
  exists g1, (<[k := Store.VRef l]> dd).
  split; [by transitivity g|]. split; [by apply frozen_write|].
  split; [done|]. split; [apply lookup_insert_eq|].
  intros k'. destruct (decide (k = k')) as [<-|Hne].
  - rewrite !lookup_insert_eq. exists (Store.VRef l). split; [done|].
    apply Hnew. subst g1. apply lookup_insert_eq.
  - rewrite !lookup_insert_ne by done. specialize (Hdict k').
    destruct (m !! k') as [y|]; [|done].
    destruct Hdict as (v & Hv & Hat). exists v. split; [done|].
    by eapply Hmono.
Qed.

(** One iteration of the loop over the five dimensions. *)
Lemma score_step_sim gb ld ldims acc d dims oc om h :
  gb !! ld = Some (Store.ODict (Store.encode_accum acc)) →
  Store.filling_dict Store.dimension_at gb ldims dims h →
  match score_step acc (dims, oc, om) d with
  | Ok t' =>
      ∃ h', Store.score_step (Store.VRef ld) (Store.VRef ldims) (oc, om) d h
            = (Ok (t'.1.2, t'.2), h') ∧
            Store.filling_dict Store.dimension_at gb ldims t'.1.1 h'
  | Raise e =>
      ∃ h', Store.score_step (Store.VRef ld) (Store.VRef ldims) (oc, om) d h
            = (Raise e, h')
  end.
Proof.
  intros Hld Hfill.
  assert (h !! ld = Some (Store.ODict (Store.encode_accum acc))) as Hld'.
  { destruct Hfill as (g & dd & Hbg & Hgh & _).
    eapply lookup_weaken; [exact Hld | by transitivity g]. }
  unfold score_step, lookup_item, Store.score_step.
  pose proof (run_dict_getitem _ _ d _ Hld') as E.
  rewrite encode_accum_lookup in E.
  destruct (acc !! d) as [[c mx]|];
    rewrite ?getitem_fmap_Some, ?getitem_fmap_None in E.
  - rewrite (run_bind _ _ _ _ _ (run_bind _ _ _ _ _ E)). clear E.
    simpl. unfold Store.new_instance.
    match goal with
    | |- context [Store.alloc ?o] =>
        destruct (filling_dict_step Store.dimension_at gb ldims dims h o d
                    (DimensionScore.mk d c mx (dimension_score c mx)))
          as (l & h1 & h2 & E1 & E2 & Hfill2)
    end.
    + apply dimension_at_mono.
    + intros g l Hl. by exists l.
    + exact Hfill.
    + run_step E1. run_step E2. by exists h2.
  - rewrite (run_bind_raise _ _ _ _ _ (run_bind_raise _ _ _ _ _ E)).
    simpl. by eexists.
Qed.

Lemma score_loop_sim gb ld ldims acc l dims oc om h :
  gb !! ld = Some (Store.ODict (Store.encode_accum acc)) →
  Store.filling_dict Store.dimension_at gb ldims dims h →
  match foldM (score_step acc) (dims, oc, om) l with
  | Ok t' =>
      ∃ h', Store.for_fold (Store.score_step (Store.VRef ld)
                              (Store.VRef ldims)) (oc, om) l h
            = (Ok (t'.1.2, t'.2), h') ∧
            Store.filling_dict Store.dimension_at gb ldims t'.1.1 h'
  | Raise e =>
      ∃ h', Store.for_fold (Store.score_step (Store.VRef ld)
                              (Store.VRef ldims)) (oc, om) l h
            = (Raise e, h')
  end.
Proof.
  intros Hld Hfill.
  pose proof (for_fold_sim
    (Store.score_step (Store.VRef ld) (Store.VRef ldims)) (score_step acc)
    (λ st t h, st = (t.1.2, t.2) ∧
               Store.filling_dict Store.dimension_at gb ldims t.1.1 h)
    eq) as Hsim.
  specialize (Hsim) with (xs := l) (ys := l) (s := (oc, om))
                         (t := (dims, oc, om)) (h := h).
  assert (Forall2 eq l l) as Hll by (by apply Forall_Forall2_diag, Forall_true).
  assert (∀ s t x y h1, x = y →
            s = (t.1.2, t.2) ∧
            Store.filling_dict Store.dimension_at gb ldims t.1.1 h1 →
            match score_step acc t y with
            | Ok t' =>
                ∃ s' h', Store.score_step (Store.VRef ld) (Store.VRef ldims)
                           s x h1 = (Ok s', h') ∧
                  s' = (t'.1.2, t'.2) ∧
                  Store.filling_dict Store.dimension_at gb ldims t'.1.1 h'
            | Raise e =>
                ∃ h', Store.score_step (Store.VRef ld) (Store.VRef ldims)
                        s x h1 = (Raise e, h')
            end) as Hbody.
  { intros s [[dims1 oc1] om1] x y h1 -> [-> Hf1]. simpl in Hf1.
    pose proof (score_step_sim gb ld ldims acc y dims1 oc1 om1 h1 Hld Hf1)
      as Hstep.
    destruct (score_step acc (dims1, oc1, om1) y) as [t'|e]; [|exact Hstep].
    destruct Hstep as (h2 & Hrun & H2). by exists (t'.1.2, t'.2), h2. }
  specialize (Hsim Hbody Hll (conj eq_refl Hfill)).
  destruct (foldM (score_step acc) (dims, oc, om) l) as [t'|e]; [|exact Hsim].
  destruct Hsim as (s' & h' & Hrun & -> & H'). by exists h'.
Qed.

End dict_phase.

Section read_phases.
Implicit Types g h : gmap positive Store.obj.

(** The inner loop that collects the prefixes of the tags of one
    metric. *)
Lemma collect_inner_sim g ltp (tags : list string) : ∀ (s : gset string) h,
  g ⊆ h → g !! ltp = None → h !! ltp = Some (Store.OSet s) →
  ∃ h', Store.for_each (Store.VStr <$> tags)
          (λ tag, tag ← Store.as_str tag;
                  Store.set_add (Store.VRef ltp) (tag_prefix tag)) h
        = (Ok (), h') ∧
        g ⊆ h' ∧
        h' !! ltp
        = Some (Store.OSet (foldl (λ tag_prefixes tag,
                                     tag_prefixes ∪ {[ tag_prefix tag ]})
                                  s tags)).
Proof.
  unfold Store.for_each.
  induction tags as [|t tags IH]; intros s h Hgh Hltp Hs; csimpl.
  - by exists h.
  - cbn [Store.for_fold].
    assert ((Store.as_str (Store.VStr t)
             ≫= λ tag, Store.set_add (Store.VRef ltp) (tag_prefix tag)) h
            = (Ok (), <[ltp := Store.OSet (s ∪ {[ tag_prefix t ]})]> h))
      as E by (by apply run_set_add).
    run_step E. apply IH.
    + by apply frozen_write.
    + done.
    + apply lookup_insert_eq.
Qed.

Lemma collect_outer_sim g ltp xs ms :
  Forall2 (Store.metric_at g) xs ms → ∀ (s : gset string) h,
  g ⊆ h → g !! ltp = None → h !! ltp = Some (Store.OSet s) →
  ∃ h', Store.for_each xs
          (λ m, tags ← Store.getattr m "tags" ≫= Store.list_items;
                Store.for_each tags
                  (λ tag, tag ← Store.as_str tag;
                          Store.set_add (Store.VRef ltp) (tag_prefix tag))) h
        = (Ok (), h') ∧
        g ⊆ h' ∧
        h' !! ltp
        = Some (Store.OSet
                  (foldl (λ tag_prefixes m,
                            foldl (λ tag_prefixes tag,
                                     tag_prefixes ∪ {[ tag_prefix tag ]})
                                  tag_prefixes (MetricResult.tags m))
                         s ms)).
Proof.
  unfold Store.for_each at 1.
  induction 1 as [|x m xs ms Hx _ IH]; intros s h Hgh Hltp Hs.
  - by exists h.
  - cbn [Store.for_fold foldl].
    pose proof (metric_at_mono _ _ _ _ Hx Hgh) as Hx'.
    destruct (collect_inner_sim g ltp (MetricResult.tags m) s h Hgh Hltp Hs)
      as (h1 & E & Hgh1 & Hs1).
    rewrite (run_bind _ _ _ _ _
               (eq_trans (run_bind _ _ _ _ _ (run_metric_tags _ _ _ Hx')) E)).
    by apply IH.
Qed.

Lemma collect_prefixes_sim g ltp lm xs ms h :
  g ⊆ h → g !! ltp = None → g !! lm = Some (Store.OList xs) →
  Forall2 (Store.metric_at g) xs ms →
  h !! ltp = Some (Store.OSet ∅) →
  ∃ h', Store.collect_prefixes (Store.VRef ltp) (Store.VRef lm) h
        = (Ok (), h') ∧
        g ⊆ h' ∧ h' !! ltp = Some (Store.OSet (collect_prefixes ms)).
Proof.
  intros Hgh Hltp Hlm Hxs Hs. unfold Store.collect_prefixes.
  rewrite (run_bind _ _ _ _ _
             (run_list_items _ _ _ (lookup_weaken _ _ _ _ Hlm Hgh))).
  by apply collect_outer_sim.
Qed.

(** The counting loops only read. *)
Lemma count_inner_sim h x m tag (tags : list string) : ∀ st,
  Store.metric_at h x m →
  Store.for_fold
    (λ '(total, compliant) metric_tag,
       metric_tag ← Store.as_str metric_tag;
       if String.prefix tag metric_tag then
         active ← Store.getattr x "active" ≫= Store.as_bool;
         mret (total + 1, if negb active then compliant + 1 else compliant)
       else mret (total, compliant))
    st (Store.VStr <$> tags) h
  = (Ok (foldl (λ '(total, compliant) metric_tag,
                  if String.prefix tag metric_tag then
                    (total + 1,
                     if negb (MetricResult.active m) then compliant + 1
                     else compliant)
                  else (total, compliant))
               st tags), h).
Proof.
  intros st Hx. revert st.
  induction tags as [|t tags IH]; intros [total compliant]; csimpl;
    [reflexivity|].
  cbn [Store.for_fold].
  assert ((Store.as_str (Store.VStr t)
           ≫= λ metric_tag,
                if String.prefix tag metric_tag then
                  (Store.getattr x "active" ≫= Store.as_bool)
                  ≫= λ active,
                       mret (M:=Store.prog)
                         (total + 1,
                          if negb active then compliant + 1 else compliant)
                else mret (M:=Store.prog) (total, compliant)) h
          = (Ok (if String.prefix tag t then
                   (total + 1,
                    if negb (MetricResult.active m) then compliant + 1
                    else compliant)
                 else (total, compliant)), h)) as E.
  { change ((Store.as_str (Store.VStr t) ≫= ?f) h) with (f t h).
    cbv beta. destruct (String.prefix tag t); [|reflexivity].
    by rewrite (run_bind _ _ _ _ _ (run_metric_active _ _ _ Hx)). }
  run_step E. apply IH.
Qed.

Lemma count_tag_sim g lm xs ms tag h :
  g ⊆ h → g !! lm = Some (Store.OList xs) →
  Forall2 (Store.metric_at g) xs ms →
  Store.count_tag tag (Store.VRef lm) h = (Ok (count_tag tag ms), h).
Proof.
  intros Hgh Hlm Hxs. unfold Store.count_tag, count_tag.
  rewrite (run_bind _ _ _ _ _
             (run_list_items _ _ _ (lookup_weaken _ _ _ _ Hlm Hgh))).
  clear Hlm. generalize (0, 0).
  induction Hxs as [|x m xs ms Hx _ IH]; intros st; [reflexivity|].
  cbn [Store.for_fold foldl].
  pose proof (metric_at_mono _ _ _ _ Hx Hgh) as Hx'.
  rewrite (run_bind _ _ _ _ _
             (eq_trans (run_bind _ _ _ _ _ (run_metric_tags _ _ _ Hx'))
                       (count_inner_sim h x m tag _ st Hx'))).
  apply IH.
Qed.

Lemma count_if_sim g lm xs ms (p : bool → bool) h :
  g ⊆ h → g !! lm = Some (Store.OList xs) →
  Forall2 (Store.metric_at g) xs ms →
  Store.count_if p (Store.VRef lm) h
  = (Ok (count_if (λ m, p (MetricResult.active m)) ms), h).
Proof.
  intros Hgh Hlm Hxs. unfold Store.count_if. rewrite count_if_length.
  rewrite (run_bind _ _ _ _ _
             (run_list_items _ _ _ (lookup_weaken _ _ _ _ Hlm Hgh))).
  clear Hlm. rewrite <- (Z.add_0_l (Z.of_nat _)). generalize 0.
  induction Hxs as [|x m xs ms Hx _ IH]; intros n; simpl length.
  - simpl. by rewrite Z.add_0_r.
  - cbn [Store.for_fold List.filter].
    pose proof (metric_at_mono _ _ _ _ Hx Hgh) as Hx'.
    rewrite (run_bind _ _ _ _ _
               (run_bind _ _ _ _ _ (run_metric_active _ _ _ Hx'))).
    rewrite IH. destruct (p (MetricResult.active m)); simpl length;
      do 2 f_equal; lia.
Qed.

Lemma list_len_sim g lm xs ms h :
  g ⊆ h → g !! lm = Some (Store.OList xs) →
  Forall2 (Store.metric_at g) xs ms →
  Store.list_len (Store.VRef lm) h = (Ok (Z.of_nat (length ms)), h).
Proof.
  intros Hgh Hlm Hxs. unfold Store.list_len.
  rewrite (run_bind _ _ _ _ _
             (run_list_items _ _ _ (lookup_weaken _ _ _ _ Hlm Hgh))).
  by rewrite (Forall2_length _ _ _ Hxs).
Qed.

End read_phases.

Section compliance_phase.
Implicit Types g h : gmap positive Store.obj.

(** One iteration of the loop over the sorted tag prefixes. *)
Lemma compliance_step_sim gb lm lcomp xs ms comp tag h :
  gb !! lm = Some (Store.OList xs) →
  Forall2 (Store.metric_at gb) xs ms →
  Store.filling_dict Store.compliance_at gb lcomp comp h →
  match compliance_step ms comp tag with
  | Ok comp' =>
      ∃ h', Store.compliance_step (Store.VRef lcomp) (Store.VRef lm)
              (Store.VStr tag) h = (Ok (), h') ∧
            Store.filling_dict Store.compliance_at gb lcomp comp' h'
  | Raise e =>
      ∃ h', Store.compliance_step (Store.VRef lcomp) (Store.VRef lm)
              (Store.VStr tag) h = (Raise e, h')
  end.
Proof.
  intros Hlm Hxs Hfill.
  assert (gb ⊆ h) as Hbh.
  { destruct Hfill as (g & dd & Hbg & Hgh & _). by transitivity g. }
  unfold compliance_step, Store.compliance_step.
  change ((Store.as_str (Store.VStr tag) ≫= ?f) h) with (f tag h).
  cbv beta.
  rewrite (run_bind _ _ _ _ _ (count_tag_sim gb lm xs ms tag h Hbh Hlm Hxs)).
  destruct (count_tag tag ms) as [total compliant].
  destruct (0 <? total); [|by exists h].
  destruct (percentage_of compliant total) as [pct|e] eqn:Hpct;
    rewrite ?bind_Ok_l, ?bind_Raise_l.
  - assert (Store.lift (Ok pct) h = (Ok pct, h)) as E by reflexivity.
    run_step E. clear E. cbn [mret result_ret]. unfold Store.new_instance.
    match goal with
    | |- context [Store.alloc ?o] =>
        destruct (filling_dict_step Store.compliance_at gb lcomp comp h o tag
                    (ComplianceResult.mk tag compliant total pct))
          as (l & h1 & h2 & E1 & E2 & Hfill2)
    end.
    + apply compliance_at_mono.
    + intros g l Hl. by exists l.
    + exact Hfill.
    + run_step E1. exists h2. by rewrite E2.
  - assert (Store.lift (A:=float) (Raise e) h = (Raise e, h)) as E
      by reflexivity.
    run_step E. by exists h.
Qed.

Lemma compliance_loop_sim gb lm lcomp xs ms (tags : list string) comp h :
  gb !! lm = Some (Store.OList xs) →
  Forall2 (Store.metric_at gb) xs ms →
  Store.filling_dict Store.compliance_at gb lcomp comp h →
  match foldM (compliance_step ms) comp tags with
  | Ok comp' =>
      ∃ h', Store.for_each (Store.VStr <$> tags)
              (Store.compliance_step (Store.VRef lcomp) (Store.VRef lm)) h
            = (Ok (), h') ∧
            Store.filling_dict Store.compliance_at gb lcomp comp' h'
  | Raise e =>
      ∃ h', Store.for_each (Store.VStr <$> tags)
              (Store.compliance_step (Store.VRef lcomp) (Store.VRef lm)) h
            = (Raise e, h')
  end.
Proof.
  intros Hlm Hxs. unfold Store.for_each. revert comp h.
  induction tags as [|t tags IH]; intros comp h Hfill; csimpl.
  - by exists h.
  - cbn [Store.for_fold foldM].
    pose proof (compliance_step_sim gb lm lcomp xs ms comp t h Hlm Hxs Hfill)
      as Hstep.
    destruct (compliance_step ms comp t) as [comp1|e];
      rewrite ?bind_Ok_l, ?bind_Raise_l.
    + destruct Hstep as (h1 & E & Hfill1). run_step E. by apply IH.
    + destruct Hstep as (h1 & E). run_step E. by exists h1.
Qed.

End compliance_phase.

(** ** Reading the result back *)

Section decode.
Implicit Types g h : gmap positive Store.obj.

Lemma mapM_decode_str (l : list string) :
  mapM (M:=option) Store.decode_str (Store.VStr <$> l) = Some l.
Proof.
  apply mapM_Some. induction l as [|x l IH]; csimpl; by constructor.
Qed.

Lemma decode_metric_at h v m :
  Store.metric_at h v m → Store.decode_metric h v = Some m.
Proof.
  intros (l & tv & -> & Hl & Htags).
  unfold Store.str_list_at in Htags.
  unfold Store.decode_metric, Store.field_str, Store.field_int,
    Store.field_bool, Store.field_list, Store.read_field.
  rewrite Hl. cbn [Store.metric_fields].
  change (list_to_map _ !! "name")
    with (Some (Store.VStr (MetricResult.name m))).
  change (list_to_map _ !! "dimension")
    with (Some (Store.VStr (MetricResult.dimension m))).
  change (list_to_map _ !! "severity")
    with (Some (Store.VInt (MetricResult.severity m))).
  change (list_to_map _ !! "tags") with (Some tv).
  change (list_to_map _ !! "active")
    with (Some (Store.VBool (MetricResult.active m))).
  cbn [mbind option_bind Store.decode_str Store.decode_int Store.decode_bool].
  rewrite Htags. cbn [mbind option_bind]. rewrite mapM_decode_str.
  by destruct m.
Qed.

Lemma decode_dimension_at h v ds :
  Store.dimension_at h v ds → Store.decode_dimension h v = Some ds.
Proof.
  intros (l & -> & Hl).
  unfold Store.decode_dimension, Store.field_str, Store.field_int,
    Store.read_field.
  rewrite Hl. by destruct ds.
Qed.

Lemma decode_compliance_at h v c :
  Store.compliance_at h v c → Store.decode_compliance h v = Some c.
Proof.
  intros (l & -> & Hl).
  unfold Store.decode_compliance, Store.field_str, Store.field_int,
    Store.field_float, Store.read_field.
  rewrite Hl. by destruct c.
Qed.

Lemma decode_dict_at {A : Type} (f : Store.val → option A)
    (at_ : Store.val → A → Prop) (d : gmap string Store.val)
    (m : gmap string A) :
  (∀ v x, at_ v x → f v = Some x) →
  Store.dict_at at_ d m → Store.decode_dict f d = Some m.
Proof.
  intros Hf Hd. unfold Store.decode_dict.
  assert (omap f d = m) as ->.
  { apply map_eq. intros k. rewrite lookup_omap. specialize (Hd k).
    destruct (m !! k) as [x|].
    - destruct Hd as (v & -> & Hv). simpl. by apply Hf.
    - by rewrite Hd. }
  rewrite bool_decide_eq_true_2; [done|].
  apply set_eq. intros k. rewrite !elem_of_dom. specialize (Hd k).
  destruct (m !! k) as [x|].
  - destruct Hd as (v & -> & _). split; by eauto.
  - rewrite Hd. split; intros [? [=]].
Qed.

Lemma mapM_decode_metric h vs ms :
  Forall2 (Store.metric_at h) vs ms →
  mapM (M:=option) (Store.decode_metric h) vs = Some ms.
Proof.
  intros H. apply mapM_Some. eapply Forall2_impl; [exact H|].
  apply decode_metric_at.
Qed.

End decode.

Section refinement.
Implicit Types g h : gmap positive Store.obj.

Lemma run_inactive_arg h itv it :
  Store.inactive_at h itv it →
  ∃ ls h0,
    (match itv with
     | Store.VNone => Store.alloc (Store.OSet ∅)
     | _ => mret itv
     end) h = (Ok (Store.VRef ls), h0) ∧
    h ⊆ h0 ∧ h0 !! ls = Some (Store.OSet (get it ∅)).
Proof.
  destruct it as [s|]; simpl.
  - intros (l & -> & Hl). by exists l, h.
  - intros ->. destruct (run_alloc (Store.OSet ∅) h) as (l & Hl & E).
    exists l, (<[l := Store.OSet ∅]> h). split; [exact E|].
    split; [by apply insert_subseteq | apply lookup_insert_eq].
Qed.

Lemma run_set_sorted_items h l (s : gset string) :
  h !! l = Some (Store.OSet s) →
  ∃ l', h !! l' = None ∧
    (Store.set_sorted (Store.VRef l) ≫= Store.list_items) h
    = (Ok (Store.VStr <$> sorted s),
       <[l' := Store.OList (Store.VStr <$> sorted s)]> h).
Proof.
  intros Hl.
  destruct (run_alloc (Store.OList (Store.VStr <$> sorted s)) h)
    as (l' & Hl' & E).
  exists l'. split; [done|].
  assert (Store.set_sorted (Store.VRef l) h
          = (Ok (Store.VRef l'),
             <[l' := Store.OList (Store.VStr <$> sorted s)]> h)) as E'.
  { unfold Store.set_sorted.
    by rewrite (run_bind _ _ _ _ _ (run_read _ _ _ Hl)). }
  run_step E'. apply run_list_items, lookup_insert_eq.
Qed.

Lemma encode_accum_init :
  list_to_map ((λ d, (d, Store.VPair (Store.VInt 0) (Store.VInt 0)))
                 <$> DIMENSIONS)
  = Store.encode_accum dim_accum_init.
Proof.
  unfold Store.encode_accum, dim_accum_init, DIMENSIONS. csimpl.
  by rewrite !fmap_insert, fmap_empty.
Qed.

(** The raw metric list the loop iterates over. *)
Lemma doc_metrics h (d : gmap string Store.val) tm l1 :
  match tm_metrics tm with
  | Some ms =>
      ∃ mv vs, d !! "metrics" = Some mv ∧ Store.read_list h mv = Some vs ∧
               Forall2 (Store.raw_metric_at h) vs ms
  | None => d !! "metrics" = None
  end →
  h !! l1 = Some (Store.OList []) →
  ∃ lr xs, default (Store.VRef l1) (d !! "metrics") = Store.VRef lr ∧
    h !! lr = Some (Store.OList xs) ∧
    Forall2 (Store.raw_metric_at h) xs (get (tm_metrics tm) []).
Proof.
  intros Hm Hl1. destruct (tm_metrics tm) as [ms|]; simpl.
  - destruct Hm as (mv & vs & -> & Hvs & Hall).
    apply read_list_ref in Hvs as (lr & -> & Hlr). by exists lr, vs.
  - rewrite Hm. exists l1, []. by repeat split.
Qed.

(** The attributes of the result object. *)
Lemma result_fields (p dv ov sv cv mv tv av iv : Store.val) :
  let fields : gmap string Store.val :=
    list_to_map
      [("platform", p); ("dimensions", dv); ("overall", ov); ("stars", sv);
       ("compliance", cv); ("metrics", mv); ("total_metrics", tv);
       ("active_threats", av); ("inactive_threats", iv)] in
  fields !! "platform" = Some p ∧ fields !! "dimensions" = Some dv ∧
  fields !! "overall" = Some ov ∧ fields !! "stars" = Some sv ∧
  fields !! "compliance" = Some cv ∧ fields !! "metrics" = Some mv ∧
  fields !! "total_metrics" = Some tv ∧
  fields !! "active_threats" = Some av ∧
  fields !! "inactive_threats" = Some iv.
Proof. by repeat split. Qed.

Lemma alloc_frozen g h o :
  g ⊆ h →
  ∃ l, g !! l = None ∧ h !! l = None ∧
    Store.alloc o h = (Ok (Store.VRef l), <[l := o]> h) ∧
    g ⊆ <[l := o]> h.
Proof.
  intros Hgh. destruct (run_alloc o h) as (l & Hl & E).
  destruct (frozen_alloc g h l o Hgh Hl) as (_ & _ & Hg).
  exists l. repeat split; try done. by apply frozen_write.
Qed.

(** Freezing the object under construction. *)
Lemma freeze g h l o :
  g ⊆ h → g !! l = None → h !! l = Some o →
  g ⊆ <[l := o]> g ∧ <[l := o]> g ⊆ h ∧ <[l := o]> g !! l = Some o.
Proof.
  intros Hgh Hg Hh. split; [by apply insert_subseteq|].
  split; [by apply insert_subseteq_l | apply lookup_insert_eq].
Qed.

(** The run on the store, step by step against the functional model. *)
Lemma store_run h tmv itv tm it a :
  Store.doc_at h tmv tm → Store.inactive_at h itv it →
  Store.run_agrees h tmv (Store.compute_score tmv itv a h)
                   (compute_score tm it a).
Proof.
  intros (d & Hd & Hname & Hmetrics) Hit.
  apply read_dict_ref in Hd as (lt & -> & Hlt).
  unfold Store.compute_score, compute_score.
  (* the arguments *)
  destruct (run_inactive_arg h itv it Hit) as (ls & h0 & E & Hh0 & Hls).
  run_step E. clear E.
  destruct (alloc_frozen h0 h0 (Store.OList [])) as (l1 & _ & Hl1 & E & Hh1);
    [done|].
  run_step E. clear E. set (h1 := <[l1 := Store.OList []]> h0) in *.
  assert (h ⊆ h1) as Hhh1 by (by transitivity h0).
  pose proof (lookup_weaken _ _ _ _ Hlt Hhh1) as Hlt1.
  rewrite (run_bind _ _ _ _ _ (run_dict_get _ _ "metrics" _ _ Hlt1)).
  rewrite (run_bind _ _ _ _ _ (run_dict_get _ _ "name" _ _ Hlt1)).
  destruct (doc_metrics h1 d tm l1) as (lr & xs & Hdef & Hlr & Hxs).
  { destruct (tm_metrics tm) as [ms|]; [|done].
    destruct Hmetrics as (mv & vs & Hmv & Hvs & Hall).
    exists mv, vs. split; [done|]. split; [by eapply read_list_mono|].
    eapply Forall2_mono; [|exact Hall]. intros v x Hv.
    by eapply raw_metric_at_mono. }
  { subst h1. apply lookup_insert_eq. }
  assert (∀ mv, Store.read_field h (Store.VRef lt) "metrics" = Some mv →
                Store.read_list h mv = Some xs) as Hdoc.
  { unfold Store.read_field. rewrite Hlt. intros mv Hmv.
    destruct (tm_metrics tm) as [raws|]; [|congruence].
    destruct Hmetrics as (mv' & vs' & Hmv' & Hvs' & _).
    assert (mv' = mv) as -> by congruence. rewrite Hmv in Hdef.
    cbn in Hdef. subst mv. rewrite Hvs'. f_equal.
    pose proof (read_list_mono _ _ _ _ Hvs' Hhh1) as Hvs1.
    unfold Store.read_list in Hvs1. rewrite Hlr in Hvs1. congruence. }
  rewrite Hdef.
  assert (default (Store.VStr "unknown") (d !! "name")
          = Store.VStr (get (tm_name tm) "unknown")) as ->.
  { rewrite Hname. by destruct (tm_name tm). }
  (* the metric results *)
  destruct (alloc_frozen h1 h1 (Store.OList [])) as (lm & _ & Hlm & E & Hh2);
    [done|].
  run_step E. clear E. set (h2 := <[lm := Store.OList []]> h1) in *.
  rewrite (run_bind _ _ _ _ _
             (run_list_items _ _ _ (lookup_weaken _ _ _ _ Hlr Hh2))).
  pose proof (build_loop_sim h1 ls (get it ∅) a lm (get (tm_metrics tm) [])
                xs h2 (lookup_weaken _ _ _ _ Hls Hh1) Hxs) as Hbuild.
  destruct (build_metrics (get it ∅) a (get (tm_metrics tm) []))
    as [ms|e] eqn:Hbm; rewrite ?bind_Ok_l, ?bind_Raise_l.
  2:{ destruct Hbuild as (h3 & E).
      { exists h1, []. repeat split; try done. subst h2.
        apply lookup_insert_eq. }
      run_step E. reflexivity. }
  destruct Hbuild as (h3 & E & g3 & vs & Hg3 & Hg3h & Hg3lm & Hh3lm & Hof).
  { exists h1, []. repeat split; try done. subst h2. apply lookup_insert_eq. }
  run_step E. clear E.
  assert (length xs = length ms) as Hlen.
  { apply build_metrics_Ok, Forall2_length in Hbm.
    apply Forall2_length in Hxs. congruence. }
  pose proof (metric_of_at _ _ _ _ Hlen Hof) as Hms.
  destruct (freeze g3 h3 lm _ Hg3h Hg3lm Hh3lm) as (Hg3G1 & HG1h & HG1lm).
  set (G1 := <[lm := Store.OList vs]> g3) in *.
  assert (Forall2 (Store.metric_at G1) vs ms) as HmsG1.
  { eapply Forall2_mono; [|exact Hms]. intros v x Hv.
    by eapply metric_at_mono. }
  assert (Forall2 (Store.metric_of G1) vs (zip xs ms)) as HofG1.
  { eapply Forall2_mono; [|exact Hof]. intros v x Hv.
    by eapply metric_of_mono. }
  (* the sums per dimension *)
  rewrite encode_accum_init.
  destruct (alloc_frozen G1 h3 (Store.ODict (Store.encode_accum dim_accum_init))
              HG1h) as (ld & HG1ld & Hh3ld & E & HG1h4).
  run_step E. clear E.
  set (h4 := <[ld := Store.ODict (Store.encode_accum dim_accum_init)]> h3)
    in *.
  rewrite (run_bind _ _ _ _ _
             (run_list_items _ _ _ (lookup_weaken _ _ _ _ HG1lm HG1h4))).
  pose proof (accum_loop_sim G1 ld vs ms dim_accum_init h4 HG1h4 HG1ld
                (lookup_insert_eq _ _ _) HmsG1) as Haccum.
  destruct (foldM accum_step dim_accum_init ms) as [acc|e];
    rewrite ?bind_Ok_l, ?bind_Raise_l.
  2:{ destruct Haccum as (h5 & E). run_step E. reflexivity. }
  destruct Haccum as (h5 & E & HG1h5 & Hh5ld).
  run_step E. clear E.
  destruct (freeze G1 h5 ld _ HG1h5 HG1ld Hh5ld) as (HG1G2 & HG2h & HG2ld).
  set (G2 := <[ld := Store.ODict (Store.encode_accum acc)]> G1) in *.
  (* the scores per dimension *)
  destruct (alloc_frozen G2 h5 (Store.ODict ∅) HG2h)
    as (ldims & HG2ldims & Hh5ldims & E & HG2h6).
  run_step E. clear E. set (h6 := <[ldims := Store.ODict ∅]> h5) in *.
  pose proof (score_loop_sim G2 ld ldims acc DIMENSIONS ∅ 0 0 h6 HG2ld)
    as Hscore.
  destruct (foldM (score_step acc) (∅, 0, 0) DIMENSIONS)
    as [[[dims oc] om]|e]; rewrite ?bind_Ok_l, ?bind_Raise_l.
  2:{ destruct Hscore as (h7 & E).
      { exists G2, ∅. repeat split; try done. apply lookup_insert_eq. }
      run_step E. reflexivity. }
  destruct Hscore as (h7 & E & g7 & d7 & HG2g7 & Hg7h & Hg7ldims & Hh7ldims
                      & Hdims).
  { exists G2, ∅. repeat split; try done. apply lookup_insert_eq. }
  run_step E. clear E. cbn [fst snd].
  cbn [fst] in Hdims.
  destruct (freeze g7 h7 ldims _ Hg7h Hg7ldims Hh7ldims)
    as (Hg7G3 & HG3h & HG3ldims).
  set (G3 := <[ldims := Store.ODict d7]> g7) in *.
  assert (G1 ⊆ G3) as HG1G3.
  { transitivity G2; [done|]. by transitivity g7. }
  pose proof (lookup_weaken _ _ _ _ HG1lm HG1G3) as HG3lm.
  assert (Forall2 (Store.metric_at G3) vs ms) as HmsG3.
  { eapply Forall2_mono; [|exact HmsG1]. intros v x Hv.
    by eapply metric_at_mono. }
  assert (Store.dict_at (Store.dimension_at G3) d7 dims) as HdimsG3.
  { intros k. specialize (Hdims k). destruct (dims !! k); [|done].
    destruct Hdims as (v & Hv & Hat). exists v. split; [done|].
    by eapply dimension_at_mono. }
  (* the stars *)
  assert (Store.lift (stars_of (overall_score oc om)) h7
          = (stars_of (overall_score oc om), h7)) as E by done.
  destruct (stars_of (overall_score oc om)) as [stars|e];
    rewrite ?bind_Ok_l, ?bind_Raise_l.
  2:{ run_step E. reflexivity. }
  run_step E. clear E.
  (* the compliance entries *)
  destruct (alloc_frozen G3 h7 (Store.OSet ∅) HG3h)
    as (ltp & HG3ltp & Hh7ltp & E & HG3h8).
  run_step E. clear E. set (h8 := <[ltp := Store.OSet ∅]> h7) in *.
  destruct (collect_prefixes_sim G3 ltp lm vs ms h8 HG3h8 HG3ltp HG3lm HmsG3
              (lookup_insert_eq _ _ _)) as (h9 & E & HG3h9 & Hh9ltp).
  run_step E. clear E.
  destruct (alloc_frozen G3 h9 (Store.ODict ∅) HG3h9)
    as (lcomp & HG3lcomp & Hh9lcomp & E & HG3h10).
  run_step E. clear E. set (h10 := <[lcomp := Store.ODict ∅]> h9) in *.
  assert (h10 !! ltp = Some (Store.OSet (collect_prefixes ms))) as Hh10ltp.
  { subst h10. rewrite lookup_insert_ne; [done|]. congruence. }
  destruct (run_set_sorted_items h10 ltp _ Hh10ltp) as (lp & Hh10lp & E).
  run_step E. clear E.
  set (h11 := <[lp := Store.OList
                        (Store.VStr <$> sorted (collect_prefixes ms))]> h10)
    in *.
  assert (h10 !! lcomp = Some (Store.ODict ∅)) as Hh10lcomp
    by (subst h10; apply lookup_insert_eq).
  pose proof (compliance_loop_sim G3 lm lcomp vs ms
                (sorted (collect_prefixes ms)) ∅ h11 HG3lm HmsG3) as Hcomp.
  destruct (foldM (compliance_step ms) ∅ (sorted (collect_prefixes ms)))
    as [comp|e]; rewrite ?bind_Ok_l, ?bind_Raise_l.
  2:{ destruct Hcomp as (h12 & E).
      { exists G3, ∅. repeat split; try done.
        - transitivity h10; [done|]. by apply insert_subseteq.
        - subst h11. rewrite lookup_insert_ne; [done|]. congruence. }
      run_step E. reflexivity. }
  destruct Hcomp as (h12 & E & g12 & d12 & HG3g12 & Hg12h & Hg12lcomp
                     & Hh12lcomp & Hcomp).
  { exists G3, ∅. repeat split; try done.
    - transitivity h10; [done|]. by apply insert_subseteq.
    - subst h11. rewrite lookup_insert_ne; [done|]. congruence. }
  run_step E. clear E.
  destruct (freeze g12 h12 lcomp _ Hg12h Hg12lcomp Hh12lcomp)
    as (Hg12G4 & HG4h & HG4lcomp).
  set (G4 := <[lcomp := Store.ODict d12]> g12) in *.
  assert (G3 ⊆ G4) as HG3G4 by (by transitivity g12).
  pose proof (lookup_weaken _ _ _ _ HG3lm HG3G4) as HG4lm.
  assert (Forall2 (Store.metric_at G4) vs ms) as HmsG4.
  { eapply Forall2_mono; [|exact HmsG3]. intros v x Hv.
    by eapply metric_at_mono. }
  (* the counts and the result *)
  rewrite (run_bind _ _ _ _ _
             (count_if_sim G4 lm vs ms (λ b, b) h12 HG4h HG4lm HmsG4)).
  rewrite (run_bind _ _ _ _ _
             (count_if_sim G4 lm vs ms negb h12 HG4h HG4lm HmsG4)).
  rewrite (run_bind _ _ _ _ _
             (list_len_sim G4 lm vs ms h12 HG4h HG4lm HmsG4)).
  unfold Store.new_instance.
  match goal with |- context [Store.alloc ?o h12] =>
    destruct (alloc_frozen G4 h12 o HG4h) as (lres & HG4lres & Hh12lres & E & HG4h13);
    rewrite E; clear E;
    assert (<[lres := o]> h12 !! lres = Some o) as Hres
      by apply lookup_insert_eq;
    set (h13 := <[lres := o]> h12) in *
  end.
  assert (G3 ⊆ h13) as HG3h13 by (by transitivity G4).
  assert (Store.dict_at (Store.dimension_at h13) d7 dims) as Hd7.
  { intros k. specialize (HdimsG3 k). destruct (dims !! k); [|done].
    destruct HdimsG3 as (v & Hv & Hat). exists v. split; [done|].
    by eapply dimension_at_mono. }
  assert (Store.dict_at (Store.compliance_at h13) d12 comp) as Hd12.
  { intros k. specialize (Hcomp k). destruct (comp !! k); [|done].
    destruct Hcomp as (v & Hv & Hat). exists v. split; [done|].
    eapply compliance_at_mono; [exact Hat|]. by transitivity G4. }
  assert (Forall2 (Store.metric_at h13) vs ms) as Hvs13.
  { eapply Forall2_mono; [|exact HmsG4]. intros v x Hv.
    by eapply metric_at_mono. }
  assert (h ⊆ h12) as Hhh12.
  { transitivity h1; [done|]. transitivity g3; [done|]. transitivity G1; [done|].
    transitivity G3; [done|]. by transitivity G4. }
  unfold Store.run_agrees. cbn [mret result_ret fst snd ScoreResult.metrics].
  match type of Hres with _ = Some (Store.OInstance _ ?f) =>
    exists lres, f, lm, vs, G1, xs
  end.
  split; [done|].
  split; [transitivity h12; [done|]; by apply insert_subseteq|].
  split; [by eapply lookup_weaken_None|]. split; [exact Hres|].
  split.
  { match goal with |- context [list_to_map ?l] =>
      match l with
      | [(_, ?p); (_, ?dv); (_, ?ov); (_, ?sv); (_, ?cv); (_, ?mv); (_, ?tv);
         (_, ?av); (_, ?iv)] =>
          by destruct (result_fields p dv ov sv cv mv tv av iv)
            as (_ & _ & _ & _ & _ & -> & _)
      end
    end. }
  split; [transitivity G3; [done|]; by transitivity G4|].
  split; [done|]. split; [done|]. split; [done|].
  unfold Store.decode_result, Store.field_str,
    Store.field_int, Store.field_float, Store.field_dict, Store.field_list,
    Store.read_field.
  rewrite Hres.
  match goal with |- context [list_to_map ?l] =>
    match l with
    | [(_, ?p); (_, ?dv); (_, ?ov); (_, ?sv); (_, ?cv); (_, ?mv); (_, ?tv);
       (_, ?av); (_, ?iv)] =>
        destruct (result_fields p dv ov sv cv mv tv av iv)
          as (-> & -> & -> & -> & -> & -> & -> & -> & ->)
    end
  end.
  cbn [mbind option_bind Store.decode_str Store.decode_int
         Store.decode_float].
  unfold Store.read_dict, Store.read_list.
  rewrite (lookup_weaken _ _ _ _ HG3ldims HG3h13).
  rewrite (lookup_weaken _ _ _ _ HG4lcomp HG4h13).
  rewrite (lookup_weaken _ _ _ _ HG4lm HG4h13).
  cbn [mbind option_bind].
  rewrite (decode_dict_at _ _ _ _ (decode_dimension_at h13) Hd7).
  rewrite (decode_dict_at _ _ _ _ (decode_compliance_at h13) Hd12).
  rewrite (mapM_decode_metric _ _ _ Hvs13).
  reflexivity.
Qed.

(** X10. The run on the store agrees with the run on values.  On a
    store that holds a document and the inactive set (or [None]), wherever
    they sit and whatever else the store holds, [compute_score] with its
    appends and item assignments returns an object that reads back as the
    result of the functional [compute_score], or raises the exception the
    functional model raises. *)
Theorem store_refines h tmv itv tm it a :
  Store.doc_at h tmv tm → Store.inactive_at h itv it →
  Store.decode_run (Store.compute_score tmv itv a h)
  = Some (compute_score tm it a).
Proof.
  intros Hdoc Hit. pose proof (store_run h tmv itv tm it a Hdoc Hit) as H.
  unfold Store.run_agrees, Store.decode_run in *.
  destruct (compute_score tm it a) as [r|e].
  - destruct H as (lres & fields & lm & vs & g & xs & -> & _ & _ & _ & _ & _
                   & _ & _ & _ & ->).
    reflexivity.
  - by rewrite H.
Qed.

(** X23. The tag lists of the result are the tag lists of the document.
    When [compute_score] returns, the metric list of the result has one
    object per record of the document's list, in order, and for a record
    with a ["tags"] entry the attribute [tags] of its object is that very
    entry: the same list object, not a copy.  The result itself is an
    object that the store did not hold before. *)
Theorem tags_are_shared h tmv itv tm it a v h' :
  Store.doc_at h tmv tm → Store.inactive_at h itv it →
  Store.compute_score tmv itv a h = (Ok v, h') →
  ∃ l metrics vs, v = Store.VRef l ∧ h !! l = None ∧
    Store.read_field h' v "metrics" = Some metrics ∧
    Store.read_list h' metrics = Some vs ∧
    ∀ mv xs, Store.read_field h tmv "metrics" = Some mv →
      Store.read_list h mv = Some xs →
      Forall2 (λ x m, ∃ d, Store.read_dict h' x = Some d ∧
                 ∀ tv, d !! "tags" = Some tv →
                       Store.read_field h' m "tags" = Some tv)
              xs vs.
Proof.
  intros Hdoc Hit Hrun.
  pose proof (store_run h tmv itv tm it a Hdoc Hit) as H.
  unfold Store.run_agrees in H. rewrite Hrun in H. cbn [fst snd] in H.
  destruct (compute_score tm it a) as [r|e] eqn:Hr; [|discriminate H].
  destruct H as (lres & fields & lm & vs & g & xs & [= ->] & Hhh' & Hfresh
                 & Hres & Hmetrics & Hgh' & Hlm & Hof & Hxs & _).
  exists lres, (Store.VRef lm), vs. split; [done|]. split; [done|].
  split; [unfold Store.read_field; by rewrite Hres|].
  split.
  { unfold Store.read_list. by rewrite (lookup_weaken _ _ _ _ Hlm Hgh'). }
  intros mv xs' Hmv Hxs'. rewrite (Hxs mv Hmv) in Hxs'. injection Hxs' as <-.
  assert (length xs = length (ScoreResult.metrics r)) as Hlen.
  { apply compute_score_Ok in Hr
      as (metrics & acc & dims & oc & om & stars & comp
          & Hb & _ & _ & _ & _ & ->).
    cbn [ScoreResult.metrics] in *. apply build_metrics_Ok, Forall2_length in Hb.
    destruct Hdoc as (d & Hd & _ & Hm). unfold Store.read_field in Hmv.
    apply read_dict_ref in Hd as (lt & -> & Hlt). rewrite Hlt in Hmv.
    destruct (tm_metrics tm) as [raws|]; [|congruence].
    destruct Hm as (mv' & vs' & Hmv' & Hvs' & Hall).
    assert (mv' = mv) as -> by congruence.
    rewrite (Hxs mv) in Hvs' by (unfold Store.read_field; by rewrite Hlt).
    injection Hvs' as <-. apply Forall2_length in Hall. cbn in Hb. congruence. }
  apply (Forall2_zip_fst _ xs (ScoreResult.metrics r) vs Hlen).
  eapply Forall2_impl; [exact Hof|].
  intros m [x mr] [_ (d & Hd & Htags)]. cbn [fst snd] in *.
  exists d. split; [by eapply read_dict_mono|].
  intros tv Htv. eapply read_field_mono; [by apply Htags | done].
Qed.

End refinement.

(** * Further properties of [compute_score] *)

Lemma compute_score_resolves tm it a r :
  compute_score tm it a = Ok r →
  Forall2 (resolves (get it ∅) a) (get (tm_metrics tm) [])
          (ScoreResult.metrics r).
Proof.
  intros H. apply compute_score_Ok in H
    as (metrics & acc & dims & oc & om & stars & comp & Hb & _ & _ & _ & _ & ->).
  by apply build_metrics_Ok.
Qed.

Lemma resolves_names_eq s a raws metrics :
  Forall2 (resolves s a) raws metrics →
  MetricResult.name <$> metrics = omap raw_name raws.
Proof.
  induction 1 as [|raw m raws metrics (Hn & _) _ IH]; [done|].
  csimpl. by rewrite Hn, IH.
Qed.

(** X1. A document of the input shape is scored.  When every metric
    record has a name, one of the five dimensions and a severity that is
    not negative, and the document has fewer than [2^1023] tags,
    [compute_score] raises no exception, whatever the inactive set and the
    override flag: it returns a result for the document's platform with
    one metric per record, under the record's name. *)
Theorem compute_score_total tm it a :
  well_formed tm → tag_count tm < 2 ^ 1023 →
  ∃ r, compute_score tm it a = Ok r ∧
    ScoreResult.platform r = get (tm_name tm) "unknown" ∧
    MetricResult.name <$> ScoreResult.metrics r = metric_names tm.
Proof.
  intros Hwf Hcount.
  destruct (compute_score_returns tm it a Hwf Hcount) as [r Hr].
  exists r. split; [exact Hr|].
  pose proof (compute_score_resolves _ _ _ _ Hr) as Hres.
  split; [|by apply (resolves_names_eq _ _ _ _ Hres)].
  apply compute_score_Ok in Hr
    as (metrics & acc & dims & oc & om & stars & comp
        & _ & _ & _ & _ & _ & ->).
  reflexivity.
Qed.

Lemma resolves_nonneg s a raws metrics :
  Forall2 (resolves s a) raws metrics →
  Forall (λ m, ∀ sv, raw_severity m = Some sv → 0 ≤ sv) raws →
  Forall (λ m, 0 ≤ MetricResult.severity m) metrics.
Proof.
  induction 1 as [|raw m raws metrics (_ & _ & Hsv & _) _ IH];
    intros Hall; [constructor|].
  apply Forall_cons in Hall as [H1 H2]. constructor; [by apply H1|by apply IH].
Qed.

Lemma sum_dimensions_unfold (f : DimensionScore.t → Z)
    (dims : gmap string DimensionScore.t) (g : string → Z) :
  (∀ d, d ∈ DIMENSIONS → ∃ ds, dims !! d = Some ds ∧ f ds = g d) →
  sum_dimensions f dims
  = g "network" + (g "system services" + (g "system integrity"
      + (g "credentials" + (g "applications" + 0)))).
Proof.
  intros H. unfold sum_dimensions, DIMENSIONS. cbn [foldr].
  repeat match goal with
  | |- context [dims !! ?d] =>
      let ds := fresh "ds" in let E := fresh "E" in let F := fresh "F" in
      destruct (H d) as (ds & E & F);
      [unfold DIMENSIONS; set_solver | rewrite E, <- F; cbn [from_option]; clear E F]
  end.
  reflexivity.
Qed.

Lemma stars_of_range overall :
  0 ≤ overall ≤ 100 →
  ∃ f, stars_of overall = Ok f ∧ SFleb f0_0 f = true ∧ SFleb f f5_0 = true.
Proof.
  intros Ho.
  assert (forallb (λ n, match stars_of (Z.of_nat n) with
                        | Ok f => SFleb f0_0 f && SFleb f f5_0
                        | Raise _ => false
                        end) (seq 0 101) = true) as H
    by (vm_compute; reflexivity).
  rewrite forallb_forall in H. specialize (H (Z.to_nat overall)).
  rewrite Z2Nat.id in H by lia.
  destruct (stars_of overall) as [f|e].
  - exists f. split; [done|]. apply andb_true_iff, H, in_seq. lia.
  - discriminate H. apply in_seq. lia.
Qed.

Lemma scores_in_range_aux tm it a r :
  nonneg_severities tm →
  compute_score tm it a = Ok r →
  0 ≤ ScoreResult.overall r ≤ 100.
Proof.
  intros Hsv H.
  pose proof (resolves_nonneg _ _ _ _ (compute_score_resolves _ _ _ _ H) Hsv)
    as Hpos.
  destruct (compute_score_dimensions _ _ _ _ H) as (Hin & Hout & Hov).
  set (ms := ScoreResult.metrics r) in *.
  rewrite Hov. apply overall_score_bounds.
  rewrite (sum_dimensions_unfold _ _ (λ d, dim_current d ms)),
    (sum_dimensions_unfold _ _ (λ d, dim_maximum d ms)).
  - pose proof (λ d, dim_current_bounds d ms Hpos) as B.
    pose proof (B "network"). pose proof (B "system services").
    pose proof (B "system integrity"). pose proof (B "credentials").
    pose proof (B "applications"). lia.
  - intros d Hd. rewrite (Hin d Hd). by eexists.
  - intros d Hd. rewrite (Hin d Hd). by eexists.
Qed.

(** X2. With severities that are not negative every score of the result is
    in the range its field comment gives: [overall] is 0-100, [stars] is
    0.0-5.0, a dimension with metrics scores 0-100 and one without scores
    the sentinel -1, which no dimension with metrics has. *)
Theorem scores_in_range tm it a r :
  nonneg_severities tm →
  compute_score tm it a = Ok r →
  0 ≤ ScoreResult.overall r ≤ 100 ∧
  SFleb f0_0 (ScoreResult.stars r) = true ∧
  SFleb (ScoreResult.stars r) f5_0 = true ∧
  ∀ d ds, ScoreResult.dimensions r !! d = Some ds →
    0 ≤ DimensionScore.current ds ≤ DimensionScore.maximum ds ∧
    (DimensionScore.has_metrics ds = true →
       0 ≤ DimensionScore.score ds ≤ 100) ∧
    (DimensionScore.score ds = -1 ↔ DimensionScore.has_metrics ds = false).
Proof.
  intros Hsv H.
  pose proof (resolves_nonneg _ _ _ _ (compute_score_resolves _ _ _ _ H) Hsv)
    as Hpos.
  pose proof (overall_and_stars_aux _ _ _ _ H) as Hstars.
  destruct (compute_score_dimensions _ _ _ _ H) as (Hin & Hout & Hov).
  set (ms := ScoreResult.metrics r) in *.
  pose proof (scores_in_range_aux _ _ _ _ Hsv H) as Hrange.
  split; [exact Hrange|].
  destruct (stars_of_range _ Hrange) as (f & Hf & H0 & H5).
  rewrite Hstars in Hf. injection Hf as <-. do 2 (split; [done|]).
  intros d ds Hds. destruct (decide (d ∈ DIMENSIONS)) as [Hd|Hd].
  2:{ by rewrite (Hout d Hd) in Hds. }
  rewrite (Hin d Hd) in Hds. injection Hds as <-.
  unfold DimensionScore.has_metrics, dimension_score. cbn.
  pose proof (dim_current_bounds d ms Hpos) as B.
  split; [done|]. destruct (Z.ltb_spec 0 (dim_maximum d ms)) as [Hm|Hm].
  - assert (0 ≤ 100 * dim_current d ms / dim_maximum d ms ≤ 100) as Hs.
    { split; [apply Z.div_pos; lia|].
      apply Z.div_le_upper_bound; lia. }
    split; [done|]. split; [lia|done].
  - split; [done|]. done.
Qed.

Lemma compute_score_compliance tm it a r :
  compute_score tm it a = Ok r →
  ∀ p, match ScoreResult.compliance r !! p with
       | Some c => observed_prefix p (ScoreResult.metrics r) ∧
                   compliance_entry (ScoreResult.metrics r) p c
       | None => ¬ observed_prefix p (ScoreResult.metrics r)
       end.
Proof.
  intros H p. apply compute_score_Ok in H
    as (metrics & acc & dims & oc & om & stars & comp
        & _ & _ & _ & _ & Hcomp & ->).
  simpl. apply compliance_loop_Ok in Hcomp as [Hin Hout].
  destruct (decide (p ∈ sorted (collect_prefixes metrics))) as [Hp|Hp].
  - pose proof Hp as Hobs. apply sorted_elem, collect_prefixes_elem in Hobs.
    destruct (Hin p Hp (observed_prefix_total _ _ Hobs)) as (c & -> & He).
    done.
  - rewrite (Hout p), lookup_empty by tauto.
    by rewrite <- collect_prefixes_elem, <- sorted_elem.
Qed.

Lemma resolves_names tm s a metrics :
  Forall2 (resolves s a) (get (tm_metrics tm) []) metrics →
  Forall (λ m, MetricResult.name m ∈ metric_names tm) metrics.
Proof.
  unfold metric_names. generalize (get (tm_metrics tm) []).
  induction 1 as [|raw m raws metrics (Hn & _) _ IH]; [constructor|].
  constructor.
  - apply list_elem_of_omap. exists raw. split; [left|done].
  - eapply Forall_impl; [exact IH|]. intros m' Hm'.
    apply list_elem_of_omap in Hm' as (raw' & ? & ?).
    apply list_elem_of_omap. exists raw'. split; [by right|done].
Qed.

Lemma filter_none {A : Type} (f : A → bool) (l : list A) :
  (∀ x, x ∈ l → f x = false) → List.filter f l = [].
Proof.
  induction l as [|x l IH]; intros H; [done|]. cbn.
  rewrite (H x) by left. apply IH. intros y Hy. apply H. by right.
Qed.

Lemma filter_all {A : Type} (f : A → bool) (l : list A) :
  (∀ x, x ∈ l → f x = true) → List.filter f l = l.
Proof.
  induction l as [|x l IH]; intros H; [done|]. cbn.
  rewrite (H x) by left. f_equal. apply IH. intros y Hy. apply H. by right.
Qed.

Lemma all_active_current d metrics :
  Forall (λ m, MetricResult.active m = true) metrics →
  dim_current d metrics = 0.
Proof.
  induction 1 as [|m l Hm _ IH]; [done|].
  rewrite dim_current_cons, IH. unfold inactive. rewrite Hm.
  by rewrite andb_false_r.
Qed.

Lemma all_active_compliant p metrics :
  Forall (λ m, MetricResult.active m = true) metrics →
  compliant_for p metrics = 0.
Proof.
  intros Hall. unfold compliant_for.
  rewrite filter_none; [done|]. intros [m t] Hmt.
  apply elem_of_tag_pairs in Hmt as [Hm _].
  rewrite Forall_forall in Hall. unfold inactive. cbn.
  rewrite (Hall m Hm). by rewrite andb_false_r.
Qed.

Lemma all_active_count metrics :
  Forall (λ m, MetricResult.active m = true) metrics →
  count_if (λ m, negb (MetricResult.active m)) metrics = 0.
Proof.
  intros Hall. rewrite count_if_length.
  rewrite filter_none; [done|]. intros m Hm.
  rewrite Forall_forall in Hall. by rewrite (Hall m Hm).
Qed.

(** X3. The worst case.  When no name of the inactive set is the name of a
    metric and [all_inactive] is off (in particular when the set is left
    out), every metric is active, no threat counts as inactive, every
    dimension has [current] 0 and scores 0 (or the sentinel -1 without
    metrics), [overall] is 0, [stars] is 0.0 and no compliance entry has a
    compliant tag. *)
Theorem no_inactive_worst_case tm it r :
  (∀ n, n ∈ metric_names tm → n ∉ get it ∅) →
  compute_score tm it false = Ok r →
  Forall (λ m, MetricResult.active m = true) (ScoreResult.metrics r) ∧
  ScoreResult.active_threats r = ScoreResult.total_metrics r ∧
  ScoreResult.inactive_threats r = 0 ∧
  ScoreResult.overall r = 0 ∧
  ScoreResult.stars r = f0_0 ∧
  (∀ d ds, ScoreResult.dimensions r !! d = Some ds →
     DimensionScore.current ds = 0 ∧
     DimensionScore.score ds
     = if DimensionScore.has_metrics ds then 0 else -1) ∧
  (∀ p c, ScoreResult.compliance r !! p = Some c →
     ComplianceResult.compliant c = 0).
Proof.
  intros Hno H.
  pose proof (compute_score_resolves _ _ _ _ H) as Hres.
  assert (Forall (λ m, MetricResult.active m = true) (ScoreResult.metrics r))
    as Hact.
  { pose proof (resolves_names _ _ _ _ Hres) as Hnames.
    apply Forall2_Forall_r with (Q := λ m, MetricResult.active m
      = negb (false || bool_decide (MetricResult.name m ∈ get it ∅))) in Hres.
    2:{ apply Forall_true. intros raw m (_ & _ & _ & _ & Ha). exact Ha. }
    rewrite Forall_forall in Hres, Hnames. apply Forall_forall. intros m Hm.
    rewrite (Hres m Hm). cbn. rewrite bool_decide_eq_false_2; [done|].
    by apply Hno, Hnames. }
  pose proof (overall_and_stars_aux _ _ _ _ H) as Hstars.
  pose proof (compute_score_compliance _ _ _ _ H) as Hcomp.
  destruct (compute_score_dimensions _ _ _ _ H) as (Hin & Hout & Hov).
  assert (ScoreResult.overall r = 0) as Hzero.
  { rewrite Hov.
    rewrite (sum_dimensions_unfold DimensionScore.current _ (λ _, 0)).
    - unfold overall_score. by destruct (0 <? _).
    - intros d Hd. rewrite (Hin d Hd). eexists. split; [done|].
      by apply all_active_current. }
  split; [done|].
  apply compute_score_Ok in H
    as (metrics & acc & dims & oc & om & stars & comp
        & _ & _ & _ & _ & _ & ->).
  cbn [ScoreResult.metrics ScoreResult.dimensions ScoreResult.overall
       ScoreResult.stars ScoreResult.compliance ScoreResult.total_metrics
       ScoreResult.active_threats ScoreResult.inactive_threats] in *.
  rewrite (all_active_count _ Hact).
  split.
  { rewrite count_if_length, filter_all; [done|].
    by apply Forall_forall. }
  split; [done|]. split; [done|]. split.
  { rewrite Hzero in Hstars. vm_compute in Hstars. by injection Hstars. }
  split.
  - intros d ds Hds. destruct (decide (d ∈ DIMENSIONS)) as [Hd|Hd].
    2:{ by rewrite (Hout d Hd) in Hds. }
    rewrite (Hin d Hd) in Hds. injection Hds as <-.
    unfold DimensionScore.has_metrics, dimension_score.
    cbn [DimensionScore.current DimensionScore.maximum DimensionScore.score].
    rewrite (all_active_current _ _ Hact). by destruct (0 <? _).
  - intros p c Hc. specialize (Hcomp p). rewrite Hc in Hcomp.
    destruct Hcomp as (_ & _ & -> & _). by apply all_active_compliant.
Qed.

Lemma build_metrics_override s s' raws :
  build_metrics s true raws = build_metrics s' true raws.
Proof.
  induction raws as [|raw raws IH]; [done|].
  rewrite !build_metrics_cons, IH. done.
Qed.

(** X4. [all_inactive] overrides [inactive_threats]: with the flag on
    the outcome is the same for every inactive set, given or left out. *)
Theorem all_inactive_overrides tm it it' :
  compute_score tm it true = compute_score tm it' true.
Proof.
  unfold compute_score.
  by rewrite (build_metrics_override (get it ∅) (get it' ∅)).
Qed.

(** ** More inactive threats never lower a score *)

Lemma resolves_less_inactive it a it' a' raws metrics metrics' :
  (∀ n, is_inactive it a n = true → is_inactive it' a' n = true) →
  Forall2 (resolves (get it ∅) a) raws metrics →
  Forall2 (resolves (get it' ∅) a') raws metrics' →
  Forall2 less_inactive metrics metrics'.
Proof.
  intros Hle H. revert metrics'.
  induction H as [|raw m raws metrics (Hn & Hd & Hs & _ & Ha) _ IH];
    intros metrics' H'; inversion H' as [|? m' ? ms' (Hn' & Hd' & Hs' & _ & Ha') Hrest];
    subst; constructor; [|by apply IH].
  unfold less_inactive, inactive. repeat split; [congruence..|].
  rewrite Ha, Ha', !negb_involutive.
  assert (MetricResult.name m' = MetricResult.name m) as -> by congruence.
  apply Hle.
Qed.

Lemma less_inactive_sums d metrics metrics' :
  Forall2 less_inactive metrics metrics' →
  Forall (λ m, 0 ≤ MetricResult.severity m) metrics →
  dim_maximum d metrics' = dim_maximum d metrics ∧
  dim_current d metrics ≤ dim_current d metrics'.
Proof.
  induction 1 as [|m m' l l' (Hd & Hs & Hi) _ IH]; intros Hpos; [done|].
  apply Forall_cons in Hpos as [Hm Hpos]. destruct (IH Hpos) as [IH1 IH2].
  rewrite !dim_maximum_cons, !dim_current_cons, IH1. unfold in_dimension.
  rewrite <- Hd, <- Hs. split; [done|].
  destruct (bool_decide _); cbn [andb]; [|lia].
  destruct (inactive m); [by rewrite Hi; [lia|]|].
  destruct (inactive m'); lia.
Qed.

Lemma less_inactive_count metrics metrics' :
  Forall2 less_inactive metrics metrics' →
  count_if (λ m, negb (MetricResult.active m)) metrics
  ≤ count_if (λ m, negb (MetricResult.active m)) metrics'.
Proof.
  rewrite !count_if_length.
  induction 1 as [|m m' l l' (_ & _ & Hi) _ IH]; [done|].
  cbn [List.filter]. unfold inactive in Hi.
  destruct (negb (MetricResult.active m)).
  - rewrite Hi by done. cbn [length]. lia.
  - destruct (negb (MetricResult.active m')); cbn [length]; lia.
Qed.

Lemma dimension_score_mono c c' mx :
  c ≤ c' → dimension_score c mx ≤ dimension_score c' mx.
Proof.
  intros Hc. unfold dimension_score.
  destruct (Z.ltb_spec 0 mx); [|done]. apply Z.div_le_mono; lia.
Qed.

Lemma overall_score_mono c c' mx :
  c ≤ c' → overall_score c mx ≤ overall_score c' mx.
Proof.
  intros Hc. unfold overall_score.
  destruct (Z.ltb_spec 0 mx); [|done]. apply Z.div_le_mono; lia.
Qed.

Lemma stars_of_mono o o' f f' :
  0 ≤ o ≤ o' → o' ≤ 100 →
  stars_of o = Ok f → stars_of o' = Ok f' → SFleb f f' = true.
Proof.
  intros Ho Ho' Hf Hf'.
  assert (forallb (λ n,
            forallb (λ k, match stars_of (Z.of_nat n),
                                stars_of (Z.of_nat (n + k)) with
                          | Ok f, Ok f' => SFleb f f'
                          | _, _ => false
                          end) (seq 0 (101 - n))) (seq 0 101) = true) as H
    by (vm_compute; reflexivity).
  rewrite forallb_forall in H.
  assert (In (Z.to_nat o) (seq 0 101)) as Hin by (apply in_seq; lia).
  specialize (H _ Hin). rewrite forallb_forall in H.
  assert (In (Z.to_nat (o' - o)) (seq 0 (101 - Z.to_nat o))) as Hin'
    by (apply in_seq; lia).
  specialize (H _ Hin').
  replace (Z.of_nat (Z.to_nat o + Z.to_nat (o' - o))) with o' in H by lia.
  rewrite Z2Nat.id, Hf, Hf' in H by lia. exact H.
Qed.

(** X5. The scores are monotone in the check results.  With severities
    that are not negative, if every threat that counts as inactive in one
    run counts as inactive in a second run on the same document, then in
    the second run no dimension score, nor [overall], [stars] or the
    number of inactive threats is lower; the maxima are the same. *)
Theorem more_inactive_not_lower tm it a it' a' r r' :
  nonneg_severities tm →
  (∀ n, is_inactive it a n = true → is_inactive it' a' n = true) →
  compute_score tm it a = Ok r →
  compute_score tm it' a' = Ok r' →
  ScoreResult.overall r ≤ ScoreResult.overall r' ∧
  SFleb (ScoreResult.stars r) (ScoreResult.stars r') = true ∧
  ScoreResult.inactive_threats r ≤ ScoreResult.inactive_threats r' ∧
  ScoreResult.active_threats r' ≤ ScoreResult.active_threats r ∧
  ∀ d ds ds', ScoreResult.dimensions r !! d = Some ds →
    ScoreResult.dimensions r' !! d = Some ds' →
    DimensionScore.maximum ds' = DimensionScore.maximum ds ∧
    DimensionScore.current ds ≤ DimensionScore.current ds' ∧
    DimensionScore.score ds ≤ DimensionScore.score ds'.
Proof.
  intros Hsv Hle H H'.
  pose proof (compute_score_resolves _ _ _ _ H) as Hres.
  pose proof (compute_score_resolves _ _ _ _ H') as Hres'.
  pose proof (resolves_nonneg _ _ _ _ Hres Hsv) as Hpos.
  pose proof (resolves_less_inactive _ _ _ _ _ _ _ Hle Hres Hres') as Hless.
  pose proof (λ d, less_inactive_sums d _ _ Hless Hpos) as Hsums.
  pose proof (less_inactive_count _ _ Hless) as Hcount.
  pose proof (Forall2_length _ _ _ Hless) as Hlen.
  pose proof (scores_in_range_aux tm it a r Hsv H) as Hrange.
  pose proof (scores_in_range_aux tm it' a' r' Hsv H') as Hrange'.
  pose proof (overall_and_stars_aux _ _ _ _ H) as Hstars.
  pose proof (overall_and_stars_aux _ _ _ _ H') as Hstars'.
  destruct (compute_score_dimensions _ _ _ _ H) as (Hin & Hout & Hov).
  destruct (compute_score_dimensions _ _ _ _ H') as (Hin' & Hout' & Hov').
  set (ms := ScoreResult.metrics r) in *.
  set (ms' := ScoreResult.metrics r') in *.
  assert (ScoreResult.overall r ≤ ScoreResult.overall r') as Hoverall.
  { rewrite Hov, Hov'.
    rewrite (sum_dimensions_unfold DimensionScore.current
               (ScoreResult.dimensions r) (λ d, dim_current d ms)),
      (sum_dimensions_unfold DimensionScore.maximum
         (ScoreResult.dimensions r) (λ d, dim_maximum d ms)),
      (sum_dimensions_unfold DimensionScore.current
         (ScoreResult.dimensions r') (λ d, dim_current d ms')),
      (sum_dimensions_unfold DimensionScore.maximum
         (ScoreResult.dimensions r') (λ d, dim_maximum d ms)).
    - apply overall_score_mono.
      pose proof (Hsums "network"). pose proof (Hsums "system services").
      pose proof (Hsums "system integrity"). pose proof (Hsums "credentials").
      pose proof (Hsums "applications"). lia.
    - intros d Hd. rewrite (Hin' d Hd). eexists. split; [done|].
      apply Hsums.
    - intros d Hd. rewrite (Hin' d Hd). by eexists.
    - intros d Hd. rewrite (Hin d Hd). by eexists.
    - intros d Hd. rewrite (Hin d Hd). by eexists. }
  split; [done|]. split.
  { eapply stars_of_mono; [| |exact Hstars|exact Hstars']; lia. }
  apply compute_score_Ok in H
    as (metrics & acc & dims & oc & om & stars & comp
        & _ & _ & _ & _ & _ & ->).
  apply compute_score_Ok in H'
    as (metrics' & acc' & dims' & oc' & om' & stars' & comp'
        & _ & _ & _ & _ & _ & ->).
  cbn [ScoreResult.metrics ScoreResult.dimensions ScoreResult.overall
       ScoreResult.stars ScoreResult.compliance ScoreResult.total_metrics
       ScoreResult.active_threats ScoreResult.inactive_threats] in *.
  subst ms ms'.
  cbn [ScoreResult.metrics] in *.
  split; [done|]. split.
  { pose proof (filter_partition_length MetricResult.active metrics) as P.
    pose proof (filter_partition_length MetricResult.active metrics') as P'.
    rewrite !count_if_length in *. lia. }
  intros d ds ds' Hds Hds'. destruct (decide (d ∈ DIMENSIONS)) as [Hd|Hd].
  2:{ by rewrite (Hout d Hd) in Hds. }
  rewrite (Hin d Hd) in Hds. rewrite (Hin' d Hd) in Hds'.
  injection Hds as <-. injection Hds' as <-.
  cbn [DimensionScore.current DimensionScore.maximum DimensionScore.score].
  destruct (Hsums d) as [Hmx Hc]. rewrite Hmx.
  split; [done|]. split; [done|]. by apply dimension_score_mono.
Qed.

(** ** The overall score over the metrics *)

Lemma compute_score_known_dimensions tm it a r :
  compute_score tm it a = Ok r →
  Forall (λ m, MetricResult.dimension m ∈ DIMENSIONS) (ScoreResult.metrics r).
Proof.
  intros H. apply compute_score_Ok in H
    as (metrics & acc & dims & oc & om & stars & comp
        & _ & Hacc & _ & _ & _ & ->).
  cbn [ScoreResult.metrics]. apply accum_loop_known in Hacc.
  eapply Forall_impl; [exact Hacc|]. intros m [cm Hm].
  rewrite dim_accum_init_lookup in Hm. by destruct (decide _).
Qed.

Lemma foldr_sum_add {A : Type} (f g : A → Z) (l : list A) :
  foldr (λ d s, (f d + g d) + s) 0 l
  = foldr (λ d s, f d + s) 0 l + foldr (λ d s, g d + s) 0 l.
Proof. induction l as [|x l IH]; cbn [foldr]; lia. Qed.

Lemma foldr_sum_single (x : string) (b : bool) (v : Z) (l : list string) :
  NoDup l →
  foldr (λ d s, (if bool_decide (x = d) && b then v else 0) + s) 0 l
  = if bool_decide (x ∈ l) && b then v else 0.
Proof.
  induction 1 as [|d l Hd _ IH]; cbn [foldr].
  - rewrite bool_decide_eq_false_2; [done|]. apply not_elem_of_nil.
  - rewrite IH. destruct (decide (x = d)) as [->|Hne].
    + rewrite !(bool_decide_eq_true_2 (d = d)) by done.
      rewrite (bool_decide_eq_true_2 (d ∈ d :: l)) by left.
      rewrite (bool_decide_eq_false_2 (d ∈ l)) by done.
      cbn [andb]. lia.
    + rewrite (bool_decide_eq_false_2 (x = d)) by done. cbn [andb].
      destruct (decide (x ∈ l)).
      * rewrite !bool_decide_eq_true_2; [done| |done]. by right.
      * rewrite !bool_decide_eq_false_2; [done| |done].
        intros [->|?]%elem_of_cons; done.
Qed.

Lemma sum_over_dimensions (p : MetricResult.t → bool) metrics :
  Forall (λ m, MetricResult.dimension m ∈ DIMENSIONS) metrics →
  foldr (λ d s, sum_severity
                  (List.filter (λ m, in_dimension d m && p m) metrics) + s)
        0 DIMENSIONS
  = sum_severity (List.filter p metrics).
Proof.
  assert (NoDup DIMENSIONS) as Hnodup
    by (apply (bool_decide_unpack (NoDup DIMENSIONS)); vm_compute; exact I).
  induction 1 as [|m l Hm _ IH].
  { unfold DIMENSIONS. reflexivity. }
  transitivity
    (foldr (λ d s,
              ((if bool_decide (MetricResult.dimension m = d) && p m
                then MetricResult.severity m else 0)
               + sum_severity
                   (List.filter (λ m, in_dimension d m && p m) l)) + s)
           0 DIMENSIONS).
  { apply foldr_ext; [|done..]. intros d s. f_equal.
    cbn [List.filter]. unfold in_dimension at 1.
    destruct (_ && _); [by rewrite sum_severity_cons | lia]. }
  rewrite foldr_sum_add, IH, (foldr_sum_single _ _ _ _ Hnodup).
  rewrite (bool_decide_eq_true_2 _ Hm). cbn [andb List.filter].
  destruct (p m); [by rewrite sum_severity_cons | lia].
Qed.

(** X6. Every metric counts once in the overall score.  The sums behind
    [overall] are sums over the returned metrics: [overall] is
    [100 * (total inactive severity) // (total severity)] when the total
    severity is positive, and 0 otherwise. *)
Theorem overall_over_metrics tm it a r :
  compute_score tm it a = Ok r →
  sum_dimensions DimensionScore.maximum (ScoreResult.dimensions r)
  = sum_severity (ScoreResult.metrics r) ∧
  sum_dimensions DimensionScore.current (ScoreResult.dimensions r)
  = sum_severity (List.filter inactive (ScoreResult.metrics r)) ∧
  ScoreResult.overall r
  = overall_score (sum_severity (List.filter inactive (ScoreResult.metrics r)))
                  (sum_severity (ScoreResult.metrics r)).
Proof.
  intros H.
  pose proof (compute_score_known_dimensions _ _ _ _ H) as Hknown.
  destruct (compute_score_dimensions _ _ _ _ H) as (Hin & Hout & Hov).
  set (ms := ScoreResult.metrics r) in *.
  assert (sum_dimensions DimensionScore.maximum (ScoreResult.dimensions r)
          = sum_severity ms) as Hmax.
  { rewrite (sum_dimensions_unfold _ _ (λ d, dim_maximum d ms)).
    2:{ intros d Hd. rewrite (Hin d Hd). by eexists. }
    pose proof (sum_over_dimensions (λ _, true) ms Hknown) as S.
    unfold DIMENSIONS in S. cbn [foldr] in S.
    rewrite (filter_all (λ _, true) ms) in S by done. rewrite <- S.
    unfold dim_maximum.
    repeat match goal with
    | |- context [List.filter (in_dimension ?d) ms] =>
        rewrite (List.filter_ext (in_dimension d)
                   (λ m, in_dimension d m && true))
          by (intros m; by rewrite andb_true_r)
    end.
    reflexivity. }
  assert (sum_dimensions DimensionScore.current (ScoreResult.dimensions r)
          = sum_severity (List.filter inactive ms)) as Hcur.
  { rewrite (sum_dimensions_unfold _ _ (λ d, dim_current d ms)).
    2:{ intros d Hd. rewrite (Hin d Hd). by eexists. }
    pose proof (sum_over_dimensions inactive ms Hknown) as S.
    unfold DIMENSIONS in S. cbn [foldr] in S. rewrite <- S. reflexivity. }
  by rewrite Hov, Hmax, Hcur.
Qed.

(** ** Exceptions and the check results *)

Lemma build_metric_status s a s' a' raw :
  match build_metric s a raw with
  | Ok m => ∃ m', build_metric s' a' raw = Ok m' ∧
                  MetricResult.dimension m = MetricResult.dimension m'
  | Raise e => build_metric s' a' raw = Raise e
  end.
Proof.
  unfold build_metric.
  destruct (raw_name raw), (raw_dimension raw), (raw_severity raw); cbn;
    try done.
  by eexists.
Qed.

Lemma build_metrics_status s a s' a' raws :
  match build_metrics s a raws with
  | Ok ms => ∃ ms', build_metrics s' a' raws = Ok ms' ∧
      Forall2 (λ m m', MetricResult.dimension m = MetricResult.dimension m')
              ms ms'
  | Raise e => build_metrics s' a' raws = Raise e
  end.
Proof.
  induction raws as [|raw raws IH]; [by exists []|].
  rewrite !build_metrics_cons.
  pose proof (build_metric_status s a s' a' raw) as H1.
  destruct (build_metric s a raw) as [m|e].
  2:{ by rewrite H1. }
  destruct H1 as (m' & -> & Hd). rewrite !bind_Ok_l.
  destruct (build_metrics s a raws) as [ms|e].
  2:{ by rewrite IH. }
  destruct IH as (ms' & -> & Hall). exists (m' :: ms'). split; [done|].
  by constructor.
Qed.

Lemma accum_loop_status ms ms' :
  Forall2 (λ m m', MetricResult.dimension m = MetricResult.dimension m')
          ms ms' →
  ∀ acc acc' : gmap string (Z * Z), dom acc = dom acc' →
  match foldM accum_step acc ms with
  | Ok _ => ∃ x, foldM accum_step acc' ms' = Ok x
  | Raise e => foldM accum_step acc' ms' = Raise e
  end.
Proof.
  induction 1 as [|m m' ms ms' Hd _ IH]; intros acc acc' Hdom; cbn [foldM].
  { by eexists. }
  destruct (accum_step acc m) as [acc1|e] eqn:E1.
  - apply accum_step_Ok in E1 as (c & mx & E & ->).
    assert (is_Some (acc' !! MetricResult.dimension m')) as [[c' mx'] E'].
    { rewrite <- Hd. apply elem_of_dom. rewrite <- Hdom. apply elem_of_dom.
      by eexists. }
    pose proof (proj2 (accum_step_Ok acc' m' _)
                  (ex_intro _ c' (ex_intro _ mx' (conj E' eq_refl)))) as E2.
    rewrite E2, !bind_Ok_l. apply IH.
    rewrite !dom_insert_L, Hdom. by rewrite Hd.
  - apply accum_step_Raise in E1 as [E ->].
    assert (acc' !! MetricResult.dimension m' = None) as E'.
    { rewrite <- Hd. apply not_elem_of_dom. rewrite <- Hdom.
      by apply not_elem_of_dom. }
    unfold accum_step, lookup_item. rewrite E', Hd. done.
Qed.

Lemma accum_then_score metrics acc :
  foldM accum_step dim_accum_init metrics = Ok acc →
  ∃ st, foldM (score_step acc) (∅, 0, 0) DIMENSIONS = Ok st.
Proof.
  intros Hacc. apply score_loop_total, Forall_forall. intros d Hd.
  rewrite (accum_loop_Ok _ _ _ Hacc d), dim_accum_init_lookup.
  by destruct (decide _).
Qed.

(** X7. A [KeyError] is a property of the document alone.  If
    [compute_score] raises [KeyError] for one choice of the inactive set
    and the override flag, it raises the same [KeyError] for every
    choice. *)
Theorem key_error_whatever_the_checks tm it a k :
  compute_score tm it a = Raise (KeyError k) →
  ∀ it' a', compute_score tm it' a' = Raise (KeyError k).
Proof.
  intros H it' a'. unfold compute_score in *.
  pose proof (build_metrics_status (get it ∅) a (get it' ∅) a'
                (get (tm_metrics tm) [])) as Hb.
  destruct (build_metrics (get it ∅) a _) as [ms|e].
  2:{ rewrite Hb. exact H. }
  destruct Hb as (ms' & -> & Hall). rewrite bind_Ok_l in H |- *.
  pose proof (accum_loop_status _ _ Hall dim_accum_init dim_accum_init eq_refl)
    as Ha.
  destruct (foldM accum_step dim_accum_init ms) as [acc|e] eqn:Hacc.
  2:{ rewrite Ha. exact H. }
  exfalso. rewrite bind_Ok_l in H.
  destruct (accum_then_score _ _ Hacc) as ([[dims oc] om] & Hs).
  rewrite Hs, bind_Ok_l in H.
  apply bind_Raise in H as [H|(stars & _ & H)].
  { by apply stars_of_Raise in H. }
  apply bind_Raise in H as [H|(comp & _ & H)]; [|done].
  by apply compliance_loop_Raise in H.
Qed.

(** ** The order of the metrics *)

Lemma resolves_Permutation s a raws raws' metrics :
  raws ≡ₚ raws' →
  Forall2 (resolves s a) raws metrics →
  ∃ metrics', metrics' ≡ₚ metrics ∧ Forall2 (resolves s a) raws' metrics'.
Proof.
  intros Hp. revert metrics.
  induction Hp as [|x l l' _ IH|x y l|l l' l'' _ IH1 _ IH2]; intros metrics H.
  - inversion H; subst. by exists [].
  - inversion H as [|? m ? ms Hm Hrest]; subst.
    destruct (IH _ Hrest) as (ms' & Hp' & H'). exists (m :: ms').
    split; [by constructor | by constructor].
  - inversion H as [|? m1 ? ms1 Hm1 Hrest1]; subst.
    inversion Hrest1 as [|? m2 ? ms2 Hm2 Hrest2]; subst.
    exists (m2 :: m1 :: ms2). split; [apply perm_swap|].
    constructor; [done|]. by constructor.
  - destruct (IH1 _ H) as (ms' & Hp' & H').
    destruct (IH2 _ H') as (ms'' & Hp'' & H'').
    exists ms''. split; [by etrans|done].
Qed.

Lemma filter_Permutation_std {A : Type} (f : A → bool) (l l' : list A) :
  l ≡ₚ l' → List.filter f l ≡ₚ List.filter f l'.
Proof.
  induction 1 as [|x l l' _ IH|x y l|l l' l'' _ IH1 _ IH2]; cbn [List.filter].
  - done.
  - destruct (f x); [by constructor|done].
  - destruct (f x), (f y); try done. apply perm_swap.
  - by etrans.
Qed.

Lemma sum_severity_Permutation l l' :
  l ≡ₚ l' → sum_severity l = sum_severity l'.
Proof.
  induction 1 as [|x l l' _ IH|x y l|l l' l'' _ IH1 _ IH2];
    rewrite ?sum_severity_cons; [done|lia|lia|congruence].
Qed.

Lemma tag_pairs_Permutation l l' : l ≡ₚ l' → tag_pairs l ≡ₚ tag_pairs l'.
Proof.
  induction 1 as [|x l l' _ IH|x y l|l l' l'' _ IH1 _ IH2];
    rewrite ?tag_pairs_cons.
  - done.
  - by apply Permutation_app.
  - rewrite !(assoc app). apply Permutation_app; [|done].
    apply Permutation_app_comm.
  - by etrans.
Qed.

Lemma count_tag_Permutation p l l' :
  l ≡ₚ l' → count_tag p l = count_tag p l'.
Proof.
  intros Hp. rewrite !count_tag_spec. unfold total_for, compliant_for.
  pose proof (tag_pairs_Permutation _ _ Hp) as Hpairs.
  by rewrite (Permutation_length (filter_Permutation_std _ _ _ Hpairs)),
    (Permutation_length
       (filter_Permutation_std (λ mt, String.prefix p mt.2 && inactive mt.1)
          _ _ Hpairs)).
Qed.

Lemma collect_prefixes_Permutation l l' :
  l ≡ₚ l' → collect_prefixes l = collect_prefixes l'.
Proof.
  intros Hp. apply set_eq. intros p. rewrite !collect_prefixes_elem.
  unfold observed_prefix.
  split; intros (m & t & Hm & Ht); exists m, t; split; try done.
  - by rewrite <- Hp.
  - by rewrite Hp.
Qed.

Lemma foldM_ext {A S : Type} (f g : S → A → result S) (s : S) (l : list A) :
  (∀ s x, f s x = g s x) → foldM f s l = foldM g s l.
Proof.
  intros H. revert s. induction l as [|x l IH]; intros s; cbn [foldM];
    [done|].
  rewrite H. destruct (g s x); [|done]. rewrite !bind_Ok_l. apply IH.
Qed.

(** X8. The order of the metrics in the document does not matter.  On
    a document whose metric list is rearranged, [compute_score] returns the
    same result, except that the returned metric list is rearranged as
    well. *)
Theorem metric_order_irrelevant tm raws' it a r :
  get (tm_metrics tm) [] ≡ₚ raws' →
  compute_score tm it a = Ok r →
  ∃ metrics', metrics' ≡ₚ ScoreResult.metrics r ∧
    compute_score (with_metrics tm raws') it a = Ok (set_metrics metrics' r).
Proof.
  intros Hp H. apply compute_score_Ok in H
    as (metrics & acc & dims & oc & om & stars & comp
        & Hb & Hacc & Hscore & Hstars & Hcomp & ->).
  cbn [ScoreResult.metrics]. apply build_metrics_Ok in Hb.
  destruct (resolves_Permutation _ _ _ _ _ Hp Hb) as (metrics' & Hpm & Hb').
  exists metrics'. split; [done|].
  assert (foldM accum_step dim_accum_init metrics' = Ok acc) as Hacc'.
  { destruct (accum_loop_total metrics' dim_accum_init) as (acc' & Hacc').
    { rewrite Hpm. by eapply accum_loop_known. }
    rewrite Hacc'. f_equal. apply map_eq. intros d.
    rewrite (accum_loop_Ok _ _ _ Hacc d), (accum_loop_Ok _ _ _ Hacc' d).
    unfold dim_current, dim_maximum.
    by rewrite (sum_severity_Permutation _ _
                  (filter_Permutation_std (in_dimension d) _ _ Hpm)),
      (sum_severity_Permutation _ _
         (filter_Permutation_std (λ m, in_dimension d m && inactive m)
            _ _ Hpm)). }
  assert (foldM (compliance_step metrics') ∅
            (sorted (collect_prefixes metrics')) = Ok comp) as Hcomp'.
  { rewrite (collect_prefixes_Permutation _ _ Hpm), <- Hcomp.
    apply foldM_ext. intros c p. unfold compliance_step.
    by rewrite (count_tag_Permutation p _ _ Hpm). }
  rewrite (compute_score_intro (with_metrics tm raws') it a metrics' acc dims
             oc om stars comp); [|by apply build_metrics_Ok|done..].
  unfold set_metrics. cbn. f_equal. f_equal.
  - by rewrite (Permutation_length Hpm).
  - rewrite !count_if_length.
    by rewrite (Permutation_length (filter_Permutation_std _ _ _ Hpm)).
  - rewrite !count_if_length.
    by rewrite (Permutation_length (filter_Permutation_std _ _ _ Hpm)).
Qed.

(** ** The compliance entries *)

Lemma is_tag_prefix_no_comma p t : is_tag_prefix p t → no_comma p.
Proof. by intros [[? ->]|[? _]]. Qed.

(** X9. The counts of a compliance entry.  Every entry of the result
    is filed under its own tag, a prefix without separator; it counts at
    least one tag, and never more compliant tags than tags. *)
Theorem compliance_counts tm it a r p c :
  compute_score tm it a = Ok r →
  ScoreResult.compliance r !! p = Some c →
  ComplianceResult.tag c = p ∧ no_comma p ∧
  1 ≤ ComplianceResult.total c ∧
  0 ≤ ComplianceResult.compliant c ≤ ComplianceResult.total c ∧
  ComplianceResult.total c
  ≤ Z.of_nat (length (tag_pairs (ScoreResult.metrics r))).
Proof.
  intros H Hc. pose proof (compute_score_compliance _ _ _ _ H p) as Hp.
  rewrite Hc in Hp. destruct Hp as [Hobs (Htag & Hcompl & Htotal & _)].
  split; [done|]. split.
  { destruct Hobs as (m & t & _ & _ & Hpre).
    by eapply is_tag_prefix_no_comma. }
  rewrite Hcompl, Htotal.
  pose proof (observed_prefix_total _ _ Hobs).
  pose proof (compliant_le_total p (ScoreResult.metrics r)).
  pose proof (total_for_le p (ScoreResult.metrics r)). lia.
Qed.

(** * The text report *)

Lemma insert_sorted_Permutation {A : Type} (le : A → A → bool) x (l : list A) :
  insert_sorted le x l ≡ₚ x :: l.
Proof.
  induction l as [|y l IH]; cbn [insert_sorted]; [done|].
  destruct (le x y); [done|]. rewrite IH. apply perm_swap.
Qed.

Lemma sorted_by_Permutation {A : Type} (le : A → A → bool) (l : list A) :
  sorted_by le l ≡ₚ l.
Proof.
  induction l as [|x l IH]; [done|]. unfold sorted_by in *. cbn [foldr].
  by rewrite insert_sorted_Permutation, IH.
Qed.

Lemma insert_sorted_Sorted {A : Type} (le : A → A → bool) x (l : list A) :
  (∀ x y, le x y = true ∨ le y x = true) →
  Sorted (λ x y, le x y = true) l →
  Sorted (λ x y, le x y = true) (insert_sorted le x l).
Proof.
  intros Htotal. induction 1 as [|y l Hl IH Hy]; cbn [insert_sorted].
  { by repeat constructor. }
  destruct (le x y) eqn:E.
  - constructor; [by constructor|]. by constructor.
  - constructor; [done|]. destruct l as [|z l]; cbn [insert_sorted].
    + constructor. destruct (Htotal x y); congruence.
    + destruct (le x z).
      * constructor. destruct (Htotal x y); congruence.
      * constructor. by inversion Hy.
Qed.

Lemma sorted_by_Sorted {A : Type} (le : A → A → bool) (l : list A) :
  (∀ x y, le x y = true ∨ le y x = true) →
  Sorted (λ x y, le x y = true) (sorted_by le l).
Proof.
  intros Htotal. induction l as [|x l IH]; [constructor|].
  unfold sorted_by in *. cbn [foldr]. by apply insert_sorted_Sorted.
Qed.

Lemma by_severity_then_name_total x y :
  by_severity_then_name x y = true ∨ by_severity_then_name y x = true.
Proof.
  unfold by_severity_then_name.
  destruct (Z.ltb_spec (- MetricResult.severity x) (- MetricResult.severity y));
    [by left|].
  destruct (Z.ltb_spec (- MetricResult.severity y) (- MetricResult.severity x));
    [by right|].
  rewrite !(proj2 (Z.eqb_eq _ _)) by lia. cbn [orb andb]. apply String.leb_total.
Qed.

Lemma by_severity_then_name_spec x y :
  by_severity_then_name x y = true →
  MetricResult.severity y ≤ MetricResult.severity x ∧
  (MetricResult.severity x = MetricResult.severity y →
   String.leb (MetricResult.name x) (MetricResult.name y) = true).
Proof.
  unfold by_severity_then_name. intros H.
  apply orb_true_iff in H as [H|H].
  - apply Z.ltb_lt in H. split; lia.
  - apply andb_true_iff in H as [H1 H2]. apply Z.eqb_eq in H1. split; [lia|done].
Qed.

(** X11. Both reports list the threats from the most to the least severe,
    threats of equal severity next to each other by name, and every metric
    of the result once. *)
Theorem threats_by_severity (metrics : list MetricResult.t) :
  let listed := sorted_by by_severity_then_name metrics in
  listed ≡ₚ metrics ∧
  StronglySorted (λ x y, MetricResult.severity y ≤ MetricResult.severity x)
                 listed ∧
  Sorted (λ x y, MetricResult.severity x = MetricResult.severity y →
                 String.leb (MetricResult.name x) (MetricResult.name y) = true)
         listed.
Proof.
  intros listed. split; [apply sorted_by_Permutation|].
  pose proof (sorted_by_Sorted by_severity_then_name metrics
                by_severity_then_name_total) as Hs.
  fold listed in Hs. split.
  - apply Sorted_StronglySorted.
    { intros x y z Hxy Hyz. lia. }
    induction Hs as [|x l _ IH Hx]; constructor; [done|].
    destruct Hx as [|y l Hxy]; constructor.
    by apply by_severity_then_name_spec in Hxy as [? _].
  - induction Hs as [|x l _ IH Hx]; constructor; [done|].
    destruct Hx as [|y l Hxy]; constructor.
    by apply by_severity_then_name_spec in Hxy as [_ ?].
Qed.

(** The star bar that belongs to an overall score. *)
Lemma star_display_of_overall overall :
  0 ≤ overall ≤ 100 →
  ∃ f, stars_of overall = Ok f ∧
    star_display f
    = Done (str_repeat "*" (overall / 20)
            +:+ (if 10 <=? overall mod 20 then "+" else "")
            +:+ str_repeat "." (5 - overall / 20
                                - (if 10 <=? overall mod 20 then 1 else 0))) ∧
    ∀ bar, star_display f = Done bar → String.length bar = 5%nat.
Proof.
  intros Ho.
  assert (forallb (λ n,
            let o := Z.of_nat n in
            match stars_of o with
            | Ok f =>
                match star_display f with
                | Done bar =>
                    String.eqb bar
                      (str_repeat "*" (o / 20)
                       +:+ (if 10 <=? o mod 20 then "+" else "")
                       +:+ str_repeat "." (5 - o / 20
                             - (if 10 <=? o mod 20 then 1 else 0)))
                    && Nat.eqb (String.length bar) 5
                | Raised _ => false
                end
            | Raise _ => false
            end) (seq 0 101) = true) as H
    by (vm_compute; reflexivity).
  rewrite forallb_forall in H. specialize (H (Z.to_nat overall)).
  cbv zeta in H. rewrite Z2Nat.id in H by lia.
  destruct (stars_of overall) as [f|e].
  2:{ discriminate H. apply in_seq. lia. }
  exists f. split; [done|].
  destruct (star_display f) as [bar|e].
  2:{ discriminate H. apply in_seq. lia. }
  apply andb_true_iff in H as [H1 H2]; [|apply in_seq; lia].
  apply String.eqb_eq in H1. apply Nat.eqb_eq in H2. split; [by rewrite H1|].
  by intros ? [= <-].
Qed.

(** X12. The star bar of a computed score.  With severities that are not
    negative the bar of the text report has one star for every 20 points
    of [overall], a [+] when 10 points or more remain, and dots up to a
    width of five characters; building it raises no exception. *)
Theorem star_bar_of_score tm it a r :
  nonneg_severities tm →
  compute_score tm it a = Ok r →
  let filled := ScoreResult.overall r / 20 in
  let half := if 10 <=? ScoreResult.overall r mod 20 then 1 else 0 in
  ∃ bar, star_display (ScoreResult.stars r) = Done bar ∧
    bar = str_repeat "*" filled +:+ (if half =? 0 then "" else "+")
          +:+ str_repeat "." (5 - filled - half) ∧
    String.length bar = 5%nat.
Proof.
  intros Hsv H filled half.
  pose proof (scores_in_range_aux _ _ _ _ Hsv H) as Hrange.
  pose proof (overall_and_stars_aux _ _ _ _ H) as Hstars.
  destruct (star_display_of_overall _ Hrange) as (f & Hf & Hbar & Hlen).
  rewrite Hstars in Hf. injection Hf as <-.
  eexists. split; [exact Hbar|]. split; [|by apply Hlen].
  subst filled half. by destruct (10 <=? _).
Qed.

Lemma mapM_outcome_total {A B : Type} (f : A → outcome B) (l : list A) :
  Forall (λ x, ∃ y, f x = Done y) l →
  ∃ ys, mapM f l = Done ys ∧ length ys = length l.
Proof.
  induction 1 as [|x l [y Hy] _ (ys & IH & Hlen)]; [by exists []|].
  exists (y :: ys). cbn [mapM]. rewrite Hy, IH. cbn. by rewrite Hlen.
Qed.

(** The lines of the text report of a computed score. *)
Lemma report_lines_of_score tm it a r :
  nonneg_severities tm →
  compute_score tm it a = Ok r →
  ∃ lines, report_lines r = Done lines ∧
    Z.of_nat (length lines)
    = 17 + ScoreResult.total_metrics r
      + (if decide (ScoreResult.compliance r = ∅) then 0
         else 3 + Z.of_nat (size (ScoreResult.compliance r))).
Proof.
  intros Hsv H.
  pose proof (scores_in_range_aux _ _ _ _ Hsv H) as Hrange.
  pose proof (overall_and_stars_aux _ _ _ _ H) as Hstars.
  destruct (star_display_of_overall _ Hrange) as (f & Hf & Hbar & _).
  rewrite Hstars in Hf. injection Hf as <-.
  destruct (compute_score_dimensions _ _ _ _ H) as (Hin & _ & _).
  destruct (mapM_outcome_total (dimension_line (ScoreResult.dimensions r))
              DIMENSIONS) as (dims & Hdims & Hdlen).
  { apply Forall_forall. intros d Hd. unfold dimension_line, lookup_item.
    rewrite (Hin d Hd). by eexists. }
  destruct (mapM_outcome_total (compliance_line (ScoreResult.compliance r))
              (sorted (dom (ScoreResult.compliance r))))
    as (entries & Hentries & Helen).
  { apply Forall_forall. intros p Hp. apply sorted_elem, elem_of_dom in Hp
      as [c Hc]. unfold compliance_line, lookup_item. rewrite Hc.
    by eexists. }
  assert (ScoreResult.total_metrics r
          = Z.of_nat (length (ScoreResult.metrics r))) as Htotal.
  { apply compute_score_Ok in H
      as (metrics & acc & dims' & oc & om & stars & comp
          & _ & _ & _ & _ & _ & ->). done. }
  assert (length (sorted (dom (ScoreResult.compliance r)))
          = size (ScoreResult.compliance r)) as Hsize.
  { unfold sorted. rewrite merge_sort_Permutation.
    change (length (elements ?X)) with (size X). apply size_dom. }
  unfold report_lines. rewrite Hbar, Hdims.
  cbn [mbind outcome_bind].
  destruct (decide (ScoreResult.compliance r = ∅)) as [He|Hne].
  - rewrite bool_decide_eq_true_2 by done. eexists. split; [done|].
    rewrite !length_app, length_fmap.
    rewrite (Permutation_length (sorted_by_Permutation _ _)), Hdlen, Htotal.
    unfold DIMENSIONS. cbn [length]. lia.
  - rewrite bool_decide_eq_false_2 by done. rewrite Hentries.
    cbn [mbind outcome_bind]. eexists. split; [done|].
    rewrite !length_app, length_fmap.
    rewrite (Permutation_length (sorted_by_Permutation _ _)), Hdlen, Helen,
      Hsize, Htotal.
    unfold DIMENSIONS. cbn [length]. lia.
Qed.

(** X13. The text report of a computed score.  With severities that are
    not negative [format_text_report] raises no exception on the result of
    [compute_score]: every dimension it looks up is there.  The report has
    17 fixed lines, one line per metric and, when there are compliance
    entries, three more lines and one per entry. *)
Theorem text_report_of_score tm it a r :
  nonneg_severities tm →
  compute_score tm it a = Ok r →
  ∃ lines, report_lines r = Done lines ∧
    format_text_report r = Done (String.concat newline lines) ∧
    Z.of_nat (length lines)
    = 17 + ScoreResult.total_metrics r
      + (if decide (ScoreResult.compliance r = ∅) then 0
         else 3 + Z.of_nat (size (ScoreResult.compliance r))).
Proof.
  intros Hsv H.
  destruct (report_lines_of_score _ _ _ _ Hsv H) as (lines & Hlines & Hlen).
  exists lines. split; [exact Hlines|]. split; [|exact Hlen].
  unfold format_text_report. rewrite Hlines. reflexivity.
Qed.

(** X21. The dimension lines of a computed score.  With severities that
    are not negative the text report shows a dimension as
    ["N/A (no metrics)"] exactly when it has no metrics, and with its score
    as a percentage otherwise; the line starts with the dimension's label
    in title case and ends with [current/maximum]. *)
Theorem dimension_line_of_score tm it a r d ds :
  nonneg_severities tm →
  compute_score tm it a = Ok r →
  ScoreResult.dimensions r !! d = Some ds →
  dimension_line (ScoreResult.dimensions r) d
  = Done ("  " +:+ pad_right 20 (title d) +:+ " "
          +:+ pad_left 6 (if DimensionScore.has_metrics ds
                          then pretty (DimensionScore.score ds) +:+ "%"
                          else "N/A (no metrics)")
          +:+ "  (" +:+ pretty (DimensionScore.current ds) +:+ "/"
          +:+ pretty (DimensionScore.maximum ds) +:+ ")") ∧
  title <$> DIMENSIONS
  = ["Network"; "System Services"; "System Integrity"; "Credentials";
     "Applications"].
Proof.
  intros Hsv H Hds. split; [|vm_compute; reflexivity].
  pose proof (resolves_nonneg _ _ _ _ (compute_score_resolves _ _ _ _ H) Hsv)
    as Hpos.
  destruct (compute_score_dimensions _ _ _ _ H) as (Hin & Hout & _).
  destruct (decide (d ∈ DIMENSIONS)) as [Hd|Hd].
  2:{ by rewrite (Hout d Hd) in Hds. }
  unfold dimension_line, lookup_item. rewrite Hds. cbn [getitem of_result].
  cbn [mbind outcome_bind mret outcome_ret].
  rewrite (Hin d Hd) in Hds. injection Hds as <-.
  unfold DimensionScore.has_metrics, dimension_score.
  cbn [DimensionScore.current DimensionScore.maximum DimensionScore.score
       DimensionScore.name].
  pose proof (dim_current_bounds d (ScoreResult.metrics r) Hpos) as B.
  destruct (Z.ltb_spec 0 (dim_maximum d (ScoreResult.metrics r))) as [Hm|Hm];
    [|reflexivity].
  assert (0 ≤ 100 * dim_current d (ScoreResult.metrics r)
               / dim_maximum d (ScoreResult.metrics r)) as Hs
    by (apply Z.div_pos; lia).
  destruct (Z.eqb_spec (100 * dim_current d (ScoreResult.metrics r)
                          / dim_maximum d (ScoreResult.metrics r)) (-1));
    [lia|reflexivity].
Qed.

(** * The command line *)

Lemma omap_app_events {A : Type} (f : event → option A) (t1 t2 : list event) :
  omap f (t1 ++ t2) = omap f t1 ++ omap f t2.
Proof. apply omap_app. Qed.

Lemma prefix_app (p s : string) : String.prefix p (p +:+ s) = true.
Proof.
  induction p as [|c p IH]; [by destruct s|].
  change (String c p +:+ s) with (String c (p +:+ s)).
  rewrite prefix_String. by destruct (Ascii.ascii_dec c c).
Qed.

(** X14. [fetch_threat_model] and the network.  An invalid platform
    raises [ValueError] before any request is made.  A valid one makes
    one request, to the threat model file of that platform and branch in
    the repository; [HTTPError] and [URLError] come out as
    [ConnectionError], every other outcome of the request as it is. *)
Theorem fetch_threat_model_request platform branch w :
  let run := fetch_threat_model platform branch w in
  let url := THREAT_MODEL_URL branch platform in
  (platform ∉ VALID_PLATFORMS →
     run.1 = [] ∧ ∃ msg, run.2 = Raised (ValueError msg)) ∧
  (platform ∈ VALID_PLATFORMS →
     run.1 = [Requested url "edamame-score-calculator/1.0" 30] ∧
     String.prefix
       "https://raw.githubusercontent.com/edamametechnologies/threatmodels/"
       url = true ∧
     match urlopen w url with
     | Done tm => run.2 = Done tm
     | Raised (HTTPError _) | Raised (URLError _) =>
         ∃ msg, run.2 = Raised (ConnectionError msg)
     | Raised e => run.2 = Raised e
     end) ∧
  (∀ code, run.2 ≠ Raised (HTTPError code)) ∧
  (∀ reason, run.2 ≠ Raised (URLError reason)).
Proof.
  intros run url. subst run. unfold fetch_threat_model.
  destruct (decide (platform ∈ VALID_PLATFORMS)) as [Hp|Hp].
  - rewrite bool_decide_eq_true_2 by done. cbn [negb].
    unfold try_except, io_then, emit, ask, io_raise, mbind, io_bind.
    fold url. split; [done|].
    destruct (urlopen w url) as [tm|e] eqn:E; [|destruct e]; cbn;
      (split; [intros _; split; [done|]; split;
                 [apply prefix_app | rewrite ?E; by eauto]
              | by split]).
  - rewrite bool_decide_eq_false_2 by done. cbn.
    split; [by eauto|]. by repeat split.
Qed.


(** ** The runs of [main] *)

Lemma main_run fj args w :
  main fj args w =
  match loading args w with
  | (t, Done tm) =>
      let '(t', r) :=
        (if list_threats args then
           io_then (io_for_each (get (tm_metrics tm) []) list_threat) (mret 0)
         else score_and_print fj args tm) w in
      (t ++ t', r)
  | (t, Raised (ConnectionError msg)) | (t, Raised (FileNotFoundError msg))
  | (t, Raised (JSONDecodeError msg)) =>
      (t ++ [Stderr ("Error loading threat model: " +:+ msg)], Done 1)
  | (t, Raised e) => (t, Raised e)
  end.
Proof.
  unfold main, loading, try_except, mbind, io_bind.
  destruct (match given (local_file args) with
            | Some path => load_threat_model path
            | None => fetch_threat_model (platform args) (branch args)
            end w) as [t [tm|e]].
  - cbn. rewrite app_nil_r. by destruct (list_threats args).
  - destruct e; cbn; try done;
      unfold io_then, print_err, emit, mbind, io_bind, mret, io_ret; cbn;
      by rewrite ?app_nil_r.
Qed.

Lemma score_run_intro fj args tm (inactive : gset string) w :
  (known_names ← io_lift (of_result (known_names tm));
   io_then
     (if negb (bool_decide (inactive ∖ known_names = ∅))
         && negb (all_inactive args)
      then print_err ("Warning: unknown threat names (ignored): "
                      +:+ String.concat ", " (sorted (inactive ∖ known_names)))
      else mret ())
     (result ← io_lift (of_result (compute_score tm (Some inactive)
                                     (all_inactive args)));
      report ← io_lift (if json_output args then fj result
                        else format_text_report result);
      io_then (print report) (mret 0))) w
  = score_run fj args tm inactive.
Proof.
  unfold score_run, warning, io_then, io_lift, print, print_err, emit, mbind,
    io_bind, mret, io_ret.
  destruct (known_names tm) as [known|e]; cbn; [|done].
  destruct (negb (bool_decide (inactive ∖ known = ∅))
            && negb (all_inactive args)); cbn;
    destruct (compute_score tm (Some inactive) (all_inactive args))
      as [r|e]; cbn; try done;
    destruct (if json_output args then fj r else format_text_report r);
    cbn; done.
Qed.

Lemma score_and_print_run fj args tm w :
  score_and_print fj args tm w =
  match given (checks_file args) with
  | None =>
      score_run fj args tm (list_to_set (inactive_names args))
  | Some path =>
      match load_checks_file path w with
      | (t, Done more) =>
          let '(t', r) :=
            score_run fj args tm (list_to_set (inactive_names args) ∪ more) in
          (t ++ t', r)
      | (t, Raised (FileNotFoundError msg)) | (t, Raised (JSONDecodeError msg))
      | (t, Raised (ValueError msg)) | (t, Raised (UnicodeDecodeError msg)) =>
          (t ++ [Stderr ("Error loading checks file: " +:+ msg)], Done 1)
      | (t, Raised e) => (t, Raised e)
      end
  end.
Proof.
  unfold score_and_print.
  destruct (given (checks_file args)) as [path|].
  - unfold try_except. unfold mbind at 1. unfold io_bind at 1.
    unfold mbind at 1. unfold io_bind at 1.
    destruct (load_checks_file path w) as [t [more|e]].
    + cbn [mret io_ret]. rewrite app_nil_r.
      rewrite (score_run_intro fj args tm _ w). done.
    + destruct e; cbn; try done;
        unfold io_then, print_err, emit, mbind, io_bind, mret, io_ret; cbn;
        by rewrite ?app_nil_r.
  - unfold mbind at 1. unfold io_bind at 1. cbn [mret io_ret].
    rewrite (score_run_intro fj args tm _ w).
    rewrite (right_id_L ∅ (∪)). by destruct (score_run _ _ _ _).
Qed.

Lemma load_checks_file_trace path w :
  (load_checks_file path w).1 = [Opened path].
Proof.
  unfold load_checks_file, io_then, emit, ask, io_raise, mbind, io_bind,
    mret, io_ret.
  destruct (open_checks w path) as [[names|d|]|e]; cbn; try done.
  by destruct (d !! "inactive").
Qed.

Lemma loading_trace args w :
  stdout_of (loading args w).1 = [] ∧ stderr_of (loading args w).1 = [] ∧
  match given (local_file args) with
  | Some path =>
      (loading args w).1 = [Opened path]
  | None =>
      opened_of (loading args w).1 = [] ∧
      if decide (platform args ∈ VALID_PLATFORMS) then
        requested_of (loading args w).1
        = [THREAT_MODEL_URL (branch args) (platform args)]
      else (loading args w).1 = [] ∧
           ∃ msg, (loading args w).2 = Raised (ValueError msg)
  end.
Proof.
  unfold loading. destruct (given (local_file args)) as [path|].
  - unfold load_threat_model, io_then, emit, ask, mbind, io_bind.
    by destruct (open_model w path).
  - unfold fetch_threat_model.
    destruct (decide (platform args ∈ VALID_PLATFORMS)) as [Hp|Hp].
    + rewrite bool_decide_eq_true_2 by done. cbn [negb].
      unfold try_except, io_then, emit, ask, io_raise, mbind, io_bind.
      destruct (urlopen w _) as [tm|e]; [|destruct e]; by cbn.
    + rewrite bool_decide_eq_false_2 by done. cbn. by eauto 10.
Qed.

(** The runs of the loop of the [--list-threats] mode. *)
Lemma list_threats_run (metrics : list RawMetric) w :
  ∃ lines, (io_for_each metrics list_threat w).1 = Stdout <$> lines ∧
    ((io_for_each metrics list_threat w).2 = Done () ∧
     length lines = length metrics ∨
     (∃ k, (io_for_each metrics list_threat w).2 = Raised (CoreError (KeyError k)))
     ∧ Exists lacks_required metrics).
Proof.
  induction metrics as [|m metrics (lines & Ht & IH)].
  { exists []. split; [done|]. by left. }
  cbn [io_for_each]. unfold io_then, mbind, io_bind.
  unfold list_threat at 1 3 5.
  unfold io_lift, print, emit, mbind, io_bind.
  destruct (raw_dimension m) as [d|] eqn:Ed; cbn.
  2:{ exists []. split; [done|]. right. split; [by eexists|]. left.
      unfold lacks_required. tauto. }
  destruct (raw_severity m) as [sv|] eqn:Es; cbn.
  2:{ exists []. split; [done|]. right. split; [by eexists|]. left.
      unfold lacks_required. tauto. }
  destruct (raw_name m) as [n|] eqn:En; cbn.
  2:{ exists []. split; [done|]. right. split; [by eexists|]. left.
      unfold lacks_required. tauto. }
  destruct (io_for_each metrics list_threat w) as [t r]. cbn in *.
  eexists (_ :: lines). rewrite Ht. split; [done|].
  destruct IH as [[-> Hlen]|[Hk Hex]].
  - left. cbn. by rewrite Hlen.
  - right. split; [done|]. by right.
Qed.

Lemma omap_Stdout (lines : list string) :
  stdout_of (Stdout <$> lines) = lines ∧ stderr_of (Stdout <$> lines) = [] ∧
  opened_of (Stdout <$> lines) = [] ∧ requested_of (Stdout <$> lines) = [].
Proof.
  unfold stdout_of, stderr_of, opened_of, requested_of.
  induction lines as [|x l (IH1 & IH2 & IH3 & IH4)]; [done|]. csimpl.
  by rewrite IH1, IH2, IH3, IH4.
Qed.

(** X16. The [--list-threats] mode.  With the flag on, [main] does not look
    at [--inactive], [--all-inactive], [--checks-file] or [--json]: a run
    is the run without them.  After the threat model is loaded the run
    only prints to standard output: one line per metric and exit status 0
    when every metric has its dimension, severity and name. *)
Theorem list_threats_mode fj fj' args w :
  list_threats args = true →
  main fj args w = main fj' (list_args args) w ∧
  ∀ t tm, loading args w = (t, Done tm) →
    ∃ lines, (main fj args w).1 = t ++ (Stdout <$> lines) ∧
      (Forall (λ m, ¬ lacks_required m) (get (tm_metrics tm) []) →
       (main fj args w).2 = Done 0 ∧
       length lines = length (get (tm_metrics tm) [])).
Proof.
  intros Hlist. rewrite !main_run. split.
  { change (loading (list_args args)) with (loading args).
    cbn [list_threats list_args]. rewrite Hlist.
    by destruct (loading args w) as [t [tm|e]]. }
  intros t tm Hload. rewrite Hload, Hlist.
  destruct (list_threats_run (get (tm_metrics tm) []) w) as (lines & Ht & Hr).
  unfold io_then, mbind, io_bind, mret, io_ret.
  destruct (io_for_each _ list_threat w) as [t' r]. cbn in Ht, Hr. subst t'.
  exists lines. destruct Hr as [[-> Hlen]|[[k ->] Hex]]; cbn.
  - rewrite app_nil_r. done.
  - split; [done|]. intros Hall. apply Exists_exists in Hex as (m & Hm & Hl).
    rewrite Forall_forall in Hall. by destruct (Hall m Hm).
Qed.

Lemma score_run_args fj args args' tm inactive :
  all_inactive args' = all_inactive args →
  json_output args' = json_output args →
  score_run fj args' tm inactive = score_run fj args tm inactive.
Proof. unfold score_run. by intros -> ->. Qed.

(** What a run prints once the inactive set is built. *)
Lemma score_run_trace fj args tm inactive :
  let run := score_run fj args tm inactive in
  opened_of run.1 = [] ∧ requested_of run.1 = [] ∧
  (stderr_of run.1 = [] ∨
   ∃ known, known_names tm = Ok known ∧ inactive ∖ known ≠ ∅ ∧
     all_inactive args = false ∧
     stderr_of run.1 = [warning (inactive ∖ known)]) ∧
  (∀ known, known_names tm = Ok known →
     inactive ∖ known ≠ ∅ → all_inactive args = false →
     stderr_of run.1 = [warning (inactive ∖ known)]) ∧
  match run.2 with
  | Done code => code = 0 ∧ ∃ report, stdout_of run.1 = [report]
  | Raised _ => stdout_of run.1 = []
  end.
Proof.
  unfold score_run. destruct (known_names tm) as [known|e]; cbn.
  2:{ repeat split; try done; by left. }
  set (warn := if _ && _ then _ else _).
  assert (stdout_of warn = [] ∧ opened_of warn = [] ∧ requested_of warn = [] ∧
          (stderr_of warn = [] ∨
           inactive ∖ known ≠ ∅ ∧ all_inactive args = false ∧
           stderr_of warn = [warning (inactive ∖ known)]) ∧
          (inactive ∖ known ≠ ∅ → all_inactive args = false →
           stderr_of warn = [warning (inactive ∖ known)]))
    as (Hout & Hop & Hreq & Herr & Herr').
  { subst warn. destruct (decide (inactive ∖ known = ∅)) as [He|Hne].
    - rewrite bool_decide_eq_true_2 by done. cbn. repeat split; try done.
      by left.
    - rewrite bool_decide_eq_false_2 by done. cbn.
      destruct (all_inactive args); cbn; repeat split; try done;
        [by left|by right]. }
  assert (stderr_of warn = [] ∨
          ∃ known0, Ok known = Ok known0 ∧ inactive ∖ known0 ≠ ∅ ∧
            all_inactive args = false ∧
            stderr_of warn = [warning (inactive ∖ known0)]) as Herr2.
  { destruct Herr as [?|(? & ? & ?)]; [by left|]. right. by exists known. }
  assert (∀ known0, Ok known = Ok known0 → inactive ∖ known0 ≠ ∅ →
            all_inactive args = false →
            stderr_of warn = [warning (inactive ∖ known0)]) as Herr3.
  { intros ? [= <-]. exact Herr'. }
  destruct (compute_score tm (Some inactive) (all_inactive args)) as [r|e];
    cbn; [|done].
  destruct (if json_output args then fj r else format_text_report r)
    as [report|e]; cbn; [|done].
  unfold stdout_of, stderr_of, opened_of, requested_of in *.
  rewrite !omap_app, Hout, Hop, Hreq. cbn. rewrite !app_nil_r.
  repeat split; try done. by exists report.
Qed.

(** X17. Names in a checks file and names on the command line are the
    same to [main].  When the checks file loads, as a list or as an object
    with an ["inactive"] list, the run has the outcome and prints what the
    run without the file and with its names added to [--inactive] does. *)
Theorem checks_file_as_names fj args w path t names :
  list_threats args = false →
  given (checks_file args) = Some path →
  load_checks_file path w = (t, Done (list_to_set names)) →
  let run := main fj args w in
  let run' := main fj (with_names (inactive_names args ++ names) args) w in
  run.2 = run'.2 ∧
  stdout_of run.1 = stdout_of run'.1 ∧
  stderr_of run.1 = stderr_of run'.1.
Proof.
  intros Hlist Hfile Hload run run'. subst run run'. rewrite !main_run.
  change (loading (with_names _ args)) with (loading args).
  cbn [list_threats with_names]. rewrite Hlist.
  destruct (loading args w) as [t0 [tm|e]]; [|done].
  rewrite !score_and_print_run. cbn [checks_file with_names given].
  rewrite Hfile, Hload.
  change (inactive_names (with_names (inactive_names args ++ names) args))
    with (inactive_names args ++ names).
  rewrite list_to_set_app_L.
  rewrite (score_run_args fj args (with_names _ args)) by done.
  pose proof (load_checks_file_trace path w) as Ht. rewrite Hload in Ht.
  cbn in Ht. subst t.
  destruct (score_run fj args tm _) as [t' r]. cbn.
  unfold stdout_of, stderr_of. by rewrite !omap_app.
Qed.

Lemma known_names_Ok tm known :
  known_names tm = Ok known → known = list_to_set (metric_names tm).
Proof.
  unfold known_names, metric_names. generalize (get (tm_metrics tm) []).
  intros raws H. apply bind_Ok in H as (names & Hnames & [= <-]). f_equal.
  revert names Hnames. induction raws as [|m raws IH]; intros names H.
  - by injection H as <-.
  - cbn [mapM] in H. apply bind_Ok in H as (n & Hn & H).
    apply bind_Ok in H as (ns & Hns & [= <-]).
    destruct (raw_name m) as [n'|] eqn:E; [|done]. injection Hn as ->.
    cbn. rewrite E. cbn. f_equal. by apply IH.
Qed.

Lemma compute_score_agree tm (s1 s2 : gset string) a :
  (∀ n, n ∈ metric_names tm → (n ∈ s1 ↔ n ∈ s2)) →
  compute_score tm (Some s1) a = compute_score tm (Some s2) a.
Proof.
  intros H. unfold compute_score. cbn [get].
  by rewrite (build_metrics_agree s1 s2 a _ H).
Qed.

Lemma known_names_total tm :
  Forall (λ m, is_Some (raw_name m)) (get (tm_metrics tm) []) →
  ∃ known, known_names tm = Ok known.
Proof.
  unfold known_names. generalize (get (tm_metrics tm) []).
  intros raws H.
  assert (∃ names, mapM (λ m, getitem "name" (raw_name m)) raws = Ok names)
    as [names ->]; [|by eexists].
  induction H as [|m raws [n Hn] _ [names IH]]; [by exists []|].
  exists (n :: names). cbn [mapM]. by rewrite Hn, IH.
Qed.

Lemma score_run_unknown fj args tm (s s' : gset string) :
  (∀ n, n ∈ metric_names tm → (n ∈ s ↔ n ∈ s')) →
  (∀ n, n ∈ s' → n ∈ metric_names tm) →
  (score_run fj args tm s).2 = (score_run fj args tm s').2 ∧
  stdout_of (score_run fj args tm s).1 = stdout_of (score_run fj args tm s').1 ∧
  stderr_of (score_run fj args tm s').1 = [].
Proof.
  intros Hagree Hsub. unfold score_run.
  rewrite <- (compute_score_agree tm s s' _ Hagree).
  destruct (known_names tm) as [kn|e] eqn:Hkn; [|done].
  apply known_names_Ok in Hkn. subst kn.
  assert (s' ∖ list_to_set (metric_names tm) = ∅) as ->.
  { apply set_eq. intros n. rewrite elem_of_difference, elem_of_list_to_set.
    specialize (Hsub n). set_solver. }
  rewrite (bool_decide_eq_true_2 (∅ = ∅)) by done. cbn [negb andb].
  set (warn := if _ && _ then _ else _).
  assert (stdout_of warn = []) as Hwarn.
  { subst warn. by destruct (_ && _). }
  destruct (compute_score tm (Some s) (all_inactive args)) as [r|e]; [|done].
  destruct (if json_output args then fj r else format_text_report r)
    as [report|e]; [|done].
  cbn. unfold stdout_of in *. by rewrite omap_app, Hwarn.
Qed.

(** X18. Unknown names only cause a warning.  Without a checks file, a
    run with names that are not names of metrics has the outcome and the
    standard output of the run with those names left out.  The names are
    reported on standard error, by one warning that lists them, unless
    [--all-inactive] is given; the run without them prints no warning. *)
Theorem unknown_names_only_warn fj args w t tm :
  list_threats args = false →
  given (checks_file args) = None →
  loading args w = (t, Done tm) →
  let known := filter (λ n, n ∈ metric_names tm) (inactive_names args) in
  let unknown : gset string :=
    list_to_set (filter (λ n, n ∉ metric_names tm) (inactive_names args)) in
  let run := main fj args w in
  let run' := main fj (with_names known args) w in
  run.2 = run'.2 ∧
  stdout_of run.1 = stdout_of run'.1 ∧
  stderr_of run'.1 = [] ∧
  (stderr_of run.1 = [] ∨ stderr_of run.1 = [warning unknown]) ∧
  (Forall (λ m, is_Some (raw_name m)) (get (tm_metrics tm) []) →
   unknown ≠ ∅ → all_inactive args = false →
   stderr_of run.1 = [warning unknown]).
Proof.
  intros Hlist Hfile Hload known unknown run run'. subst run run'.
  pose proof (loading_trace args w) as (Hout & Herr & _).
  rewrite !main_run.
  change (loading (with_names _ args)) with (loading args).
  cbn [list_threats with_names]. rewrite Hlist, Hload in *. cbn in Hout, Herr.
  rewrite !score_and_print_run. cbn [checks_file with_names given].
  rewrite Hfile.
  change (inactive_names (with_names known args)) with known.
  rewrite (score_run_args fj args (with_names _ args)) by done.
  set (s := list_to_set (inactive_names args) : gset string).
  set (s' := list_to_set known : gset string).
  assert (∀ n, n ∈ metric_names tm → (n ∈ s ↔ n ∈ s')) as Hagree.
  { intros n Hn. subst s s' known.
    rewrite !elem_of_list_to_set, list_elem_of_filter. tauto. }
  assert (∀ n, n ∈ s' → n ∈ metric_names tm) as Hsub.
  { intros n. subst s' known.
    rewrite elem_of_list_to_set, list_elem_of_filter. tauto. }
  assert (∀ kn, known_names tm = Ok kn → s ∖ kn = unknown) as Hsets.
  { intros kn ->%known_names_Ok. subst s unknown. apply set_eq. intros n.
    rewrite elem_of_difference, !elem_of_list_to_set, list_elem_of_filter.
    tauto. }
  destruct (score_run_unknown fj args tm s s' Hagree Hsub)
    as (Hr & Hstdout & Hstderr).
  pose proof (score_run_trace fj args tm s) as (_ & _ & Hw & Hw' & _).
  cbv zeta in Hw, Hw'.
  destruct (score_run fj args tm s) as [t1 r1].
  destruct (score_run fj args tm s') as [t2 r2]. cbn in *.
  unfold stdout_of, stderr_of in *. rewrite !omap_app, Hout, Herr. cbn.
  split; [done|]. split; [done|]. split; [done|]. split.
  - destruct Hw as [?|(kn & Hkn & _ & _ & Hw)]; [by left|]. right.
    by rewrite <- (Hsets kn Hkn).
  - intros Hnames Hne Hall.
    destruct (known_names_total tm Hnames) as [kn Hkn].
    rewrite <- (Hsets kn Hkn) in *. by apply Hw'.
Qed.

(** The run of [main] after the threat model is loaded. *)
Lemma after_loading_trace fj args tm w :
  let run :=
    (if list_threats args then
       io_then (io_for_each (get (tm_metrics tm) []) list_threat) (mret 0)
     else score_and_print fj args tm) w in
  requested_of run.1 = [] ∧
  ∀ code, run.2 = Done code →
    (code = 0 ∧
     (stderr_of run.1 = [] ∨ ∃ unknown, stderr_of run.1 = [warning unknown])) ∨
    (code = 1 ∧ stdout_of run.1 = [] ∧
     ∃ msg, stderr_of run.1 = ["Error loading checks file: " +:+ msg]).
Proof.
  destruct (list_threats args).
  - destruct (list_threats_run (get (tm_metrics tm) []) w)
      as (lines & Ht & Hr).
    unfold io_then, mbind, io_bind, mret, io_ret.
    destruct (io_for_each _ list_threat w) as [t' r]. cbn in Ht, Hr. subst t'.
    destruct (omap_Stdout lines) as (_ & Herr & _ & Hreq).
    destruct Hr as [[-> _]|[[k ->] _]]; cbn; rewrite ?app_nil_r.
    + split; [done|]. intros code [= <-]. left. split; [done|]. by left.
    + split; [done|]. by intros code [=].
  - cbv zeta. rewrite score_and_print_run.
    destruct (given (checks_file args)) as [path|].
    + pose proof (load_checks_file_trace path w) as Ht.
      destruct (load_checks_file path w) as [t [more|e]]; cbn in Ht; subst t.
      * pose proof (score_run_trace fj args tm
                      (list_to_set (inactive_names args) ∪ more))
          as (_ & Hreq & Hw & _ & Hr).
        cbv zeta in *. destruct (score_run _ _ _ _) as [t' r]. cbn in *.
        split; [done|]. intros code ->. destruct Hr as [-> _]. left.
        split; [done|]. destruct Hw as [?|(kn & _ & _ & _ & ?)]; [by left|].
        right. by eexists.
      * destruct e as [msg|msg|msg|msg|msg|hc|reason|e|msg]; cbn;
          (split; [done|]); intros c [= <-];
          right; (split; [done|]); (split; [done|]); by eexists.
    + pose proof (score_run_trace fj args tm
                    (list_to_set (inactive_names args)))
        as (_ & Hreq & Hw & _ & Hr).
      cbv zeta in *. destruct (score_run _ _ _ _) as [t' r]. cbn in *.
      split; [done|]. intros code ->. destruct Hr as [-> _]. left.
      split; [done|]. destruct Hw as [?|(kn & _ & _ & _ & ?)]; [by left|].
      right. by eexists.
Qed.

(** X19. The exit status of [main].  A run that returns, returns 0 or 1.
    A run that returns 1 has printed nothing on standard output and one
    line on standard error, which says that the threat model or the checks
    file could not be loaded.  A run that returns 0 has printed on standard
    error nothing or the one warning about unknown names. *)
Theorem main_exit_status fj args w trace code :
  main fj args w = (trace, Done code) →
  (code = 0 ∧
   (stderr_of trace = [] ∨ ∃ unknown, stderr_of trace = [warning unknown])) ∨
  (code = 1 ∧ stdout_of trace = [] ∧
   ∃ msg, stderr_of trace = ["Error loading threat model: " +:+ msg] ∨
          stderr_of trace = ["Error loading checks file: " +:+ msg]).
Proof.
  rewrite main_run.
  pose proof (loading_trace args w) as (Hout & Herr & _).
  destruct (loading args w) as [t [tm|e]]; cbn in Hout, Herr.
  - pose proof (after_loading_trace fj args tm w) as [_ Hrest].
    cbv zeta in Hrest.
    match type of Hrest with ∀ c, (?run).2 = _ → _ =>
      destruct run as [t' r]
    end.
    cbn in Hrest. intros [= <- ->].
    unfold stdout_of, stderr_of in *. rewrite !omap_app, Hout, Herr. cbn.
    destruct (Hrest code eq_refl) as [[-> Hw]|(-> & Ho & msg & He)].
    + by left.
    + right. split; [done|]. split; [done|]. exists msg. by right.
  - destruct e; intros [= <- <-]; right; (split; [done|]);
      unfold stdout_of, stderr_of in *; rewrite !omap_app, Hout, Herr; cbn;
      (split; [done|]); eexists; by left.
Qed.

(** X20. [main] and the network.  With a local file [main] requests no URL:
    it starts by opening that file.  Without one it requests exactly the
    threat model file of the platform and branch in the repository (the
    platform being one of the five that the parser accepts). *)
Theorem local_file_stays_offline fj args w :
  let trace := (main fj args w).1 in
  match given (local_file args) with
  | Some path => requested_of trace = [] ∧ ∃ rest, trace = Opened path :: rest
  | None =>
      platform args ∈ VALID_PLATFORMS →
      requested_of trace = [THREAT_MODEL_URL (branch args) (platform args)]
  end.
Proof.
  cbv zeta. rewrite main_run.
  pose proof (loading_trace args w) as (_ & _ & Hload).
  destruct (given (local_file args)) as [path|].
  - destruct (loading args w) as [t [tm|e]]; cbn in Hload; subst t.
    + pose proof (after_loading_trace fj args tm w) as [Hreq _].
      cbv zeta in Hreq.
      match type of Hreq with requested_of (?run).1 = _ =>
        destruct run as [t' r]
      end.
      cbn in *. split; [done|]. by eexists.
    + destruct e; cbn; (split; [done|]); by eexists.
  - intros Hp. destruct Hload as [_ Hload].
    destruct (decide (platform args ∈ VALID_PLATFORMS)) as [_|?]; [|done].
    destruct (loading args w) as [t [tm|e]]; cbn in Hload.
    + pose proof (after_loading_trace fj args tm w) as [Hreq _].
      cbv zeta in Hreq.
      match type of Hreq with requested_of (?run).1 = _ =>
        destruct run as [t' r]
      end.
      cbn in *. unfold requested_of in *.
      by rewrite omap_app, Hload, Hreq.
    + destruct e; cbn; unfold requested_of in *;
        rewrite ?omap_app, Hload; done.
Qed.

Lemma well_formed_shape tm :
  well_formed tm →
  nonneg_severities tm ∧
  Forall (λ m, ¬ lacks_required m) (get (tm_metrics tm) []) ∧
  Forall (λ m, is_Some (raw_name m)) (get (tm_metrics tm) []).
Proof.
  unfold well_formed, nonneg_severities. intros H. repeat split.
  - eapply Forall_impl; [exact H|]. cbn.
    intros m (n & d & sv & _ & _ & Hsv & _ & Hpos) sv' Hsv'. congruence.
  - eapply Forall_impl; [exact H|]. cbn.
    intros m (n & d & sv & Hn & Hd & Hsv & _) [?|[?|?]]; congruence.
  - eapply Forall_impl; [exact H|]. cbn.
    intros m (n & d & sv & Hn & _). by eexists.
Qed.

(** X22. [main] on a document of the input shape.  When the threat model
    loads and has the input shape (every metric with a name, one of the
    five dimensions and a severity that is not negative; fewer than
    [2^1023] tags), and the checks file, if one is given, loads, a run for
    the text report returns 0: it lists the threats or prints exactly one
    report, and no exception of [compute_score] or [format_text_report]
    reaches the caller. *)
Theorem main_on_well_formed fj args w t tm :
  loading args w = (t, Done tm) →
  well_formed tm → tag_count tm < 2 ^ 1023 →
  json_output args = false →
  (∀ path, given (checks_file args) = Some path →
           ∃ s, (load_checks_file path w).2 = Done s) →
  (main fj args w).2 = Done 0 ∧
  (list_threats args = false →
   ∃ report, stdout_of (main fj args w).1 = [report]).
Proof.
  intros Hload Hwf Htags Hjson Hchecks.
  destruct (well_formed_shape tm Hwf) as (Hsv & Hkeys & Hnames).
  pose proof (loading_trace args w) as (Hout & _ & _).
  rewrite main_run, Hload in *. cbn in Hout.
  destruct (list_threats args).
  - destruct (list_threats_run (get (tm_metrics tm) []) w)
      as (lines & Ht & Hr).
    unfold io_then, mbind, io_bind, mret, io_ret.
    destruct (io_for_each _ list_threat w) as [t' r]. cbn in Ht, Hr.
    destruct Hr as [[-> _]|[_ Hex]]; [by split|].
    apply Exists_exists in Hex as (m & Hm & Hl).
    rewrite Forall_forall in Hkeys. by destruct (Hkeys m Hm).
  - rewrite score_and_print_run.
    assert (∀ inactive : gset string,
              ∃ warn report,
                score_run fj args tm inactive = (warn ++ [Stdout report], Done 0)
                ∧ stdout_of warn = []) as Hscore.
    { intros inactive. unfold score_run.
      destruct (known_names_total tm Hnames) as [known ->].
      destruct (compute_score_returns tm (Some inactive) (all_inactive args)
                  Hwf Htags) as [r Hr].
      destruct (report_lines_of_score _ _ _ _ Hsv Hr) as (lines & Hlines & _).
      rewrite Hr, Hjson. unfold format_text_report. rewrite Hlines.
      cbn [mbind outcome_bind mret outcome_ret].
      eexists _, _. split; [reflexivity|]. by destruct (_ && _). }
    destruct (given (checks_file args)) as [path|].
    + destruct (Hchecks path eq_refl) as [s Hs].
      pose proof (load_checks_file_trace path w) as Ht.
      destruct (load_checks_file path w) as [t' r]. cbn in Hs, Ht. subst.
      destruct (Hscore (list_to_set (inactive_names args) ∪ s))
        as (warn & report & -> & Hwarn).
      cbn. split; [done|]. intros _. exists report.
      unfold stdout_of in Hout, Hwarn |- *. rewrite omap_app, Hout. csimpl.
      by rewrite omap_app, Hwarn.
    + destruct (Hscore (list_to_set (inactive_names args)))
        as (warn & report & -> & Hwarn).
      cbn. split; [done|]. intros _. exists report.
      unfold stdout_of in Hout, Hwarn |- *.
      by rewrite !omap_app, Hout, Hwarn.
Qed.

(** ** The theorems at the documents of the test suite *)

Ltac run_score E :=
  match goal with
  | |- context [compute_score ?tm ?it ?a] =>
      let r := fresh "r" in
      let e := fresh "e" in
      destruct (compute_score tm it a) as [r|e] eqn:E;
      [exists r; split; [reflexivity|] | vm_compute in E; discriminate]
  end.

Ltac concrete E := vm_compute in E; injection E as <-.

(** Discharge the premise of [H] by evaluation. *)
Ltac premise H :=
  match type of H with
  | ?A → _ =>
      let HA := fresh in
      assert A as HA by (vm_compute; reflexivity); specialize (H HA); clear HA
  end.

(** Evaluate the right-hand side of an equation. *)
Ltac eval_rhs H :=
  match type of H with
  | ?l = ?r => let v := eval vm_compute in r in
               replace r with v in H by (vm_compute; reflexivity)
  end.

(** [test_integer_division]: severities 3 (inactive) and 4 (active) in
    one dimension give the score 42. *)
Lemma dimension_score_floor_witness :
  ∃ r, compute_score model_integer_division (Some {["t1"]}) false = Ok r ∧
    ∃ ds, ScoreResult.dimensions r !! "network" = Some ds ∧
      DimensionScore.current ds = 3 ∧ DimensionScore.maximum ds = 7 ∧
      DimensionScore.score ds = 42.
Proof.
  run_score E.
  destruct (dimension_score_floor _ _ _ _ E) as (_ & Hd & _).
  destruct (Hd "network") as (ds & Hds & Hc & Hm & Hpos & _);
    [by left|].
  concrete E. eval_rhs Hc. eval_rhs Hm.
  exists ds. split; [exact Hds|]. split; [exact Hc|]. split; [exact Hm|].
  rewrite Hm, Hc in Hpos. premise Hpos. destruct Hpos as [-> _]. reflexivity.
Defined.

Lemma overall_and_stars_witness :
  ∃ r, compute_score model_integer_division (Some {["t1"]}) false = Ok r ∧
    ScoreResult.overall r = 42 ∧
    ∃ f, float_of_int 42 = Ok f ∧
         ScoreResult.stars r = float_div (float_mul f f5_0) f100_0.
Proof.
  run_score E.
  destruct (overall_and_stars _ _ _ _ E) as (Hpos & _ & f & Hf & Hstars).
  concrete E. premise Hpos. destruct Hpos as [Hov _].
  split; [rewrite Hov; vm_compute; reflexivity|].
  exists f. split; [exact Hf | exact Hstars].
Defined.

Lemma summary_counts_witness :
  ∃ r, compute_score model_integer_division (Some {["t1"]}) false = Ok r ∧
    ScoreResult.active_threats r + ScoreResult.inactive_threats r
    = ScoreResult.total_metrics r ∧
    ScoreResult.total_metrics r = 2.
Proof.
  run_score E.
  destruct (summary_counts _ _ _ _ E) as (Hsum & Htot & _).
  concrete E. split; [exact Hsum | exact Htot].
Defined.

(** [test_single_tag_partial_compliant]: one of two tagged metrics is
    inactive, the percentage is exactly 50.0. *)
Lemma compliance_by_prefix_witness :
  ∃ r, compute_score model_partial_compliant (Some {["t1"]}) false = Ok r ∧
    ∃ c, ScoreResult.compliance r !! "CIS Benchmark Level 1" = Some c ∧
      ComplianceResult.compliant c = 1 ∧ ComplianceResult.total c = 2 ∧
      ComplianceResult.percentage c = f50_0.
Proof.
  run_score E.
  destruct (compliance_by_prefix _ _ _ _ E) as (_ & _ & Hentry & _).
  destruct (ScoreResult.compliance r !! "CIS Benchmark Level 1")
    as [c|] eqn:Hc; [|concrete E; vm_compute in Hc; discriminate].
  destruct (Hentry _ _ Hc) as (_ & Htot & Hcompl & fc & ft & Hfc & Hft & Hpct).
  concrete E. eval_rhs Htot. eval_rhs Hcompl.
  rewrite Hcompl in Hfc. rewrite Htot in Hft.
  vm_compute in Hfc, Hft. injection Hfc as <-. injection Hft as <-.
  exists c. split; [reflexivity|]. split; [exact Hcompl|].
  split; [exact Htot|]. rewrite Hpct. vm_compute. reflexivity.
Defined.

(** [test_empty_model] *)
Lemma empty_metric_list_witness :
  tm_metrics model_empty = Some [] ∧
  ∃ r, compute_score model_empty None false = Ok r ∧
    ScoreResult.overall r = 0 ∧
    ScoreResult.stars r = f0_0 ∧
    (∀ d, d ∈ DIMENSIONS →
       ∃ ds, ScoreResult.dimensions r !! d = Some ds ∧
             DimensionScore.score ds = -1) ∧
    ScoreResult.compliance r = ∅ ∧
    ScoreResult.metrics r = [] ∧
    ScoreResult.total_metrics r = 0.
Proof.
  split; [reflexivity|].
  exact (empty_metric_list model_empty None false eq_refl).
Defined.

Lemma unknown_dimension_raises_witness :
  (∃ m d, m ∈ get (tm_metrics model_unknown_dimension) [] ∧
          raw_dimension m = Some d ∧ d ∉ DIMENSIONS) ∧
  ∃ k, compute_score model_unknown_dimension None false = Raise (KeyError k).
Proof.
  assert (∃ m d, m ∈ get (tm_metrics model_unknown_dimension) [] ∧
                 raw_dimension m = Some d ∧ d ∉ DIMENSIONS) as Hex.
  { exists (make_metric "door" "physical" 2 []), "physical".
    split; [right; left|]. split; [reflexivity|].
    apply (bool_decide_unpack _). vm_compute. exact I. }
  split; [exact Hex|].
  destruct (unknown_dimension_raises model_unknown_dimension None false Hex)
    as (k & Hk & _).
  exists k. exact Hk.
Defined.

(** [test_all_inactive_best_case] on the two metrics of the division
    test. *)
Lemma all_inactive_best_case_witness :
  ∃ r, compute_score model_integer_division None true = Ok r ∧
    ScoreResult.overall r = 100 ∧ ScoreResult.stars r = f5_0 ∧
    ScoreResult.active_threats r = 0.
Proof.
  run_score E.
  destruct (all_inactive_best_case _ _ _ E) as (_ & Hact & Hpos & _).
  concrete E. premise Hpos. destruct Hpos as [Hov Hstars].
  split; [exact Hov|]. split; [exact Hstars | exact Hact].
Defined.

Lemma unmatched_names_inert_witness :
  compute_score model_integer_division (Some {["t1"]}) false
  = compute_score model_integer_division (Some {["t1"; "ghost"]}) false.
Proof.
  apply unmatched_names_inert. intros n Hn Hnames.
  assert (n = "ghost") as -> by set_solver.
  vm_compute in Hnames.
  repeat (apply elem_of_cons in Hnames as [Hnames|Hnames];
          [discriminate|]).
  by apply elem_of_nil in Hnames.
Defined.

Lemma optional_keys_witness :
  (∃ r, compute_score (mkThreatModel None None) None false = Ok r ∧
        ScoreResult.metrics r = []) ∧
  (∀ r, compute_score model_sparse None false = Ok r →
        ScoreResult.platform r = "unknown") ∧
  compute_score model_sparse None false
  = compute_score (with_all_tags model_sparse) None false ∧
  (∃ k, k ∈ ["name"; "dimension"; "severity"] ∧
        compute_score model_no_severity None false = Raise (KeyError k)).
Proof.
  split; [|split; [|split]].
  - destruct (optional_keys (mkThreatModel None None) None false)
      as (H & _). exact (proj2 (H eq_refl)).
  - destruct (optional_keys model_sparse None false) as (_ & H & _).
    exact (proj1 (H eq_refl)).
  - destruct (optional_keys model_sparse None false) as (_ & _ & H & _).
    exact H.
  - destruct (optional_keys model_no_severity None false) as (_ & _ & _ & H).
    apply H. apply Exists_cons_tl, Exists_cons_hd.
    right; right; reflexivity.
Defined.

(** The run on the document of [Store.doc_heap]: the six objects of the
    document are unchanged and the result is a new object. *)
Lemma compute_score_no_mutation_witness :
  let run :=
    Store.compute_score (Store.VRef 5) (Store.VRef 6) false Store.doc_heap in
  (∀ l o, Store.doc_heap !! l = Some o → run.2 !! l = Some o) ∧
  ∃ l fields, run.1 = Ok (Store.VRef l) ∧ Store.doc_heap !! l = None ∧
    run.2 !! l = Some (Store.OInstance "ScoreResult" fields).
Proof.
  intros run.
  destruct (compute_score_no_mutation Store.doc_heap (Store.VRef 5)
              (Store.VRef 6) false) as [Hun Hres].
  fold run in Hun, Hres. split; [exact Hun|].
  destruct (Hres (Store.VRef 24)) as (l & fields & Hl & Hfresh & Hobj);
    [vm_compute; reflexivity|].
  injection Hl as <-. exists 24%positive, fields.
  split; [vm_compute; reflexivity|]. split; [exact Hfresh | exact Hobj].
Defined.

(** ** The further theorems at example documents *)

Lemma doc_heap_holds_doc_model :
  Store.doc_at Store.doc_heap (Store.VRef 5) Store.doc_model.
Proof.
  eexists. split; [vm_compute; reflexivity|].
  split; [vm_compute; reflexivity|].
  exists (Store.VRef 4), [Store.VRef 2; Store.VRef 3].
  split; [vm_compute; reflexivity|]. split; [vm_compute; reflexivity|].
  constructor; [|constructor; [|constructor]].
  - eexists. split; [vm_compute; reflexivity|].
    split; [vm_compute; reflexivity|]. split; [vm_compute; reflexivity|].
    split; [vm_compute; reflexivity|].
    exists (Store.VRef 1). split; vm_compute; reflexivity.
  - eexists. split; [vm_compute; reflexivity|].
    split; [vm_compute; reflexivity|]. split; [vm_compute; reflexivity|].
    split; vm_compute; reflexivity.
Qed.

Lemma doc_heap_holds_inactive :
  Store.inactive_at Store.doc_heap (Store.VRef 6) (Some {["t1"]}).
Proof. exists 6%positive. split; [reflexivity | vm_compute; reflexivity]. Qed.

Lemma store_refines_witness :
  Store.doc_at Store.doc_heap (Store.VRef 5) Store.doc_model ∧
  Store.inactive_at Store.doc_heap (Store.VRef 6) (Some {["t1"]}) ∧
  Store.decode_run
    (Store.compute_score (Store.VRef 5) (Store.VRef 6) false Store.doc_heap)
  = Some (compute_score Store.doc_model (Some {["t1"]}) false).
Proof.
  split; [exact doc_heap_holds_doc_model|].
  split; [exact doc_heap_holds_inactive|].
  exact (store_refines _ _ _ _ _ false doc_heap_holds_doc_model
           doc_heap_holds_inactive).
Defined.

(** On the document of [Store.doc_heap] the first metric of the result
    has the list at location 1 as its tags: the tag list of the first
    record. *)
Lemma tags_are_shared_witness :
  let run :=
    Store.compute_score (Store.VRef 5) (Store.VRef 6) false Store.doc_heap in
  ∃ l metrics m rest, run.1 = Ok (Store.VRef l) ∧
    Store.doc_heap !! l = None ∧
    Store.read_field run.2 (Store.VRef l) "metrics" = Some metrics ∧
    Store.read_list run.2 metrics = Some (m :: rest) ∧
    Store.read_field Store.doc_heap (Store.VRef 2) "tags"
    = Some (Store.VRef 1) ∧
    Store.read_field run.2 m "tags" = Some (Store.VRef 1).
Proof.
  intros run.
  assert (run.1 = Ok (Store.VRef 24)) as H1 by (vm_compute; reflexivity).
  assert (Store.compute_score (Store.VRef 5) (Store.VRef 6) false
            Store.doc_heap = (Ok (Store.VRef 24), run.2)) as Hrun.
  { rewrite <- H1. apply surjective_pairing. }
  destruct (tags_are_shared _ _ _ _ _ _ _ _ doc_heap_holds_doc_model
              doc_heap_holds_inactive Hrun)
    as (l & metrics & vs & [= <-] & Hfresh & Hm & Hvs & Hall).
  specialize (Hall (Store.VRef 4) [Store.VRef 2; Store.VRef 3]).
  assert (Forall2 (λ x m, ∃ d, Store.read_dict run.2 x = Some d ∧
                     ∀ tv, d !! "tags" = Some tv →
                           Store.read_field run.2 m "tags" = Some tv)
                  [Store.VRef 2; Store.VRef 3] vs) as Hshared.
  { apply Hall; vm_compute; reflexivity. }
  destruct vs as [|m rest]; [inversion Hshared|].
  exists 24%positive, metrics, m, rest.
  split; [exact H1|]. split; [exact Hfresh|]. split; [exact Hm|].
  split; [exact Hvs|]. split; [vm_compute; reflexivity|].
  apply Forall2_cons_1 in Hshared as [(d & Hd & Htags) _].
  apply Htags. vm_compute in Hd. injection Hd as <-. vm_compute. reflexivity.
Defined.

Lemma compute_score_total_witness :
  well_formed model_partial_compliant ∧
  tag_count model_partial_compliant < 2 ^ 1023 ∧
  ∃ r, compute_score model_partial_compliant (Some {["t1"]}) false = Ok r.
Proof.
  assert (well_formed model_partial_compliant) as Hwf.
  { repeat constructor; eexists _, _, _;
      (split; [reflexivity|]); (split; [reflexivity|]);
      (split; [reflexivity|]); (split; [left|vm_compute; discriminate]). }
  assert (tag_count model_partial_compliant < 2 ^ 1023) as Htags
    by (vm_compute; reflexivity).
  split; [exact Hwf|]. split; [exact Htags|].
  destruct (compute_score_total _ (Some {["t1"]}) false Hwf Htags)
    as (r & Hr & _).
  exists r. exact Hr.
Defined.

Lemma nonneg_integer_division : nonneg_severities model_integer_division.
Proof. repeat constructor; intros sv [= <-]; vm_compute; discriminate. Qed.

Lemma scores_in_range_witness :
  nonneg_severities model_integer_division ∧
  ∃ r, compute_score model_integer_division (Some {["t1"]}) false = Ok r ∧
    0 ≤ ScoreResult.overall r ≤ 100 ∧
    SFleb f0_0 (ScoreResult.stars r) = true ∧
    SFleb (ScoreResult.stars r) f5_0 = true.
Proof.
  split; [exact nonneg_integer_division|]. run_score E.
  destruct (scores_in_range _ _ _ _ nonneg_integer_division E)
    as (Hov & H0 & H5 & _).
  split; [exact Hov|]. split; [exact H0 | exact H5].
Defined.

Lemma no_inactive_worst_case_witness :
  (∀ n, n ∈ metric_names model_integer_division → n ∉ get None (∅ : gset string)) ∧
  ∃ r, compute_score model_integer_division None false = Ok r ∧
    ScoreResult.overall r = 0 ∧ ScoreResult.stars r = f0_0 ∧
    ScoreResult.inactive_threats r = 0.
Proof.
  assert (∀ n, n ∈ metric_names model_integer_division
               → n ∉ get None (∅ : gset string)) as Hno.
  { intros n _. apply not_elem_of_empty. }
  split; [exact Hno|]. run_score E.
  destruct (no_inactive_worst_case _ None _ Hno E)
    as (_ & _ & Hin & Hov & Hstars & _).
  split; [exact Hov|]. split; [exact Hstars | exact Hin].
Defined.

Lemma more_inactive_not_lower_witness :
  nonneg_severities model_integer_division ∧
  (∀ n, is_inactive (Some {["t1"]}) false n = true →
        is_inactive None true n = true) ∧
  ∃ r r', compute_score model_integer_division (Some {["t1"]}) false = Ok r ∧
    compute_score model_integer_division None true = Ok r' ∧
    ScoreResult.overall r ≤ ScoreResult.overall r' ∧
    SFleb (ScoreResult.stars r) (ScoreResult.stars r') = true.
Proof.
  assert (∀ n, is_inactive (Some {["t1"]}) false n = true →
               is_inactive None true n = true) as Hle.
  { intros n _. reflexivity. }
  split; [exact nonneg_integer_division|]. split; [exact Hle|].
  destruct (compute_score model_integer_division (Some {["t1"]}) false)
    as [r|e] eqn:E; [|vm_compute in E; discriminate].
  destruct (compute_score model_integer_division None true)
    as [r'|e] eqn:E'; [|vm_compute in E'; discriminate].
  exists r, r'. split; [reflexivity|]. split; [reflexivity|].
  destruct (more_inactive_not_lower _ _ _ _ _ _ _
              nonneg_integer_division Hle E E') as (Hov & Hstars & _).
  split; [exact Hov | exact Hstars].
Defined.

Lemma overall_over_metrics_witness :
  ∃ r, compute_score model_integer_division (Some {["t1"]}) false = Ok r ∧
    sum_severity (ScoreResult.metrics r) = 7 ∧
    sum_severity (List.filter inactive (ScoreResult.metrics r)) = 3 ∧
    ScoreResult.overall r = overall_score 3 7.
Proof.
  run_score E.
  destruct (overall_over_metrics _ _ _ _ E) as (_ & _ & Hov).
  concrete E. split; [vm_compute; reflexivity|].
  split; [vm_compute; reflexivity|]. exact Hov.
Defined.

Lemma key_error_whatever_the_checks_witness :
  compute_score model_unknown_dimension None false
  = Raise (KeyError "physical") ∧
  compute_score model_unknown_dimension (Some {["door"]}) true
  = Raise (KeyError "physical").
Proof.
  assert (compute_score model_unknown_dimension None false
          = Raise (KeyError "physical")) as H by (vm_compute; reflexivity).
  split; [exact H|].
  exact (key_error_whatever_the_checks _ _ _ _ H (Some {["door"]}) true).
Defined.

Lemma metric_order_irrelevant_witness :
  let swapped :=
    [ make_metric "t2" "network" 4 []; make_metric "t1" "network" 3 [] ] in
  get (tm_metrics model_integer_division) [] ≡ₚ swapped ∧
  ∃ r, compute_score model_integer_division (Some {["t1"]}) false = Ok r ∧
    ∃ metrics', metrics' ≡ₚ ScoreResult.metrics r ∧
      compute_score (with_metrics model_integer_division swapped)
                    (Some {["t1"]}) false
      = Ok (set_metrics metrics' r).
Proof.
  intros swapped.
  assert (get (tm_metrics model_integer_division) [] ≡ₚ swapped) as Hp
    by apply perm_swap.
  split; [exact Hp|]. run_score E.
  exact (metric_order_irrelevant _ _ _ _ _ Hp E).
Defined.

Lemma star_bar_of_score_witness :
  nonneg_severities model_integer_division ∧
  ∃ r, compute_score model_integer_division (Some {["t1"]}) false = Ok r ∧
    star_display (ScoreResult.stars r) = Done "**..." ∧
    ScoreResult.overall r = 42.
Proof.
  split; [exact nonneg_integer_division|]. run_score E.
  destruct (star_bar_of_score _ _ _ _ nonneg_integer_division E)
    as (bar & Hbar & Heq & _).
  concrete E. rewrite Hbar, Heq. split; vm_compute; reflexivity.
Defined.

Lemma text_report_of_score_witness :
  nonneg_severities model_integer_division ∧
  ∃ r, compute_score model_integer_division (Some {["t1"]}) false = Ok r ∧
    ∃ lines, report_lines r = Done lines ∧ length lines = 19%nat ∧
      format_text_report r = Done (String.concat newline lines).
Proof.
  split; [exact nonneg_integer_division|]. run_score E.
  destruct (text_report_of_score _ _ _ _ nonneg_integer_division E)
    as (lines & Hlines & Hreport & Hlen).
  exists lines. split; [exact Hlines|]. split; [|exact Hreport].
  concrete E. vm_compute in Hlines. injection Hlines as <-.
  vm_compute. reflexivity.
Defined.

Lemma list_threats_mode_witness :
  list_threats (example_args ["t1"] (Some "checks.json") true) = true ∧
  main example_json (example_args ["t1"] (Some "checks.json") true)
       example_world
  = main example_json (example_args [] None true) example_world ∧
  (main example_json (example_args ["t1"] (Some "checks.json") true)
        example_world).2 = Done 0.
Proof.
  split; [reflexivity|].
  destruct (list_threats_mode example_json example_json
              (example_args ["t1"] (Some "checks.json") true) example_world
              eq_refl) as [Heq Hrun].
  split; [exact Heq|].
  destruct (Hrun [Opened "model.json"] model_partial_compliant)
    as (lines & _ & Hdone); [vm_compute; reflexivity|].
  apply Hdone. repeat constructor; intros [H|[H|H]]; discriminate H.
Defined.

Lemma checks_file_as_names_witness :
  let args := example_args ["t2"] (Some "checks.json") false in
  list_threats args = false ∧
  given (checks_file args) = Some "checks.json" ∧
  load_checks_file "checks.json" example_world
  = ([Opened "checks.json"], Done (list_to_set ["t1"; "ghost"])) ∧
  (main example_json args example_world).2
  = (main example_json (example_args ["t2"; "t1"; "ghost"] None false)
          example_world).2 ∧
  stdout_of (main example_json args example_world).1
  = stdout_of (main example_json
                 (example_args ["t2"; "t1"; "ghost"] None false)
                 example_world).1.
Proof.
  intros args.
  assert (load_checks_file "checks.json" example_world
          = ([Opened "checks.json"], Done (list_to_set ["t1"; "ghost"])))
    as Hload by (vm_compute; reflexivity).
  split; [reflexivity|]. split; [reflexivity|]. split; [exact Hload|].
  destruct (checks_file_as_names example_json args example_world
              "checks.json" _ ["t1"; "ghost"] eq_refl eq_refl Hload)
    as (Hr & Hout & _).
  split; [exact Hr | exact Hout].
Defined.

Lemma unknown_names_only_warn_witness :
  let args := example_args ["t1"; "ghost"] None false in
  list_threats args = false ∧ given (checks_file args) = None ∧
  loading args example_world
  = ([Opened "model.json"], Done model_partial_compliant) ∧
  (main example_json args example_world).2
  = (main example_json (example_args ["t1"] None false) example_world).2 ∧
  stdout_of (main example_json args example_world).1
  = stdout_of (main example_json (example_args ["t1"] None false)
                 example_world).1 ∧
  stderr_of (main example_json args example_world).1
  = ["Warning: unknown threat names (ignored): ghost"].
Proof.
  intros args.
  assert (loading args example_world
          = ([Opened "model.json"], Done model_partial_compliant)) as Hload
    by (vm_compute; reflexivity).
  split; [reflexivity|]. split; [reflexivity|]. split; [exact Hload|].
  destruct (unknown_names_only_warn example_json args example_world _ _
              eq_refl eq_refl Hload) as (Hr & Hout & _ & _ & Hwarn).
  split; [exact Hr|]. split; [exact Hout|].
  rewrite Hwarn; [vm_compute; reflexivity| | |reflexivity].
  - repeat constructor; by eexists.
  - vm_compute. discriminate.
Defined.

Lemma main_exit_status_witness :
  let args := mkArgs "macOS" [] false None "main" None false false in
  main example_json args example_world
  = ([Requested (THREAT_MODEL_URL "main" "macOS")
        "edamame-score-calculator/1.0" 30;
      Stderr "Error loading threat model: Failed to connect to GitHub: Network is unreachable"],
     Done 1) ∧
  stdout_of (main example_json args example_world).1 = [].
Proof.
  intros args.
  assert (main example_json args example_world
          = ([Requested (THREAT_MODEL_URL "main" "macOS")
                "edamame-score-calculator/1.0" 30;
              Stderr "Error loading threat model: Failed to connect to GitHub: Network is unreachable"],
             Done 1)) as Hrun by (vm_compute; reflexivity).
  split; [exact Hrun|].
  destruct (main_exit_status example_json args example_world _ _ Hrun)
    as [[H _]|(_ & Hout & _)]; [discriminate H|].
  rewrite Hrun. exact Hout.
Defined.

Lemma compliance_counts_witness :
  ∃ r c, compute_score model_partial_compliant (Some {["t1"]}) false = Ok r ∧
    ScoreResult.compliance r !! "CIS Benchmark Level 1" = Some c ∧
    ComplianceResult.tag c = "CIS Benchmark Level 1" ∧
    1 ≤ ComplianceResult.total c ∧
    0 ≤ ComplianceResult.compliant c ≤ ComplianceResult.total c.
Proof.
  destruct (compute_score model_partial_compliant (Some {["t1"]}) false)
    as [r|e] eqn:E; [|vm_compute in E; discriminate].
  destruct (ScoreResult.compliance r !! "CIS Benchmark Level 1")
    as [c|] eqn:Hc; [|concrete E; vm_compute in Hc; discriminate].
  exists r, c. split; [reflexivity|]. split; [exact Hc|].
  destruct (compliance_counts _ _ _ _ _ _ E Hc) as (Htag & _ & H1 & Hle & _).
  split; [exact Htag|]. split; [exact H1 | exact Hle].
Defined.

Lemma dimension_line_of_score_witness :
  nonneg_severities model_integer_division ∧
  ∃ r, compute_score model_integer_division (Some {["t1"]}) false = Ok r ∧
    dimension_line (ScoreResult.dimensions r) "network"
    = Done "  Network                 42%  (3/7)" ∧
    dimension_line (ScoreResult.dimensions r) "credentials"
    = Done "  Credentials          N/A (no metrics)  (0/0)".
Proof.
  split; [exact nonneg_integer_division|]. run_score E.
  destruct (ScoreResult.dimensions r !! "network") as [ds|] eqn:Hn;
    [|concrete E; vm_compute in Hn; discriminate].
  destruct (ScoreResult.dimensions r !! "credentials") as [ds'|] eqn:Hc;
    [|concrete E; vm_compute in Hc; discriminate].
  destruct (dimension_line_of_score _ _ _ _ _ _ nonneg_integer_division E Hn)
    as [Hline _].
  destruct (dimension_line_of_score _ _ _ _ _ _ nonneg_integer_division E Hc)
    as [Hline' _].
  concrete E. vm_compute in Hn, Hc. injection Hn as <-. injection Hc as <-.
  split; [rewrite Hline | rewrite Hline']; vm_compute; reflexivity.
Defined.

Lemma main_on_well_formed_witness :
  let args := example_args ["t1"] (Some "checks.json") false in
  loading args example_world
  = ([Opened "model.json"], Done model_partial_compliant) ∧
  well_formed model_partial_compliant ∧
  tag_count model_partial_compliant < 2 ^ 1023 ∧
  (main example_json args example_world).2 = Done 0 ∧
  ∃ report, stdout_of (main example_json args example_world).1 = [report].
Proof.
  intros args.
  assert (loading args example_world
          = ([Opened "model.json"], Done model_partial_compliant)) as Hload
    by (vm_compute; reflexivity).
  assert (well_formed model_partial_compliant) as Hwf.
  { repeat constructor; eexists _, _, _;
      (split; [reflexivity|]); (split; [reflexivity|]);
      (split; [reflexivity|]); (split; [left|vm_compute; discriminate]). }
  assert (tag_count model_partial_compliant < 2 ^ 1023) as Htags
    by (vm_compute; reflexivity).
  split; [exact Hload|]. split; [exact Hwf|]. split; [exact Htags|].
  destruct (main_on_well_formed example_json args example_world _ _
              Hload Hwf Htags eq_refl) as [Hdone Hreport].
  { intros path [= <-]. eexists. vm_compute. reflexivity. }
  split; [exact Hdone|]. exact (Hreport eq_refl).
Defined.
